(** * ULTK grammar engine: rules, expression trees, parsing, enumeration

    A shallow embedding of [ultk/language/grammar.py] and of the parts of
    [ultk/language/semantics.py] it relies on, with the properties of the
    specification stated and proved over it.

    Conventions of the embedding:
    - a Python [str] is a [string]; every character is a code point below 256;
    - a function object is compared by identity, so it is represented by the
      number that identifies it ([Func]);
    - a sequence is a list together with its container kind, because
      [==] between a Python [list] and a [tuple] is always [False];
    - an exception is a value of [exn]; code that can raise returns a
      [result];
    - a generator is run against the loop that consumes it: the state of the
      run carries what was yielded, the caller's dictionary and whether the
      run is still going, has raised, or was left by [break]. *)

From Stdlib Require Import QArith Ascii String ZArith Lia.
From stdpp Require Import base option list gmap strings fin_maps.

Local Open Scope string_scope.
Local Open Scope list_scope.
Local Open Scope nat_scope.

#[local] Set Warnings "-register-all".

(** ** Exceptions and results *)

Inductive exn : Type :=
  | ValueError
  | KeyError
  | IndexError
  | AttributeError
  | TypeError
  | ZeroDivisionError.

Inductive result (A : Type) : Type :=
  | Ok (a : A)
  | Err (e : exn).

Arguments Ok {A} a.
Arguments Err {A} e.

(** ** Python sequences *)

Inductive seq_kind : Type := PyList | PyTuple.

Definition seq_kind_eqb (a b : seq_kind) : bool :=
  match a, b with
  | PyList, PyList | PyTuple, PyTuple => true
  | _, _ => false
  end.

(** ** Symbols and function objects *)

Abbreviation Symbol := string (only parsing).
Abbreviation Func := nat (only parsing).

(** ** Rule *)

Record Rule : Type := mkRule {
  name : string;
  lhs : Symbol;
  rhs : option (list Symbol);
  func : Func;
  weight : Q
}.

(** [Rule.is_terminal]: [self.rhs is None]. *)
Definition is_terminal (r : Rule) : bool :=
  match rhs r with None => true | Some _ => false end.

(** ** GrammaticalExpression

    The fields that [__eq__], [__hash__], [__str__], [__len__] and
    [__call__] read.  The memoised [meaning] slot is mutable state of the
    object and is threaded separately by [evaluate]. *)

Inductive GrammaticalExpression : Type :=
  GExpr (rule_name : string) (gfunc : Func)
        (children : option (seq_kind * list GrammaticalExpression))
        (form : option string).

Definition rule_name (e : GrammaticalExpression) : string :=
  match e with GExpr n _ _ _ => n end.
Definition gfunc (e : GrammaticalExpression) : Func :=
  match e with GExpr _ f _ _ => f end.
Definition children (e : GrammaticalExpression)
  : option (seq_kind * list GrammaticalExpression) :=
  match e with GExpr _ _ c _ => c end.
Definition form (e : GrammaticalExpression) : option string :=
  match e with GExpr _ _ _ f => f end.

(** [", ".join(parts)] *)
Fixpoint join (sep : string) (parts : list string) : string :=
  match parts with
  | [] => ""
  | [p] => p
  | p :: ps => p +:+ sep +:+ join sep ps
  end.

(** [GrammaticalExpression.__str__] *)
Fixpoint ge_str (e : GrammaticalExpression) : string :=
  match e with
  | GExpr n _ None _ => n
  | GExpr n _ (Some (_, cs)) _ => n +:+ "(" +:+ join ", " (map ge_str cs) +:+ ")"
  end.

(** [GrammaticalExpression.__len__] *)
Fixpoint ge_len (e : GrammaticalExpression) : nat :=
  match e with
  | GExpr _ _ None _ => 1
  | GExpr _ _ (Some (_, cs)) _ => 1 + list_sum (map ge_len cs)
  end.

Definition option_eqb {A} (eqb : A -> A -> bool) (a b : option A) : bool :=
  match a, b with
  | None, None => true
  | Some x, Some y => eqb x y
  | _, _ => false
  end.

(** [GrammaticalExpression.__eq__]: the tuples
    [(rule_name, form, func, children)] are compared; a list never equals a
    tuple, and [None] equals only [None]. *)
Fixpoint ge_eq (a b : GrammaticalExpression) : bool :=
  match a, b with
  | GExpr n1 f1 c1 fm1, GExpr n2 f2 c2 fm2 =>
      String.eqb n1 n2
      && option_eqb String.eqb fm1 fm2
      && Nat.eqb f1 f2
      && match c1, c2 with
         | None, None => true
         | Some (k1, l1), Some (k2, l2) =>
             seq_kind_eqb k1 k2
             && (fix go (l1 l2 : list GrammaticalExpression) : bool :=
                   match l1, l2 with
                   | [], [] => true
                   | x :: l1', y :: l2' => ge_eq x y && go l1' l2'
                   | _, _ => false
                   end) l1 l2
         | _, _ => false
         end
  end.

(** Depth of a tree: a leaf has depth 0. *)
Fixpoint ge_depth (e : GrammaticalExpression) : nat :=
  match e with
  | GExpr _ _ None _ => 0
  | GExpr _ _ (Some (_, cs)) _ => S (foldr Nat.max 0 (map ge_depth cs))
  end.

(** ** Grammar *)

Record Grammar : Type := mkGrammar {
  _rules : gmap Symbol (list Rule);
  _rules_by_name : gmap string Rule;
  _start : Symbol
}.

(** [Grammar.__init__] *)
Definition Grammar_init (start : Symbol) : Grammar :=
  mkGrammar ∅ ∅ start.

(** [self._rules[lhs]] on the [defaultdict(list)]: a missing key reads as
    the empty list. *)
Definition rules_of (g : Grammar) (l : Symbol) : list Rule :=
  default [] (_rules g !! l).

(** [Grammar.add_rule].  The grammar is a mutable object: the state it is
    left in is returned together with the outcome of the call, also when the
    call raises. *)
Definition add_rule (g : Grammar) (rule : Rule) : Grammar * result unit :=
  let g1 := mkGrammar (<[lhs rule := rules_of g (lhs rule) ++ [rule]]> (_rules g))
                      (_rules_by_name g) (_start g) in
  match _rules_by_name g1 !! name rule with
  | Some _ => (g1, Err ValueError)
  | None =>
      (mkGrammar (_rules g1) (<[name rule := rule]> (_rules_by_name g1)) (_start g1),
       Ok tt)
  end.

(** Building a grammar rule by rule, stopping at the first error. *)
Fixpoint add_rules (g : Grammar) (rs : list Rule) : Grammar * result unit :=
  match rs with
  | [] => (g, Ok tt)
  | r :: rs' =>
      match add_rule g r with
      | (g', Ok _) => add_rules g' rs'
      | (g', Err e) => (g', Err e)
      end
  end.

(** ** Strings: whitespace and slicing *)

(** [str.isspace] and the regular expression class [\s] agree; below 256
    the whitespace code points are 9-13, 28-32, 133 and 160. *)
Definition is_space (c : ascii) : bool :=
  let n := nat_of_ascii c in
  ((9 <=? n) && (n <=? 13)) || ((28 <=? n) && (n <=? 32))
  || (n =? 133) || (n =? 160).

(** Longest prefix of characters satisfying [p], and the rest. *)
Fixpoint span (p : ascii -> bool) (s : string) : string * string :=
  match s with
  | EmptyString => (EmptyString, EmptyString)
  | String c s' =>
      if p c then let '(a, b) := span p s' in (String c a, b)
      else (EmptyString, s)
  end.

Fixpoint lstrip (s : string) : string :=
  match s with
  | EmptyString => EmptyString
  | String c s' => if is_space c then lstrip s' else s
  end.

Fixpoint rstrip (s : string) : string :=
  match s with
  | EmptyString => EmptyString
  | String c s' =>
      match rstrip s' with
      | EmptyString => if is_space c then EmptyString else String c EmptyString
      | r => String c r
      end
  end.

(** [str.strip()] *)
Definition strip (s : string) : string := rstrip (lstrip s).

(** [token[-1]], which raises [IndexError] on the empty string. *)
Fixpoint last_char (s : string) : option ascii :=
  match s with
  | EmptyString => None
  | String c EmptyString => Some c
  | String _ s' => last_char s'
  end.

(** [token[:-1]] *)
Fixpoint drop_last (s : string) : string :=
  match s with
  | EmptyString => EmptyString
  | String c EmptyString => EmptyString
  | String c s' => String c (drop_last s')
  end.

(** ** Parsing *)

Section Parse.

(** The three delimiter arguments of [parse], each a single character. *)
Variables opener closer delimiter : ascii.

(** The class [[^{open_re}{close_re}{delimit_re}]] of [name_pattern]. *)
Definition name_char (c : ascii) : bool :=
  negb (Ascii.eqb c opener) && negb (Ascii.eqb c closer)
  && negb (Ascii.eqb c delimiter).

(** [token_regex.finditer(expression)]: the successive non-overlapping
    matches of
    [name_pattern open | name_pattern | delimit \s* | close],
    scanning from the left.  At a position the alternatives are tried in
    this order; [name_pattern] is greedy, so it takes the longest run of
    name characters; a character at which no alternative matches is
    skipped.  Each step consumes at least one character, so the length of
    the string bounds the number of steps. *)
Fixpoint finditer_fuel (fuel : nat) (s : string) : list string :=
  match fuel with
  | 0 => []
  | S fuel' =>
      match s with
      | EmptyString => []
      | String c s' =>
          let '(run, rest) := span name_char s in
          match run with
          | String _ _ =>
              match rest with
              | String c' rest' =>
                  if Ascii.eqb c' opener
                  then (run +:+ String c' EmptyString) :: finditer_fuel fuel' rest'
                  else run :: finditer_fuel fuel' rest
              | EmptyString => [run]
              end
          | EmptyString =>
              if Ascii.eqb c delimiter then
                let '(ws, rest') := span is_space s' in
                String c ws :: finditer_fuel fuel' rest'
              else if Ascii.eqb c closer then
                String c EmptyString :: finditer_fuel fuel' s'
              else finditer_fuel fuel' s'
          end
      end
  end.

Definition finditer (s : string) : list string :=
  finditer_fuel (String.length s) s.

(** What one iteration of the loop of [parse] does to the stack.  The
    stack is kept with its top first: [stack.pop()] takes the head and
    [stack[-1]] is the head. *)
Definition parse_token (g : Grammar) (stack : list GrammaticalExpression)
    (tok : string) : result (list GrammaticalExpression) :=
  let token := strip tok in
  match last_char token with
  | None => Err IndexError
  | Some c =>
      if Ascii.eqb c opener then
        let name := drop_last token in
        match _rules_by_name g !! name with
        | None => Err KeyError
        | Some r => Ok (GExpr name (func r) (Some (PyList, [])) None :: stack)
        end
      else if String.eqb token (String delimiter EmptyString)
              || String.eqb token (String closer EmptyString) then
        match stack with
        | [] => Err IndexError
        | child :: stack' =>
            match stack' with
            | [] => Err IndexError
            | GExpr n f (Some (PyList, cs)) fm :: below =>
                Ok (GExpr n f (Some (PyList, cs ++ [child])) fm :: below)
            | _ :: _ => Err AttributeError
            end
        end
      else
        match _rules_by_name g !! token with
        | None => Err KeyError
        | Some r => Ok (GExpr token (func r) None None :: stack)
        end
  end.

Fixpoint parse_tokens (g : Grammar) (stack : list GrammaticalExpression)
    (toks : list string) : result (list GrammaticalExpression) :=
  match toks with
  | [] => Ok stack
  | tok :: toks' =>
      match parse_token g stack tok with
      | Ok stack' => parse_tokens g stack' toks'
      | Err e => Err e
      end
  end.

(** [Grammar.parse] *)
Definition parse_with (g : Grammar) (expression : string)
    : result GrammaticalExpression :=
  match parse_tokens g [] (finditer expression) with
  | Err e => Err e
  | Ok stack =>
      match stack with
      | [e] => Ok e
      | _ => Err ValueError
      end
  end.

End Parse.

(** [parse] with its default arguments [opener="("], [closer=")"],
    [delimiter=","]. *)
Definition parse (g : Grammar) (expression : string)
    : result GrammaticalExpression :=
  parse_with "(" ")" "," g expression.

(** ** The grammar of the specification's concrete scenario *)

Definition rule_T1 : Rule := mkRule "T1" "B" None 1 1.
Definition rule_T2 : Rule := mkRule "T2" "B" None 2 1.
Definition rule_AND : Rule := mkRule "AND" "B" (Some ["B"; "B"]) 3 1.

Definition bool_grammar : Grammar :=
  fst (add_rules (Grammar_init "B") [rule_T1; rule_T2; rule_AND]).

Definition leaf (r : Rule) : GrammaticalExpression :=
  GExpr (name r) (func r) None None.

(** ** Enumeration *)

(** [itertools.product(xs, repeat=n)], in the order [product] yields. *)
Fixpoint product_repeat {A} (xs : list A) (n : nat) : list (list A) :=
  match n with
  | 0 => [[]]
  | S n' =>
      flat_map (fun x => map (cons x) (product_repeat xs n')) xs
  end.

(** [itertools.product] applied to the pools, in the order it yields. *)
Fixpoint product {A} (pools : list (list A)) : list (list A) :=
  match pools with
  | [] => [[]]
  | p :: ps => flat_map (fun x => map (cons x) (product ps)) p
  end.

(** [max(xs)], which raises [ValueError] on an empty argument. *)
Definition py_max (xs : list nat) : option nat :=
  match xs with
  | [] => None
  | x :: xs' => Some (foldl Nat.max x xs')
  end.

Section Enumerate.

(** The keys of the caller's dictionary, and the test by which the
    dictionary matches a stored key against a looked-up one (equal hashes
    and [==]). *)
Context {K : Type}.
Variable key_eqb : K -> K -> bool.

(** A [dict], in insertion order. *)
Definition udict : Type := list (K * GrammaticalExpression).

(** [d[k]] / [k in d] *)
Fixpoint dict_get (d : udict) (k : K) : option GrammaticalExpression :=
  match d with
  | [] => None
  | (k', v) :: d' => if key_eqb k' k then Some v else dict_get d' k
  end.

(** [d[k] = v]: an existing entry keeps its place and its key. *)
Fixpoint dict_set (d : udict) (k : K) (v : GrammaticalExpression) : udict :=
  match d with
  | [] => [(k, v)]
  | (k', v') :: d' =>
      if key_eqb k' k then (k', v) :: d' else (k', v') :: dict_set d' k v
  end.

Inductive status : Type :=
  | Running
  | Raised (e : exn)
  | Stopped.

(** State of a generator run: the expressions yielded so far, the
    [unique_dict] object passed by the caller ([None] when it passed none),
    and how the run stands. *)
Record run : Type := mkRun {
  yielded : list GrammaticalExpression;
  unique_dict : option udict;
  state : status
}.

Definition init_run (d : option udict) : run := mkRun [] d Running.

Definition raise (e : exn) (st : run) : run :=
  match state st with
  | Running => mkRun (yielded st) (unique_dict st) (Raised e)
  | _ => st
  end.

(** The optional arguments [unique_key] and [compare_func]. *)
Variable unique_key : option (GrammaticalExpression -> K).
Variable compare_func
  : option (GrammaticalExpression -> GrammaticalExpression -> bool).

(** The body of the [for] loop that consumes the generator: called after
    each [yield] with the expression and the dictionary, it answers whether
    the loop is left by [break]. *)
Variable consume : GrammaticalExpression -> option udict -> bool.

(** [add_unique] of [enumerate_at_depth], on the dictionary it is given. *)
Definition add_unique (uk : GrammaticalExpression -> K)
    (cf : GrammaticalExpression -> GrammaticalExpression -> bool)
    (d : udict) (expression : GrammaticalExpression) : udict :=
  let expr_key := uk expression in
  match dict_get d expr_key with
  | None => dict_set d expr_key expression
  | Some incumbent =>
      if cf expression incumbent then dict_set d expr_key expression else d
  end.

(** [yield cur_expr], followed by the consumer's loop body. *)
Definition yield_ (cur_expr : GrammaticalExpression) (st : run) : run :=
  let st' := mkRun (yielded st ++ [cur_expr]) (unique_dict st) (state st) in
  if consume cur_expr (unique_dict st')
  then mkRun (yielded st') (unique_dict st') Stopped
  else st'.

(** [if do_unique: add_unique(cur_expr)] then [yield cur_expr].  With
    [unique_dict=None] the membership test of [add_unique] raises
    [TypeError]. *)
Definition emit (cur_expr : GrammaticalExpression) (st : run) : run :=
  match state st with
  | Running =>
      match unique_key, compare_func with
      | Some uk, Some cf =>
          match unique_dict st with
          | None => raise TypeError st
          | Some d =>
              yield_ cur_expr
                (mkRun (yielded st) (Some (add_unique uk cf d cur_expr)) Running)
          end
      | _, _ => yield_ cur_expr st
      end
  | _ => st
  end.

(** A [for] loop inside a generator: the body runs for each element as
    long as the generator has neither raised nor been abandoned. *)
Definition for_each {A} (xs : list A) (body : A -> run -> run) (st : run)
    : run :=
  foldl (fun st x => match state st with Running => body x st | _ => st end)
        st xs.

End Enumerate.

(** A number passed as [max_size]: an integer or [float("inf")]. *)
Inductive py_number : Type :=
  | Finite (n : Z)
  | Infinity.

(** [len(d) == max_size] *)
Definition len_equals {A} (d : list A) (max_size : py_number) : bool :=
  match max_size with
  | Finite n => (Z.of_nat (length d) =? n)%Z
  | Infinity => false
  end.

Section EnumerateGrammar.

Context {K : Type}.
Variable key_eqb : K -> K -> bool.
Variable g : Grammar.

(** A consumer that takes everything, as [product] does with its
    arguments. *)
Definition take_all : GrammaticalExpression -> option (@udict K) -> bool :=
  fun _ _ => false.

(** [product] first exhausts each of the generators it is given, in
    order; the first one that raises makes the call raise. *)
Fixpoint exhaust (gens : list (@run K))
    : result (list (list GrammaticalExpression)) :=
  match gens with
  | [] => Ok []
  | r :: rs =>
      match state r with
      | Raised e => Err e
      | _ =>
          match exhaust rs with
          | Ok pools => Ok (yielded r :: pools)
          | Err e => Err e
          end
      end
  end.

(** [Grammar.enumerate_at_depth], resumed in the run state [st].  The
    recursion is on [fuel]; a call at [depth] only calls itself at smaller
    depths, so [S depth] units of fuel are never used up. *)
Fixpoint enumerate_at_depth_fuel (fuel depth : nat) (lhs : Symbol)
    (unique_key : option (GrammaticalExpression -> K))
    (compare_func : option (GrammaticalExpression -> GrammaticalExpression -> bool))
    (consume : GrammaticalExpression -> option udict -> bool)
    (st : run) : run :=
  match fuel with
  | 0 => st
  | S fuel' =>
      let st0 :=
        if depth =? 0 then
          for_each (rules_of g lhs)
            (fun rule st =>
               if is_terminal rule
               then emit key_eqb unique_key compare_func consume
                      (GExpr (name rule) (func rule) None None) st
               else st)
            st
        else st in
      for_each (rules_of g lhs)
        (fun rule st =>
           match rhs rule with
           | None => st
           | Some rule_rhs =>
               for_each (product_repeat (seq 0 depth) (length rule_rhs))
                 (fun child_depths st =>
                    match py_max child_depths with
                    | None => raise ValueError st
                    | Some m =>
                        if (Z.of_nat m <? Z.of_nat depth - 1)%Z then st
                        else
                          match
                            exhaust
                              (map (fun '(child_depth, child_lhs) =>
                                      enumerate_at_depth_fuel fuel' child_depth
                                        child_lhs None None take_all
                                        (init_run None))
                                   (zip child_depths rule_rhs))
                          with
                          | Err e => raise e st
                          | Ok pools =>
                              for_each (product pools)
                                (fun children st =>
                                   emit key_eqb unique_key compare_func consume
                                     (GExpr (name rule) (func rule)
                                        (Some (PyTuple, children)) None)
                                     st)
                                st
                          end
                    end)
                 st
           end)
        st0
  end.

(** [Grammar.enumerate_at_depth] as called from outside: a fresh
    generator. *)
Definition enumerate_at_depth (depth : nat) (lhs : Symbol)
    (unique_dict : option udict)
    (unique_key : option (GrammaticalExpression -> K))
    (compare_func : option (GrammaticalExpression -> GrammaticalExpression -> bool))
    (consume : GrammaticalExpression -> option udict -> bool) : run :=
  enumerate_at_depth_fuel (S depth) depth lhs unique_key compare_func consume
    (init_run unique_dict).

(** [Grammar.enumerate]: every expression of the inner generator is
    yielded on to the consumer of [enumerate]. *)
Definition enumerate (depth : nat) (lhs : option Symbol)
    (unique_dict : option udict)
    (unique_key : option (GrammaticalExpression -> K))
    (compare_func : option (GrammaticalExpression -> GrammaticalExpression -> bool))
    (consume : GrammaticalExpression -> option udict -> bool) : run :=
  let lhs := default (_start g) lhs in
  for_each (seq 0 depth)
    (fun num st =>
       enumerate_at_depth_fuel (S num) num lhs unique_key compare_func
         consume st)
    (init_run unique_dict).

(** [Grammar.get_unique_expressions] *)
Definition get_unique_expressions (depth : nat) (lhs : option Symbol)
    (max_size : py_number)
    (unique_key : option (GrammaticalExpression -> K))
    (compare_func : option (GrammaticalExpression -> GrammaticalExpression -> bool))
    : result udict :=
  let r :=
    enumerate depth lhs (Some []) unique_key compare_func
      (fun _ d => len_equals (default [] d) max_size) in
  match state r with
  | Raised e => Err e
  | _ => Ok (default [] (unique_dict r))
  end.

End EnumerateGrammar.

(** ** Random generation *)

(** [Grammar.generate].  [random.choices] returns one of the rules of the
    nonterminal; which one depends on the random source, so the expressions
    that [generate(lhs)] can return are described by a relation. *)
Inductive generates (g : Grammar) : Symbol -> GrammaticalExpression -> Prop :=
  | generates_terminal (l : Symbol) (the_rule : Rule) :
      the_rule ∈ rules_of g l ->
      rhs the_rule = None ->
      generates g l (GExpr (name the_rule) (func the_rule) None None)
  | generates_children (l : Symbol) (the_rule : Rule)
      (rule_rhs : list Symbol) (cs : list GrammaticalExpression) :
      the_rule ∈ rules_of g l ->
      rhs the_rule = Some rule_rhs ->
      Forall2 (generates g) rule_rhs cs ->
      generates g l (GExpr (name the_rule) (func the_rule) (Some (PyList, cs)) None).

(** [generate(lhs)] with the default [lhs=None] standing for the start
    symbol. *)
Definition generate (g : Grammar) (l : option Symbol)
    (e : GrammaticalExpression) : Prop :=
  generates g (default (_start g) l) e.

(** ** Referents, universes and meanings *)

(** A referent is an object without [__eq__]: two referents are equal when
    they are the same object, which [ref_id] identifies. *)
Record Referent : Type := mkReferent {
  ref_id : nat;
  ref_name : string
}.

#[global] Instance Referent_eq_dec : EqDecision Referent.
Proof. solve_decision. Defined.

Definition items {A} (s : seq_kind * list A) : list A := snd s.

(** [set(xs) <= set(ys)] for sequences of referents. *)
Definition subset_of (xs ys : list Referent) : bool :=
  forallb (fun x => bool_decide (x ∈ ys)) xs.

(** [==] of two sequences of referents: same container kind, same length,
    the same objects in the same order. *)
Definition referents_eq (a b : seq_kind * list Referent) : bool :=
  seq_kind_eqb (fst a) (fst b) && bool_decide (snd a = snd b).

Section Semantics.

(** Probabilities are floating-point numbers; their arithmetic is left
    uninterpreted. *)
Variable Prob : Type.
Variable p_zero : Prob.
Variable p_inv : nat -> Prob.
Variable p_sum : list Prob -> Prob.
Variable p_div : Prob -> Prob -> option Prob.

Record Universe : Type := mkUniverse {
  u_referents : seq_kind * list Referent;
  _prior : gmap string Prob
}.

(** [Universe.__eq__]: the two universes are the same set of referents. *)
Definition Universe_eq (a b : Universe) : bool :=
  subset_of (items (u_referents a)) (items (u_referents b))
  && subset_of (items (u_referents b)) (items (u_referents a)).

(** [Universe.__len__] *)
Definition Universe_len (u : Universe) : nat := length (items (u_referents u)).

Record Meaning : Type := mkMeaning {
  referents : seq_kind * list Referent;
  universe : Universe;
  dist : gmap string Prob
}.

(** [Meaning.__init__] *)
Definition Meaning_init (refs : seq_kind * list Referent) (u : Universe)
    (d : option (gmap string Prob)) : result Meaning :=
  if negb (subset_of (items refs) (items (u_referents u))) then Err ValueError
  else
    let zeros : gmap string Prob :=
      list_to_map
        (map (fun r => (ref_name r, p_zero))
             (List.filter (fun r => negb (bool_decide (r ∈ items refs)))
                          (items (u_referents u)))) in
    match d with
    | Some d =>
        let total_weight := p_sum (map snd (map_to_list d)) in
        let entry (r : Referent) : result (string * Prob) :=
          match d !! ref_name r with
          | None => Err KeyError
          | Some w =>
              match p_div w total_weight with
              | None => Err ZeroDivisionError
              | Some q => Ok (ref_name r, q)
              end
          end in
        match
          foldr (fun r acc =>
                   match entry r, acc with
                   | Err e, _ => Err e
                   | Ok _, Err e => Err e
                   | Ok x, Ok xs => Ok (x :: xs)
                   end) (Ok []) (items refs)
        with
        | Err e => Err e
        | Ok es => Ok (mkMeaning refs u (zeros ∪ list_to_map es))
        end
    | None =>
        Ok (mkMeaning refs u
              (zeros ∪ list_to_map
                         (map (fun r => (ref_name r, p_inv (length (items refs))))
                              (items refs))))
    end.

(** [Meaning.__bool__] *)
Definition Meaning_bool (m : Meaning) : bool :=
  negb (Nat.eqb (length (items (referents m))) 0)
  && negb (Nat.eqb (Universe_len (universe m)) 0).

(** [Meaning.__eq__] *)
Definition Meaning_eq (a b : Meaning) : bool :=
  referents_eq (referents a) (referents b)
  && Universe_eq (universe a) (universe b).

(** [Meaning.__hash__] is [hash(tuple(self.referents))]; the hash of a
    tuple of referents is a function of the referents in it. *)
Variable hash_tuple : list Referent -> Z.

Definition Meaning_hash (m : Meaning) : Z := hash_tuple (items (referents m)).

(** How a [dict] matches a stored [Meaning] key against a looked-up one. *)
Definition Meaning_key_eqb (stored looked_up : Meaning) : bool :=
  (Meaning_hash stored =? Meaning_hash looked_up)%Z
  && Meaning_eq stored looked_up.

(** Values that rule functions take and return, how a function object is
    called, the truth value of a result, and a referent passed as an
    argument. *)
Variable Val : Type.
Variable call_func : Func -> list Val -> Val.
Variable truthy : Val -> bool.
Variable ref_val : Referent -> Val.

(** [GrammaticalExpression.__call__] *)
Fixpoint ge_call (e : GrammaticalExpression) (args : list Val) : Val :=
  match e with
  | GExpr _ f None _ => call_func f args
  | GExpr _ f (Some (_, cs)) _ => call_func f (map (fun c => ge_call c args) cs)
  end.

(** The truth value of the [meaning] slot: [None] is false. *)
Definition slot_bool (slot : option Meaning) : bool :=
  match slot with
  | None => false
  | Some m => Meaning_bool m
  end.

(** What a call of [evaluate] gives: the meaning returned, the [meaning]
    slot of the expression afterwards, and the referents the expression
    was called on during this call. *)
Record evaluation : Type := mkEvaluation {
  returned : Meaning;
  slot_after : option Meaning;
  called_on : list Referent
}.

(** [GrammaticalExpression.evaluate] on an expression whose [meaning]
    slot holds [slot]. *)
Definition evaluate (e : GrammaticalExpression) (slot : option Meaning)
    (u : Universe) : result evaluation :=
  match slot with
  | Some m =>
      if Meaning_bool m then Ok (mkEvaluation m slot [])
      else
        match
          Meaning_init
            (PyList,
             List.filter (fun referent => truthy (ge_call e [ref_val referent]))
                         (items (u_referents u)))
            u None
        with
        | Err x => Err x
        | Ok m' => Ok (mkEvaluation m' (Some m') (items (u_referents u)))
        end
  | None =>
      match
        Meaning_init
          (PyList,
           List.filter (fun referent => truthy (ge_call e [ref_val referent]))
                       (items (u_referents u)))
          u None
      with
      | Err x => Err x
      | Ok m' => Ok (mkEvaluation m' (Some m') (items (u_referents u)))
      end
  end.

(** Successive calls of [evaluate] on one expression, one per universe of
    [us], each starting from the slot the previous call left. *)
Fixpoint evaluate_seq (e : GrammaticalExpression) (slot : option Meaning)
    (us : list Universe) : list (result evaluation) :=
  match us with
  | [] => []
  | u :: us' =>
      let r := evaluate e slot u in
      r :: evaluate_seq e (match r with Ok ev => slot_after ev | Err _ => slot end) us'
  end.

End Semantics.

Arguments mkUniverse {Prob}.
Arguments u_referents {Prob}.
Arguments _prior {Prob}.
Arguments Universe_eq {Prob}.
Arguments Universe_len {Prob}.
Arguments mkMeaning {Prob}.
Arguments referents {Prob}.
Arguments universe {Prob}.
Arguments dist {Prob}.
Arguments Meaning_init {Prob}.
Arguments Meaning_bool {Prob}.
Arguments Meaning_eq {Prob}.
Arguments Meaning_hash {Prob}.
Arguments Meaning_key_eqb {Prob}.
Arguments ge_call {Val}.
Arguments slot_bool {Prob}.
Arguments mkEvaluation {Prob}.
Arguments returned {Prob}.
Arguments slot_after {Prob}.
Arguments called_on {Prob}.
Arguments evaluate {Prob} p_zero p_inv p_sum p_div {Val}.
Arguments evaluate_seq {Prob} p_zero p_inv p_sum p_div {Val}.


(** ** Notions used in the statements *)

(** The expression with every sequence of children held in a list. *)
Fixpoint as_lists (e : GrammaticalExpression) : GrammaticalExpression :=
  match e with
  | GExpr n f None fm => GExpr n f None fm
  | GExpr n f (Some (_, cs)) fm => GExpr n f (Some (PyList, map as_lists cs)) fm
  end.

(** [proper_subtree s t]: [s] occurs in [t] below the root. *)
Inductive proper_subtree : GrammaticalExpression -> GrammaticalExpression -> Prop :=
  | subtree_child s n f k cs fm :
      s ∈ cs -> proper_subtree s (GExpr n f (Some (k, cs)) fm)
  | subtree_below s c n f k cs fm :
      c ∈ cs -> proper_subtree s c ->
      proper_subtree s (GExpr n f (Some (k, cs)) fm).



(** A rule that reuses the name of [rule_T1]. *)
Definition rule_T1_again : Rule := mkRule "T1" "B" (Some ["B"]) 4 1.

(** Two referents, the universes made of one of them, and the rule
    functions of the scenario read as functions on booleans: the function of
    [T1] returns [True], that of [T2] returns [False], that of [AND] is the
    conjunction of its arguments. *)
Definition ref_a : Referent := mkReferent 1 "a".
Definition ref_b : Referent := mkReferent 2 "b".

Definition universe_a : Universe Q := mkUniverse (PyTuple, [ref_a]) {[ "a" := 1%Q ]}.
Definition universe_b : Universe Q := mkUniverse (PyTuple, [ref_b]) {[ "b" := 1%Q ]}.

Definition bool_call (f : nat) (args : list bool) : bool :=
  match f with
  | 1 => true
  | 2 => false
  | _ => forallb id args
  end.

Definition q_inv (n : nat) : Q := (1 # Pos.of_nat n)%Q.
Definition q_sum (xs : list Q) : Q := foldr Qplus 0%Q xs.
Definition q_div (a b : Q) : option Q :=
  if Qeq_bool b 0 then None else Some (a / b)%Q.

Definition bool_evaluate (e : GrammaticalExpression) (slot : option (Meaning Q))
    (u : Universe Q) : result (evaluation Q) :=
  evaluate 0%Q q_inv q_sum q_div bool_call id (fun _ => false) e slot u.

(** The meaning of an expression that is false of [ref_a], and of one that
    is true of it, over [universe_a]. *)
Definition empty_meaning_a : Meaning Q :=
  mkMeaning (PyList, []) universe_a (list_to_map [("a", 0%Q)]).
Definition empty_meaning_b : Meaning Q :=
  mkMeaning (PyList, []) universe_b (list_to_map [("b", 0%Q)]).
Definition full_meaning_a : Meaning Q :=
  mkMeaning (PyList, [ref_a]) universe_a (list_to_map [("a", 1%Q)]).

(** ** What a generator does, apart from who consumes it *)

Section Scripts.

Context {K : Type}.
Variable key_eqb : K -> K -> bool.

(** The expressions a generator body goes through, in order, and the
    exception it raises after them, if any. *)
Definition script : Type := list GrammaticalExpression * option exn.

(** Running a script in a given run state. *)
Definition play (unique_key : option (GrammaticalExpression -> K))
    (compare_func : option (GrammaticalExpression -> GrammaticalExpression -> bool))
    (consume : GrammaticalExpression -> option (@udict K) -> bool)
    (sc : script) (st : run) : run :=
  let st' := for_each (fst sc) (emit key_eqb unique_key compare_func consume) st in
  match snd sc with
  | Some x => raise x st'
  | None => st'
  end.

Definition then_script (a b : script) : script :=
  match snd a with
  | None => (fst a ++ fst b, snd b)
  | Some _ => a
  end.

(** A piece of generator code is scripted when, whatever the deduplication
    arguments, the consumer and the state it starts in, it does what playing
    one fixed script does; [Q] holds of every expression of the script. *)
Definition scripted (Q : GrammaticalExpression -> Prop)
    (a : option (GrammaticalExpression -> K) ->
         option (GrammaticalExpression -> GrammaticalExpression -> bool) ->
         (GrammaticalExpression -> option (@udict K) -> bool) -> run -> run)
    : Prop :=
  exists sc : script,
    Forall Q (fst sc)
    /\ forall uk cf consume st, a uk cf consume st = play uk cf consume sc st.

(** The dictionary after the expressions [ys] were yielded, starting from
    [d0]. *)
Definition dict_of_yields (unique_key : option (GrammaticalExpression -> K))
    (compare_func : option (GrammaticalExpression -> GrammaticalExpression -> bool))
    (d0 : udict) (ys : list GrammaticalExpression) : udict :=
  match unique_key, compare_func with
  | Some uk, Some cf => foldl (add_unique key_eqb uk cf) d0 ys
  | _, _ => d0
  end.

End Scripts.

(** An expression put together from rules of the grammar, each node
    carrying the name and the function of its rule and as many children as
    the rule has right-hand-side symbols. *)
Inductive from_rules (g : Grammar) : GrammaticalExpression -> Prop :=
  | from_rules_leaf l rule :
      rule ∈ rules_of g l -> rhs rule = None ->
      from_rules g (GExpr (name rule) (func rule) None None)
  | from_rules_node l rule rule_rhs k cs :
      rule ∈ rules_of g l -> rhs rule = Some rule_rhs ->
      length cs = length rule_rhs -> cs <> [] ->
      Forall (from_rules g) cs ->
      from_rules g (GExpr (name rule) (func rule) (Some (k, cs)) None).

(** What [enumerate_at_depth(depth, lhs)] yields: an expression of that
    depth whose root is a rule of [lhs], a leaf at depth 0 and a tuple of
    children otherwise. *)
Definition yield_of (g : Grammar) (depth : nat) (l : Symbol)
    (e : GrammaticalExpression) : Prop :=
  ge_depth e = depth
  /\ from_rules g e
  /\ exists rule,
       rule ∈ rules_of g l /\ rule_name e = name rule /\ gfunc e = func rule
       /\ match rhs rule with
          | None => depth = 0 /\ children e = None
          | Some rule_rhs =>
              exists cs, children e = Some (PyTuple, cs)
                         /\ length cs = length rule_rhs
          end.

(** A comparison that is a strict weak order: nothing is better than
    itself, better is transitive, and so is not-better. *)
Definition strict_weak_order
    (cf : GrammaticalExpression -> GrammaticalExpression -> bool) : Prop :=
  (forall a, cf a a = false)
  /\ (forall a b c, cf a b = true -> cf b c = true -> cf a c = true)
  /\ (forall a b c, cf a b = false -> cf b c = false -> cf a c = false).

(** The test by which a dictionary matches keys is an equivalence. *)
Definition key_equivalence {K} (key_eqb : K -> K -> bool) : Prop :=
  (forall a, key_eqb a a = true)
  /\ (forall a b, key_eqb a b = true -> key_eqb b a = true)
  /\ (forall a b c, key_eqb a b = true -> key_eqb b c = true -> key_eqb a c = true).

(** The expression [AND(a, b)] as [enumerate_at_depth] builds it. *)
Definition and_of (a b : GrammaticalExpression) : GrammaticalExpression :=
  GExpr "AND" 3 (Some (PyTuple, [a; b])) None.

(** Callers' arguments of the scenario: the key of an expression is the
    boolean it evaluates to, and an expression is better when it is shorter.
    [no_longer] is the comparison with [<=] in place of [<], and [one_key]
    gives every expression the same key. *)
Definition truth_value (e : GrammaticalExpression) : bool := ge_call bool_call e [].
Definition shorter (a b : GrammaticalExpression) : bool := ge_len a <? ge_len b.
Definition no_longer (a b : GrammaticalExpression) : bool := ge_len a <=? ge_len b.
Definition one_key (e : GrammaticalExpression) : unit := tt.
Definition unit_eqb (a b : unit) : bool := true.

(** ** Grammars whose expressions can be parsed back *)

Fixpoint all_chars (p : ascii -> bool) (s : string) : bool :=
  match s with
  | EmptyString => true
  | String c s' => p c && all_chars p s'
  end.

(** A rule name that [parse] can read back: not empty, free of the three
    delimiter characters, and unchanged by [strip()]. *)
Definition name_ok (n : string) : bool :=
  negb (String.eqb n "")
  && all_chars (name_char "(" ")" ",") n
  && String.eqb (strip n) n.

(** Rule names and arities are self-consistent: the name index maps the
    name of every rule to that rule, every name can be read back, and a rule
    that is not terminal has at least one right-hand-side symbol. *)
Definition parseable (g : Grammar) : Prop :=
  forall l rule,
    rule ∈ rules_of g l ->
    _rules_by_name g !! name rule = Some rule
    /\ name_ok (name rule) = true
    /\ rhs rule <> Some [].

(** The name index agrees with the rules listed under the left-hand sides. *)
Definition names_indexed (g : Grammar) : Prop :=
  forall l rule, rule ∈ rules_of g l -> _rules_by_name g !! name rule = Some rule.

(** The tokens of the string of an expression: each child is followed by a
    separator, the last one by the closing bracket. *)
Fixpoint children_tokens (tts : list (list string)) : list string :=
  match tts with
  | [] => []
  | [t] => t ++ [")"]
  | t :: tts' => t ++ [", "] ++ children_tokens tts'
  end.

Fixpoint tree_tokens (e : GrammaticalExpression) : list string :=
  match e with
  | GExpr n _ None _ => [n]
  | GExpr n _ (Some (_, cs)) _ =>
      (n +:+ "(") :: children_tokens (map tree_tokens cs)
  end.

(** What follows an expression in the string of a larger one: nothing, a
    closing bracket or a comma. *)
Definition after_expression (rest : string) : Prop :=
  match rest with
  | EmptyString => True
  | String c _ => name_char "(" ")" "," c = false /\ Ascii.eqb c "(" = false
  end.

(** ** What an enumeration yields, as lists *)

(** The script a run went through, read off the run of a generator whose
    consumer takes everything and which does not deduplicate. *)
Definition script_of {K} (r : @run K) : script :=
  (yielded r, match state r with Raised x => Some x | _ => None end).

(** No rule of the grammar has an empty right-hand side ([rhs=[]] or
    [rhs=()]); a terminal rule has [rhs=None]. *)
Definition no_empty_rhs (g : Grammar) : Prop :=
  forall l rule, rule ∈ rules_of g l -> rhs rule <> Some [].

(** The derivation trees of a nonterminal: a leaf for a terminal rule, and
    for another rule a node over a tuple of derivation trees, one for each
    symbol of the right-hand side. *)
Inductive derives (g : Grammar) : Symbol -> GrammaticalExpression -> Prop :=
  | derives_terminal (l : Symbol) (rule : Rule) :
      rule ∈ rules_of g l ->
      rhs rule = None ->
      derives g l (GExpr (name rule) (func rule) None None)
  | derives_node (l : Symbol) (rule : Rule)
      (rule_rhs : list Symbol) (cs : list GrammaticalExpression) :
      rule ∈ rules_of g l ->
      rhs rule = Some rule_rhs ->
      Forall2 (derives g) rule_rhs cs ->
      derives g l (GExpr (name rule) (func rule) (Some (PyTuple, cs)) None).

(** The expressions that the loop of [enumerate_at_depth] over the tuples
    of child depths builds for one rule, when [sub child_depth child_lhs] is
    what the recursive call yields. *)
Definition node_expressions (sub : nat -> Symbol -> list GrammaticalExpression)
    (depth : nat) (rule : Rule) : list GrammaticalExpression :=
  match rhs rule with
  | None => []
  | Some rule_rhs =>
      flat_map
        (fun child_depths =>
           match py_max child_depths with
           | None => []
           | Some m =>
               if (Z.of_nat m <? Z.of_nat depth - 1)%Z then []
               else
                 map (fun children =>
                        GExpr (name rule) (func rule) (Some (PyTuple, children)) None)
                     (product (map (fun '(child_depth, child_lhs) =>
                                      sub child_depth child_lhs)
                                   (zip child_depths rule_rhs)))
           end)
        (product_repeat (seq 0 depth) (length rule_rhs))
  end.

(** The expressions of one call of [enumerate_at_depth]: the leaves at
    depth 0, then the nodes rule by rule. *)
Definition level_expressions (g : Grammar)
    (sub : nat -> Symbol -> list GrammaticalExpression)
    (depth : nat) (l : Symbol) : list GrammaticalExpression :=
  (if depth =? 0 then map leaf (List.filter is_terminal (rules_of g l)) else [])
  ++ flat_map (node_expressions sub depth) (rules_of g l).

(** The deduplication arguments can be used with the dictionary given: with
    both [unique_key] and [compare_func] there is a dictionary. *)
Definition dict_given {K} (uk : option (GrammaticalExpression -> K))
    (cf : option (GrammaticalExpression -> GrammaticalExpression -> bool))
    (ud : option (@udict K)) : Prop :=
  match uk, cf, ud with
  | Some _, Some _, None => False
  | _, _, _ => True
  end.

(** What [enumerate_at_depth(depth, lhs)] yields to a consumer that takes
    everything, for a given amount of fuel. *)
Definition plain_yields {K} (key_eqb : K -> K -> bool) (g : Grammar)
    (fuel depth : nat) (l : Symbol) : list GrammaticalExpression :=
  yielded (enumerate_at_depth_fuel key_eqb g fuel depth l None None take_all
             (init_run None)).

(** A run that is going on or has raised [ValueError]. *)
Definition running_or_ValueError {K} (st : @run K) : Prop :=
  state st = Running \/ state st = Raised ValueError.

(** A rule whose right-hand side is the empty list, and a grammar with it. *)
Definition rule_NIL : Rule := mkRule "NIL" "B" (Some []) 5 1.

Definition nil_grammar : Grammar :=
  fst (add_rules (Grammar_init "B") [rule_T1; rule_NIL]).

(** ** Further methods of expressions *)


Section Hash.

(** The hash of the tuple [(rule_name, form, func, tuple(children))]: a
    function of the two strings, of the function object and of the hashes of
    the children. *)
Variable hash_fields : string -> option string -> Func -> list Z -> Z.

(** [GrammaticalExpression.__hash__]: [self.children or tuple([])] stands
    for the children, made into a tuple. *)
Fixpoint ge_hash (e : GrammaticalExpression) : Z :=
  match e with
  | GExpr n f None fm => hash_fields n fm f []
  | GExpr n f (Some (_, cs)) fm => hash_fields n fm f (map ge_hash cs)
  end.

End Hash.

(** ** Grammars and the rules they were given *)

(** The grammar [g] holds the rules [rs], added in this order to a grammar
    with the start symbol [start]: each nonterminal lists its rules in the
    order they were added, and the name index finds each rule by its name. *)
Definition lists_rules (start : Symbol) (g : Grammar) (rs : list Rule) : Prop :=
  _start g = start
  /\ (forall l, rules_of g l = List.filter (fun r => String.eqb (lhs r) l) rs)
  /\ (forall n, _rules_by_name g !! n
                = List.find (fun r => String.eqb (name r) n) rs)
  /\ NoDup (map name rs).

(** The tokens of the children of an expression whose closing bracket is
    missing. *)
Fixpoint children_tokens_open (tts : list (list string)) : list string :=
  match tts with
  | [] => []
  | [t] => t
  | t :: tts' => t ++ [", "] ++ children_tokens_open tts'
  end.

(** ** Further methods of universes *)

(** A key passed to [Universe.__getitem__]: a [str], an [int], or a value
    of another type. *)
Inductive py_key : Type :=
  | KeyStr (s : string)
  | KeyInt (i : Z)
  | KeyOther.

(** [xs[i]] for an integer [i] on a list or a tuple: a negative index
    counts from the end, and an index out of range raises [IndexError]. *)
Definition py_index {A} (xs : list A) (i : Z) : result A :=
  let n := Z.of_nat (length xs) in
  let j := if (i <? 0)%Z then (i + n)%Z else i in
  if (j <? 0)%Z then Err IndexError
  else
    match xs !! Z.to_nat j with
    | Some x => Ok x
    | None => Err IndexError
    end.

Section Universes.

Variable Prob : Type.
Variable p_inv : nat -> Prob.

(** [self._referents_by_name], as [Universe.__init__] sets it from the
    referents: in the dict comprehension a later referent replaces an earlier
    one of the same name. *)
Definition _referents_by_name (u : Universe Prob) : gmap string Referent :=
  foldl (fun m referent => <[ref_name referent := referent]> m) ∅
        (items (u_referents u)).

(** [Universe.__init__]: [prior or {...}] takes the uniform prior when
    [prior] is [None] or an empty dict. *)
Definition Universe_init (referents : seq_kind * list Referent)
    (prior : option (gmap string Prob)) : Universe Prob :=
  let n := length (items referents) in
  let uniform : gmap string Prob :=
    foldl (fun m referent => <[ref_name referent := p_inv n]> m) ∅
          (items referents) in
  mkUniverse referents
    (match prior with
     | None => uniform
     | Some p =>
         match map_to_list p with
         | [] => uniform
         | _ :: _ => p
         end
     end).

(** [Universe.prior_numpy]: the prior of each referent, in the order of
    the referents. *)
Definition prior_numpy (u : Universe Prob) : result (list Prob) :=
  foldr (fun referent acc =>
           match _prior u !! ref_name referent with
           | None => Err KeyError
           | Some p =>
               match acc with
               | Ok ps => Ok (p :: ps)
               | Err e => Err e
               end
           end)
        (Ok []) (items (u_referents u)).

(** [Universe.__getitem__] *)
Definition Universe_getitem (u : Universe Prob) (key : py_key) : result Referent :=
  match key with
  | KeyStr s =>
      match _referents_by_name u !! s with
      | Some r => Ok r
      | None => Err KeyError
      end
  | KeyInt i => py_index (items (u_referents u)) i
  | KeyOther => Err KeyError
  end.

End Universes.

Arguments _referents_by_name {Prob}.
Arguments Universe_init {Prob}.
Arguments prior_numpy {Prob}.
Arguments Universe_getitem {Prob}.

(** The rules of each nonterminal have pairwise different names, as in a
    grammar built by [add_rule] without error. *)
Definition unique_names (g : Grammar) : Prop :=
  forall l, NoDup (map name (rules_of g l)).

(** The depths of the children of an expression. *)
Definition child_depths_of (e : GrammaticalExpression) : list nat :=
  match children e with
  | Some (_, cs) => map ge_depth cs
  | None => []
  end.

(** ** Ordering of expressions *)

(** [<] between two tuples, or two lists: the first place where the items
    differ, by [==], decides, by [<] of the two items there; when one sequence
    is the beginning of the other, the shorter one is smaller. *)
Definition seq_lt {A} (eqb : A -> A -> bool) (lt : A -> A -> result bool)
    : list A -> list A -> result bool :=
  fix go (l1 l2 : list A) : result bool :=
    match l1, l2 with
    | [], [] => Ok false
    | [], _ :: _ => Ok true
    | _ :: _, [] => Ok false
    | x :: l1', y :: l2' => if eqb x y then go l1' l2' else lt x y
    end.

(** The container that [self.children or tuple([])] is: an empty tuple
    for [None] and for an empty sequence. *)
Definition kind_or_tuple {A} (k : seq_kind) (l : list A) : seq_kind :=
  match l with
  | [] => PyTuple
  | _ :: _ => k
  end.

(** [GrammaticalExpression.__lt__]: the tuples
    [(rule_name, form, func, children)] are compared, with
    [self.children or tuple([])] for the children.  The first field in which
    the two differ decides: names and forms are compared as strings; [<]
    between [None] and a string, between two function objects, or between a
    list and a tuple raises [TypeError]. *)
Fixpoint ge_lt (a b : GrammaticalExpression) : result bool :=
  match a, b with
  | GExpr n1 f1 c1 fm1, GExpr n2 f2 c2 fm2 =>
      if negb (String.eqb n1 n2) then Ok (String.ltb n1 n2)
      else if negb (option_eqb String.eqb fm1 fm2) then
        match fm1, fm2 with
        | Some s1, Some s2 => Ok (String.ltb s1 s2)
        | _, _ => Err TypeError
        end
      else if negb (Nat.eqb f1 f2) then Err TypeError
      else
        match c1, c2 with
        | None, None => Ok false
        | None, Some (k2, l2) =>
            if seq_kind_eqb PyTuple (kind_or_tuple k2 l2)
            then seq_lt ge_eq ge_lt [] l2
            else Err TypeError
        | Some (k1, l1), None =>
            if seq_kind_eqb (kind_or_tuple k1 l1) PyTuple
            then seq_lt ge_eq ge_lt l1 []
            else Err TypeError
        | Some (k1, l1), Some (k2, l2) =>
            if seq_kind_eqb (kind_or_tuple k1 l1) (kind_or_tuple k2 l2)
            then seq_lt ge_eq ge_lt l1 l2
            else Err TypeError
        end
  end.

(** Of two expressions, one is smaller than the other by [<], or they are
    the same; no comparison raises. *)
Definition comparable (a b : GrammaticalExpression) : Prop :=
  (ge_lt a b = Ok true /\ ge_lt b a = Ok false /\ a <> b)
  \/ (a = b /\ ge_lt a b = Ok false)
  \/ (ge_lt a b = Ok false /\ ge_lt b a = Ok true /\ a <> b).

(** * Properties *)

(** ** Rule insertion *)

Lemma add_rule_duplicate (g : Grammar) (rule : Rule) :
  is_Some (_rules_by_name g !! name rule) ->
  snd (add_rule g rule) = Err ValueError
  /\ _rules_by_name (fst (add_rule g rule)) = _rules_by_name g
  /\ rules_of (fst (add_rule g rule)) (lhs rule) = rules_of g (lhs rule) ++ [rule].
Proof.
  intros [r Hr]. unfold add_rule. cbn [_rules_by_name].
  rewrite Hr. cbn. split; [done|]. split; [done|].
  unfold rules_of at 1. cbn. by rewrite lookup_insert_eq.
Qed.

Lemma add_rule_duplicate_changes (g : Grammar) (rule : Rule) :
  is_Some (_rules_by_name g !! name rule) ->
  fst (add_rule g rule) <> g.
Proof.
  intros H Heq.
  destruct (add_rule_duplicate g rule H) as (_ & _ & Hl).
  rewrite Heq in Hl.
  apply (f_equal length) in Hl. rewrite length_app in Hl. cbn in Hl. lia.
Qed.

(** C6. Evaluation of [add_rule] at a rule whose name is taken: the call
    raises [ValueError], and the grammar it leaves behind lists the rejected
    rule under its left-hand side although the name index does not have it. *)
Theorem add_rule_duplicate_T1 :
  snd (add_rule bool_grammar rule_T1_again) = Err ValueError
  /\ rules_of (fst (add_rule bool_grammar rule_T1_again)) "B"
     = [rule_T1; rule_T2; rule_AND; rule_T1_again]
  /\ _rules_by_name (fst (add_rule bool_grammar rule_T1_again)) !! "T1"
     = Some rule_T1
  /\ fst (add_rule bool_grammar rule_T1_again) <> bool_grammar.
Proof.
  split; [vm_compute; reflexivity|].
  split; [vm_compute; reflexivity|].
  split; [vm_compute; reflexivity|].
  apply add_rule_duplicate_changes. vm_compute. eauto.
Qed.

(** ** Parse failures *)





(** The string of the specification's scenario fails to parse under every
    grammar, whatever rules it has. *)
Lemma parse_missing_closer (g : Grammar) :
  exists e, parse g "AND(T1,T1" = Err e.
Proof.
  unfold parse, parse_with.
  change (finditer "(" ")" "," "AND(T1,T1") with ["AND("; "T1"; ","; "T1"].
  cbn [parse_tokens].
  change (parse_token "(" ")" "," g [] "AND(")
    with (match _rules_by_name g !! "AND" with
          | None => Err KeyError
          | Some r => Ok [GExpr "AND" (func r) (Some (PyList, [])) None]
          end).
  destruct (_rules_by_name g !! "AND") as [r|]; [|eauto].
  set (a := GExpr "AND" (func r) (Some (PyList, [])) None).
  change (parse_token "(" ")" "," g [a] "T1")
    with (match _rules_by_name g !! "T1" with
          | None => Err KeyError
          | Some r => Ok [GExpr "T1" (func r) None None; a]
          end).
  destruct (_rules_by_name g !! "T1") as [t|]; [|eauto].
  subst a.
  change (parse_token "(" ")" "," g
            [GExpr "T1" (func t) None None; GExpr "AND" (func r) (Some (PyList, [])) None] ",")
    with (Ok (A:=list GrammaticalExpression)
            [GExpr "AND" (func r) (Some (PyList, [GExpr "T1" (func t) None None])) None]).
  cbn beta iota.
  set (a := GExpr "AND" (func r) _ None).
  change (parse_token "(" ")" "," g [a] "T1")
    with (match _rules_by_name g !! "T1" with
          | None => Err KeyError
          | Some r => Ok [GExpr "T1" (func r) None None; a]
          end).
  destruct (_rules_by_name g !! "T1") as [t'|]; eauto.
Qed.

(** An unbalanced input that leaves exactly one entry on the stack is
    not malformed in the sense above: [parse] returns the entry. *)
Lemma parse_unclosed_single_entry :
  parse bool_grammar "AND(" = Ok (GExpr "AND" 3 (Some (PyList, [])) None).
Proof. vm_compute. reflexivity. Qed.

(** ** Meanings as dictionary keys *)

Section MeaningFacts.

Variable Prob : Type.
Variable hash_tuple : list Referent -> Z.

Lemma subset_of_refl (xs : list Referent) : subset_of xs xs = true.
Proof.
  unfold subset_of. apply forallb_forall. intros x Hx.
  apply bool_decide_eq_true. by apply list_elem_of_In.
Qed.

Lemma Universe_eq_refl (u : Universe Prob) : Universe_eq u u = true.
Proof. unfold Universe_eq. by rewrite subset_of_refl. Qed.

Lemma referents_eq_refl (r : seq_kind * list Referent) : referents_eq r r = true.
Proof.
  unfold referents_eq. destruct r as [[] l]; cbn; by apply bool_decide_eq_true.
Qed.

(** C10. Equality of meanings reads only the referents and the universe,
    the hash only the referents: two meanings with the same referents over
    the same universe are equal and hash alike whatever their distributions,
    and a dictionary keyed by meanings takes the second for the key of the
    first. *)
Theorem Meaning_eq_hash_ignore_dist :
  (forall r1 u1 r2 u2 (d1 d1' d2 d2' : gmap string Prob),
     Meaning_eq (mkMeaning r1 u1 d1) (mkMeaning r2 u2 d2)
     = Meaning_eq (mkMeaning r1 u1 d1') (mkMeaning r2 u2 d2'))
  /\ (forall r u u' (d d' : gmap string Prob),
        Meaning_hash hash_tuple (mkMeaning r u d)
        = Meaning_hash hash_tuple (mkMeaning r u' d'))
  /\ (forall r u (d d' : gmap string Prob),
        Meaning_eq (mkMeaning r u d) (mkMeaning r u d') = true
        /\ Meaning_hash hash_tuple (mkMeaning r u d)
           = Meaning_hash hash_tuple (mkMeaning r u d'))
  /\ (forall r u (d d' : gmap string Prob) (e e' : GrammaticalExpression),
        dict_get (Meaning_key_eqb hash_tuple) [(mkMeaning r u d, e)] (mkMeaning r u d')
        = Some e
        /\ dict_set (Meaning_key_eqb hash_tuple) [(mkMeaning r u d, e)]
             (mkMeaning r u d') e'
           = [(mkMeaning r u d, e')]).
Proof.
  split; [reflexivity|]. split; [reflexivity|].
  assert (Heq : forall r u (d d' : gmap string Prob),
             Meaning_eq (mkMeaning r u d) (mkMeaning r u d') = true).
  { intros. unfold Meaning_eq. cbn. by rewrite referents_eq_refl, Universe_eq_refl. }
  split; [intros; split; [apply Heq|reflexivity]|].
  intros r u d d' e e'.
  assert (Hk : Meaning_key_eqb hash_tuple (mkMeaning r u d) (mkMeaning r u d') = true).
  { unfold Meaning_key_eqb. rewrite Heq. unfold Meaning_hash. cbn.
    by rewrite Z.eqb_refl. }
  cbn. by rewrite Hk.
Qed.

End MeaningFacts.

(** ** Memoised evaluation *)

Section EvaluateFacts.

Variable Prob : Type.
Variable p_zero : Prob.
Variable p_inv : nat -> Prob.
Variable p_sum : list Prob -> Prob.
Variable p_div : Prob -> Prob -> option Prob.
Variable Val : Type.
Variable call_func : nat -> list Val -> Val.
Variable truthy : Val -> bool.
Variable ref_val : Referent -> Val.

Lemma evaluate_slot_after (e : GrammaticalExpression) (slot : option (Meaning Prob))
    (u : Universe Prob) (ev : evaluation Prob) :
  evaluate p_zero p_inv p_sum p_div call_func truthy ref_val e slot u = Ok ev ->
  Meaning_bool (returned ev) = true ->
  slot_after ev = Some (returned ev).
Proof.
  unfold evaluate. intros H Hb.
  destruct slot as [m|].
  - destruct (Meaning_bool m) eqn:Hm.
    + injection H as <-. cbn in *. done.
    + destruct (Meaning_init _ _ _ _ _ _) as [m'|x]; [|discriminate].
      by injection H as <-.
  - destruct (Meaning_init _ _ _ _ _ _) as [m'|x]; [|discriminate].
    by injection H as <-.
Qed.

Lemma evaluate_truthy_slot (e : GrammaticalExpression) (m : Meaning Prob)
    (u : Universe Prob) :
  Meaning_bool m = true ->
  evaluate p_zero p_inv p_sum p_div call_func truthy ref_val e (Some m) u
  = Ok (mkEvaluation m (Some m) []).
Proof. intros H. unfold evaluate. by rewrite H. Qed.

(** C8, amended. Once [evaluate] has returned a meaning that is true as a
    boolean (its referents and its universe are not empty), every later call
    on the same expression returns that meaning, leaves the slot as it is
    and does not call the expression, whatever universe it is given. *)
Theorem evaluate_cached_nonempty (e : GrammaticalExpression)
    (slot : option (Meaning Prob)) (u : Universe Prob) (ev : evaluation Prob) :
  evaluate p_zero p_inv p_sum p_div call_func truthy ref_val e slot u = Ok ev ->
  Meaning_bool (returned ev) = true ->
  forall us : list (Universe Prob),
    Forall (fun r => r = Ok (mkEvaluation (returned ev) (slot_after ev) []))
           (evaluate_seq p_zero p_inv p_sum p_div call_func truthy ref_val e
              (slot_after ev) us).
Proof.
  intros H Hb us.
  rewrite (evaluate_slot_after e slot u ev H Hb).
  induction us as [|u' us IH]; cbn [evaluate_seq]; [constructor|].
  rewrite (evaluate_truthy_slot e (returned ev) u' Hb). cbn [slot_after].
  constructor; [done|]. exact IH.
Qed.

End EvaluateFacts.

(** C8, as stated, fails: the expression [T2] is false of every referent, so
    the meaning cached by a first call is empty and counts as false; a second
    call with another universe calls the expression again and returns a
    different meaning. *)
Lemma evaluate_empty_meaning_recomputed :
  bool_evaluate (leaf rule_T2) None universe_a
  = Ok (mkEvaluation empty_meaning_a (Some empty_meaning_a) [ref_a])
  /\ bool_evaluate (leaf rule_T2) (Some empty_meaning_a) universe_b
     = Ok (mkEvaluation empty_meaning_b (Some empty_meaning_b) [ref_b])
  /\ empty_meaning_b <> empty_meaning_a.
Proof.
  split; [vm_compute; reflexivity|].
  split; [vm_compute; reflexivity|].
  intros H. apply (f_equal (fun m => items (u_referents (universe m)))) in H.
  discriminate H.
Qed.

Lemma evaluate_cached_nonempty_witness :
  Forall (fun r => r = Ok (mkEvaluation full_meaning_a (Some full_meaning_a) []))
         (evaluate_seq 0%Q q_inv q_sum q_div bool_call id (fun _ => false)
            (leaf rule_T1) (Some full_meaning_a) [universe_b; universe_a]).
Proof.
  exact (evaluate_cached_nonempty Q 0%Q q_inv q_sum q_div bool bool_call id
           (fun _ => false) (leaf rule_T1) None universe_a
           (mkEvaluation full_meaning_a (Some full_meaning_a) [ref_a])
           eq_refl eq_refl [universe_b; universe_a]).
Defined.

(** ** Runs of generators *)

Section RunFacts.

Context {K : Type}.
Variable key_eqb : K -> K -> bool.

Implicit Types (st : @run K) (sc : script) (e : GrammaticalExpression).

Lemma for_each_cons {A} (x : A) (xs : list A) (body : A -> run -> run) st :
  for_each (x :: xs) body st
  = for_each xs body (match state st with Running => body x st | _ => st end).
Proof. reflexivity. Qed.

Lemma for_each_not_running {A} (xs : list A) (body : A -> run -> run) st :
  state st <> Running -> for_each xs body st = st.
Proof.
  revert st. induction xs as [|x xs IH]; intros st H; [done|].
  rewrite for_each_cons. destruct (state st) eqn:E; try done; apply IH; congruence.
Qed.

Lemma for_each_app {A} (xs ys : list A) (body : A -> run -> run) st :
  for_each (xs ++ ys) body st = for_each ys body (for_each xs body st).
Proof. unfold for_each. apply foldl_app. Qed.

Lemma raise_not_running x st : state st <> Running -> raise x st = st.
Proof. unfold raise. by destruct (state st). Qed.

Lemma raise_state x st : state (raise x st) <> Running.
Proof. unfold raise. destruct (state st) eqn:E; cbn; congruence. Qed.

Lemma emit_not_running uk cf consume e st :
  state st <> Running -> emit key_eqb uk cf consume e st = st.
Proof. unfold emit. by destruct (state st). Qed.

Lemma play_not_running uk cf consume sc st :
  state st <> Running -> play key_eqb uk cf consume sc st = st.
Proof.
  intros H. unfold play. rewrite for_each_not_running by done.
  destruct (snd sc); [by apply raise_not_running|done].
Qed.

Lemma play_then uk cf consume (a b : script) st :
  play key_eqb uk cf consume (then_script a b) st
  = play key_eqb uk cf consume b (play key_eqb uk cf consume a st).
Proof.
  unfold then_script. destruct a as [ys [x|]]; cbn [snd fst].
  - symmetry. apply play_not_running. unfold play. cbn [snd]. apply raise_state.
  - unfold play. cbn [fst snd]. by rewrite for_each_app.
Qed.

Lemma scripted_skip Q : scripted key_eqb Q (fun _ _ _ st => st).
Proof. exists ([], None). split; [constructor|done]. Qed.

Lemma scripted_raise Q x : scripted key_eqb Q (fun _ _ _ st => raise x st).
Proof. exists ([], Some x). split; [constructor|done]. Qed.

Lemma scripted_emit (Q : GrammaticalExpression -> Prop) e :
  Q e -> scripted key_eqb Q (fun uk cf consume st => emit key_eqb uk cf consume e st).
Proof.
  intros H. exists ([e], None). split; [by repeat constructor|].
  intros. unfold play. cbn [fst snd]. rewrite for_each_cons. cbn.
  destruct (state st) eqn:E; [done| |]; apply emit_not_running; congruence.
Qed.

Lemma scripted_then Q a b :
  scripted key_eqb Q a -> scripted key_eqb Q b ->
  scripted key_eqb Q (fun uk cf consume st => b uk cf consume (a uk cf consume st)).
Proof.
  intros (sa & Qa & Ha) (sb & Qb & Hb). exists (then_script sa sb). split.
  - unfold then_script. destruct (snd sa); [done|]. cbn. by apply Forall_app.
  - intros. by rewrite play_then, Ha, Hb.
Qed.

Lemma scripted_ext Q a b :
  (forall uk cf consume st, a uk cf consume st = b uk cf consume st) ->
  scripted key_eqb Q a -> scripted key_eqb Q b.
Proof.
  intros E (sc & HQ & H). exists sc. split; [done|]. intros. by rewrite <- E.
Qed.

Lemma scripted_weaken (Q Q' : GrammaticalExpression -> Prop) a :
  (forall e, Q e -> Q' e) -> scripted key_eqb Q a -> scripted key_eqb Q' a.
Proof.
  intros HQ (sc & H & Ha). exists sc. split; [|done].
  eapply Forall_impl; eauto.
Qed.

Lemma scripted_not_running Q a uk cf consume st :
  scripted key_eqb Q a -> state st <> Running -> a uk cf consume st = st.
Proof. intros (sc & _ & H) Hs. rewrite H. by apply play_not_running. Qed.

Lemma scripted_for_each {A} Q (xs : list A)
    (body : option (GrammaticalExpression -> K) ->
            option (GrammaticalExpression -> GrammaticalExpression -> bool) ->
            (GrammaticalExpression -> option (@udict K) -> bool) -> A -> run -> run) :
  (forall x, x ∈ xs -> scripted key_eqb Q (fun uk cf consume => body uk cf consume x)) ->
  scripted key_eqb Q (fun uk cf consume st => for_each xs (body uk cf consume) st).
Proof.
  induction xs as [|x xs IH]; intros H; [apply scripted_skip|].
  eapply scripted_ext;
    [|apply (scripted_then Q (fun uk cf consume => body uk cf consume x)
               (fun uk cf consume st => for_each xs (body uk cf consume) st))].
  - intros. cbn beta. rewrite for_each_cons.
    destruct (state st) eqn:E; [done| |];
      (rewrite (scripted_not_running Q (fun uk cf consume => body uk cf consume x));
       [done|apply H; left|congruence]).
  - apply H. left.
  - apply IH. intros y Hy. apply H. by right.
Qed.

End RunFacts.

(** ** Products and maxima *)

Lemma elem_of_product {A} (pools : list (list A)) (cs : list A) :
  cs ∈ product pools -> Forall2 (fun c p => c ∈ p) cs pools.
Proof.
  revert cs. induction pools as [|p ps IH]; intros cs H; cbn in H.
  - apply list_elem_of_singleton in H as ->. constructor.
  - apply list_elem_of_In, in_flat_map in H as (x & Hx & H).
    apply in_map_iff in H as (cs' & <- & Hcs').
    constructor; [by apply list_elem_of_In|]. apply IH. by apply list_elem_of_In.
Qed.

Lemma elem_of_product_repeat {A} (xs : list A) (n : nat) (ys : list A) :
  ys ∈ product_repeat xs n -> length ys = n /\ Forall (fun y => y ∈ xs) ys.
Proof.
  revert ys. induction n as [|n IH]; intros ys H; cbn in H.
  - apply list_elem_of_singleton in H as ->. split; [done|constructor].
  - apply list_elem_of_In, in_flat_map in H as (x & Hx & H).
    apply in_map_iff in H as (ys' & <- & Hys').
    apply list_elem_of_In, IH in Hys' as [Hl Hf].
    split; [cbn; by rewrite Hl|]. constructor; [by apply list_elem_of_In|done].
Qed.

Lemma foldl_max (x : nat) (xs : list nat) :
  foldl Nat.max x xs = Nat.max x (foldr Nat.max 0 xs).
Proof.
  revert x. induction xs as [|y ys IH]; intros x; cbn; [lia|].
  rewrite IH. lia.
Qed.

Lemma py_max_spec (xs : list nat) (m : nat) :
  py_max xs = Some m -> xs <> [] /\ m = foldr Nat.max 0 xs.
Proof.
  destruct xs as [|x xs]; [discriminate|]. cbn. intros [= <-].
  split; [done|]. apply foldl_max.
Qed.

Lemma foldr_max_lt (xs : list nat) (d : nat) :
  xs <> [] -> Forall (fun x => x < d) xs -> foldr Nat.max 0 xs < d.
Proof.
  intros Hne H. induction H as [|x xs Hx H IH]; [done|]. cbn.
  destruct xs as [|y ys]; cbn in *; [lia|].
  specialize (IH ltac:(done)). lia.
Qed.

Lemma foldr_max_elem (xs : list nat) :
  xs <> [] -> foldr Nat.max 0 xs ∈ xs.
Proof.
  induction xs as [|x xs IH]; [done|]. intros _. cbn.
  destruct xs as [|y ys]; [rewrite Nat.max_0_r; left|].
  specialize (IH ltac:(done)).
  destruct (Nat.max_spec x (foldr Nat.max 0 (y :: ys))) as [[_ ->]|[_ ->]];
    [by right|left].
Qed.

Lemma Forall2_map_right {A B C} (P : A -> C -> Prop) (f : B -> C)
    (l : list A) (k : list B) :
  Forall2 P l (map f k) -> Forall2 (fun x y => P x (f y)) l k.
Proof.
  revert l. induction k as [|y k IH]; intros l H; cbn in H.
  - inversion H. constructor.
  - inversion H as [|x c l' k' Hx Hl]; subst. constructor; [done|by apply IH].
Qed.

(** ** The expressions an enumeration goes through *)

Section EnumerateFacts.

Context {K : Type}.
Variable key_eqb : K -> K -> bool.
Variable g : Grammar.

Lemma for_each_emit_take_all (es ys : list GrammaticalExpression) (d : option (@udict K)) :
  for_each es (emit key_eqb None None take_all) (mkRun ys d Running)
  = mkRun (ys ++ es) d Running.
Proof.
  revert ys. induction es as [|e es IH]; intros ys.
  - by rewrite app_nil_r.
  - rewrite for_each_cons. cbn. unfold yield_. cbn. rewrite IH.
    by rewrite <- app_assoc.
Qed.

Lemma scripted_yielded Q a :
  scripted key_eqb Q a ->
  Forall Q (yielded (a None None take_all (init_run None))).
Proof.
  intros (sc & HQ & H). rewrite H. unfold play, init_run.
  rewrite for_each_emit_take_all. cbn.
  destruct (snd sc); done.
Qed.

Lemma exhaust_ok (gens : list (@run K)) pools :
  exhaust gens = Ok pools -> pools = map yielded gens.
Proof.
  revert pools. induction gens as [|r rs IH]; intros pools; cbn.
  - by intros [= <-].
  - destruct (state r); try discriminate;
      (destruct (exhaust rs) as [ps|]; [|discriminate]);
      intros [= <-]; by rewrite (IH ps).
Qed.

Lemma yield_of_leaf (l : Symbol) (rule : Rule) :
  rule ∈ rules_of g l -> is_terminal rule = true ->
  yield_of g 0 l (GExpr (name rule) (func rule) None None).
Proof.
  unfold is_terminal. intros Hin Ht.
  destruct (rhs rule) eqn:E; [discriminate|].
  split; [done|]. split; [by eapply from_rules_leaf|].
  exists rule. rewrite E. done.
Qed.

Lemma yield_of_node (depth : nat) (l : Symbol) (rule : Rule)
    (rule_rhs : list Symbol) (cds : list nat) (m : nat)
    (cs : list GrammaticalExpression) :
  rule ∈ rules_of g l -> rhs rule = Some rule_rhs ->
  cds ∈ product_repeat (seq 0 depth) (length rule_rhs) ->
  py_max cds = Some m ->
  (Z.of_nat m <? Z.of_nat depth - 1)%Z = false ->
  Forall2 (fun c z => yield_of g (fst z) (snd z) c) cs (zip cds rule_rhs) ->
  yield_of g depth l (GExpr (name rule) (func rule) (Some (PyTuple, cs)) None).
Proof.
  intros Hin Hrhs Hcds Hmax Hlt Hcs.
  apply elem_of_product_repeat in Hcds as [Hlen Hall].
  apply py_max_spec in Hmax as [Hne ->].
  assert (Hd : foldr Nat.max 0 cds < depth).
  { apply foldr_max_lt; [done|]. eapply Forall_impl; [exact Hall|].
    intros x Hx. apply elem_of_seq in Hx. lia. }
  apply Z.ltb_ge in Hlt.
  assert (Hzip : length (zip cds rule_rhs) = length rule_rhs).
  { rewrite length_zip_with. lia. }
  assert (Hcl : length cs = length rule_rhs).
  { rewrite <- Hzip. by eapply Forall2_length. }
  assert (Hdepths : map ge_depth cs = cds).
  { rewrite <- (fst_zip cds rule_rhs) by lia.
    clear -Hcs. induction Hcs as [|c z cs zs [H _] _ IH]; cbn; [done|].
    by rewrite H, IH. }
  split; [cbn; rewrite Hdepths; lia|]. split.
  - eapply from_rules_node; eauto.
    + intros ->. cbn in Hcl. destruct cds; [done|]. cbn in Hlen. lia.
    + clear -Hcs. induction Hcs as [|c z cs zs (_ & H & _) _ IH]; by constructor.
  - exists rule. rewrite Hrhs. cbn. repeat split; try done. by exists cs.
Qed.

Lemma enumerate_at_depth_fuel_scripted (fuel depth : nat) (l : Symbol) :
  scripted key_eqb (yield_of g depth l)
    (fun uk cf consume st =>
       enumerate_at_depth_fuel key_eqb g fuel depth l uk cf consume st).
Proof.
  revert depth l. induction fuel as [|fuel IH]; intros depth l.
  { apply scripted_skip. }
  cbn [enumerate_at_depth_fuel].
  refine (scripted_then key_eqb _
            (fun uk cf consume st => if depth =? 0 then _ else st)
            (fun uk cf consume st => for_each (rules_of g l) _ st) _ _).
  - destruct (depth =? 0) eqn:E; [|apply scripted_skip].
    apply Nat.eqb_eq in E as ->.
    refine (scripted_for_each key_eqb _ _ (fun uk cf consume rule st => _) _).
    intros rule Hin. destruct (is_terminal rule) eqn:Ht; [|apply scripted_skip].
    apply scripted_emit. by apply yield_of_leaf.
  - refine (scripted_for_each key_eqb _ _ (fun uk cf consume rule st => _) _).
    intros rule Hin. destruct (rhs rule) as [rule_rhs|] eqn:Hrhs; [|apply scripted_skip].
    refine (scripted_for_each key_eqb _ _ (fun uk cf consume cds st => _) _).
    intros cds Hcds. destruct (py_max cds) as [m|] eqn:Hmax; [|apply scripted_raise].
    destruct (Z.of_nat m <? Z.of_nat depth - 1)%Z eqn:Hlt; [apply scripted_skip|].
    destruct (exhaust _) as [pools|x] eqn:Hex; [|apply scripted_raise].
    refine (scripted_for_each key_eqb _ _ (fun uk cf consume cs st => _) _).
    intros cs Hcs. apply scripted_emit.
    eapply yield_of_node; eauto.
    apply exhaust_ok in Hex as ->.
    apply elem_of_product in Hcs. rewrite map_map in Hcs.
    apply Forall2_map_right in Hcs.
    eapply Forall2_impl; [exact Hcs|].
    intros c [cd cl] Hc. cbn in Hc |- *.
    pose proof (scripted_yielded _ _ (IH cd cl)) as HQ.
    rewrite Forall_forall in HQ. by apply HQ.
Qed.

End EnumerateFacts.

(** ** Fuel *)

Section Fuel.

Context {K : Type}.
Variable key_eqb : K -> K -> bool.
Variable g : Grammar.

Lemma for_each_ext {A} (xs : list A) (b1 b2 : A -> @run K -> @run K) (st : run) :
  (forall x st, x ∈ xs -> b1 x st = b2 x st) ->
  for_each xs b1 st = for_each xs b2 st.
Proof.
  revert st. induction xs as [|x xs IH]; intros st H; [done|].
  rewrite !for_each_cons. rewrite (H x st) by left.
  apply IH. intros y st' Hy. apply H. by right.
Qed.

(** A call at [depth] never runs out of fuel when it is given more than
    [depth]: the result does not depend on how much more. *)
Lemma enumerate_at_depth_fuel_enough (f1 f2 depth : nat) (l : Symbol) uk cf consume st :
  depth < f1 -> depth < f2 ->
  enumerate_at_depth_fuel key_eqb g f1 depth l uk cf consume st
  = enumerate_at_depth_fuel key_eqb g f2 depth l uk cf consume st.
Proof.
  revert f2 depth l uk cf consume st.
  induction f1 as [|f1 IH]; intros f2 depth l uk cf consume st H1 H2; [lia|].
  destruct f2 as [|f2]; [lia|]. cbn [enumerate_at_depth_fuel].
  apply for_each_ext. intros rule st1 _.
  destruct (rhs rule) as [rule_rhs|]; [|done].
  apply for_each_ext. intros cds st2 Hcds.
  destruct (py_max cds) as [m|]; [|done].
  destruct (Z.of_nat m <? Z.of_nat depth - 1)%Z; [done|].
  apply elem_of_product_repeat in Hcds as [_ Hall]. rewrite Forall_forall in Hall.
  replace (map (fun '(child_depth, child_lhs) =>
                  enumerate_at_depth_fuel key_eqb g f1 child_depth child_lhs None None
                    take_all (init_run None)) (zip cds rule_rhs))
    with (map (fun '(child_depth, child_lhs) =>
                 enumerate_at_depth_fuel key_eqb g f2 child_depth child_lhs None None
                   take_all (init_run None)) (zip cds rule_rhs)); [done|].
  apply map_ext_in. intros [cd cl] Hin.
  apply list_elem_of_In, elem_of_zip_l, Hall, elem_of_seq in Hin.
  symmetry. apply IH; lia.
Qed.

End Fuel.

(** ** Invariants of runs *)

Section RunInvariants.

Context {K : Type}.
Variable key_eqb : K -> K -> bool.

Lemma for_each_invariant {A} (I : @run K -> Prop) (xs : list A)
    (body : A -> run -> run) (st : run) :
  (forall x st, x ∈ xs -> state st = Running -> I st -> I (body x st)) ->
  I st -> I (for_each xs body st).
Proof.
  revert st. induction xs as [|x xs IH]; intros st Hb Hst; [done|].
  rewrite for_each_cons. apply IH.
  - intros y st' Hy. apply Hb. by right.
  - destruct (state st) eqn:E; try done. apply Hb; [left|done|done].
Qed.

Lemma play_invariant (I : @run K -> Prop) uk cf consume (sc : script) (st : run) :
  (forall e st, e ∈ fst sc -> state st = Running -> I st ->
                I (emit key_eqb uk cf consume e st)) ->
  (forall x st, state st = Running -> I st -> I (raise x st)) ->
  I st -> I (play key_eqb uk cf consume sc st).
Proof.
  intros He Hr Hst. unfold play.
  assert (H : I (for_each (fst sc) (emit key_eqb uk cf consume) st)).
  { by apply for_each_invariant. }
  destruct (snd sc) as [x|]; [|done].
  destruct (state (for_each (fst sc) (emit key_eqb uk cf consume) st)) eqn:E.
  - by apply Hr.
  - rewrite raise_not_running; [done|congruence].
  - rewrite raise_not_running; [done|congruence].
Qed.

(** Every expression yielded comes from the script. *)
Lemma play_yielded (Q : GrammaticalExpression -> Prop) uk cf consume
    (sc : script) (st : run) :
  Forall Q (fst sc) -> Forall Q (yielded st) ->
  Forall Q (yielded (play key_eqb uk cf consume sc st)).
Proof.
  intros HQ. apply (play_invariant (fun st => Forall Q (yielded st))).
  - intros e st' He Hs H. unfold emit. rewrite Hs.
    assert (Hy : forall st1, yielded st1 = yielded st' ->
                             Forall Q (yielded (yield_ consume e st1))).
    { intros st1 E. rewrite Forall_forall in HQ.
      unfold yield_. destruct (consume _ _); cbn; rewrite E;
        (apply Forall_app; split; [done|]); apply Forall_singleton; by apply HQ. }
    destruct uk as [uk|]; [destruct cf as [cf|]|]; try by apply Hy.
    destruct (unique_dict st') as [d|]; [by apply Hy|].
    unfold raise. by rewrite Hs.
  - intros x st' Hs H. unfold raise. by rewrite Hs.
Qed.

(** The dictionary is what [add_unique] makes of the expressions yielded,
    one after the other. *)
Lemma play_unique_dict uk cf consume (sc : script) (st : run) (d0 : udict) :
  unique_dict st = Some (dict_of_yields key_eqb uk cf d0 (yielded st)) ->
  unique_dict (play key_eqb uk cf consume sc st)
  = Some (dict_of_yields key_eqb uk cf d0
            (yielded (play key_eqb uk cf consume sc st))).
Proof.
  apply (play_invariant
           (fun st => unique_dict st
                      = Some (dict_of_yields key_eqb uk cf d0 (yielded st)))).
  - intros e st' _ Hs H. unfold emit. rewrite Hs.
    destruct uk as [uk|]; [destruct cf as [cf|]|].
    + rewrite H. unfold yield_. cbn [yielded unique_dict].
      destruct (consume _ _); cbn [yielded unique_dict];
        unfold dict_of_yields; by rewrite foldl_app.
    + unfold yield_. destruct (consume _ _); cbn; by rewrite H.
    + unfold yield_. destruct (consume _ _); cbn; by rewrite H.
  - intros x st' Hs H. unfold raise. by rewrite Hs.
Qed.

End RunInvariants.

(** ** Depth of subtrees *)

Lemma ge_depth_child (c : GrammaticalExpression) (cs : list GrammaticalExpression) :
  c ∈ cs -> ge_depth c <= foldr Nat.max 0 (map ge_depth cs).
Proof.
  induction 1 as [c cs|c c' cs _ IH]; cbn; lia.
Qed.

Lemma proper_subtree_depth (s t : GrammaticalExpression) :
  proper_subtree s t -> ge_depth s < ge_depth t.
Proof.
  induction 1 as [s n f k cs fm Hin|s c n f k cs fm Hin _ IH]; cbn.
  - apply ge_depth_child in Hin. lia.
  - apply ge_depth_child in Hin. lia.
Qed.

Lemma from_rules_form (g : Grammar) (e : GrammaticalExpression) :
  from_rules g e -> form e = None.
Proof. by destruct 1. Qed.

Lemma from_rules_children (g : Grammar) (e : GrammaticalExpression) k cs :
  from_rules g e -> children e = Some (k, cs) -> cs <> [] /\ Forall (from_rules g) cs.
Proof. destruct 1; cbn; [discriminate|]. by intros [= <- <-]. Qed.

(** ** Enumeration at a depth *)

Section EnumerateTheorems.

Context {K : Type}.
Variable key_eqb : K -> K -> bool.
Variable g : Grammar.

Lemma enumerate_at_depth_yield_of (depth : nat) (l : Symbol) ud uk cf consume :
  Forall (yield_of g depth l)
         (yielded (enumerate_at_depth key_eqb g depth l ud uk cf consume)).
Proof.
  unfold enumerate_at_depth.
  destruct (enumerate_at_depth_fuel_scripted key_eqb g (S depth) depth l)
    as (sc & HQ & H).
  rewrite H. apply play_yielded; [done|constructor].
Qed.

Lemma enumerate_at_depth_unique_dict (depth : nat) (l : Symbol) d0 uk cf consume :
  unique_dict (enumerate_at_depth key_eqb g depth l (Some d0) uk cf consume)
  = Some (dict_of_yields key_eqb uk cf d0
            (yielded (enumerate_at_depth key_eqb g depth l (Some d0) uk cf consume))).
Proof.
  unfold enumerate_at_depth.
  destruct (enumerate_at_depth_fuel_scripted key_eqb g (S depth) depth l)
    as (sc & HQ & H).
  rewrite H. apply play_unique_dict. cbn. by destruct uk, cf.
Qed.

(** C2. For [depth >= 1], an expression yielded by
    [enumerate_at_depth(depth, lhs)] is built from a non-terminal rule of
    [lhs]; none of its children is deeper than [depth - 1] and one of them
    has exactly that depth; and no call of [enumerate_at_depth] at another
    depth yields it. *)
Theorem enumerate_at_depth_partition (depth : nat) (l : Symbol) ud uk cf consume
    (e : GrammaticalExpression) :
  1 <= depth ->
  e ∈ yielded (enumerate_at_depth key_eqb g depth l ud uk cf consume) ->
  (exists rule rule_rhs cs,
     rule ∈ rules_of g l
     /\ rhs rule = Some rule_rhs
     /\ e = GExpr (name rule) (func rule) (Some (PyTuple, cs)) None
     /\ length cs = length rule_rhs
     /\ Forall (fun c => ge_depth c <= depth - 1) cs
     /\ Exists (fun c => ge_depth c = depth - 1) cs)
  /\ (forall depth' l' ud' uk' cf' consume',
        e ∈ yielded (enumerate_at_depth key_eqb g depth' l' ud' uk' cf' consume') ->
        depth' = depth).
Proof.
  intros Hd Hin.
  pose proof (enumerate_at_depth_yield_of depth l ud uk cf consume) as HQ.
  rewrite Forall_forall in HQ. destruct (HQ e Hin) as (Hdepth & Hfr & rule & Hr & Hn & Hf & Hc).
  split.
  - destruct (rhs rule) as [rule_rhs|] eqn:Hrhs; [|lia].
    destruct Hc as (cs & Hcs & Hlen).
    exists rule, rule_rhs, cs.
    pose proof (from_rules_form g e Hfr) as Hform.
    destruct (from_rules_children g e _ _ Hfr Hcs) as [Hne _].
    destruct e as [n f c fm]. cbn in *. subst.
    repeat split; try done.
    + apply Forall_forall. intros c Hc. apply ge_depth_child in Hc. lia.
    + apply Exists_exists.
      assert (Hm : foldr Nat.max 0 (map ge_depth cs) ∈ map ge_depth cs).
      { apply foldr_max_elem. by destruct cs. }
      apply list_elem_of_In, in_map_iff in Hm as (c & Hc & Hcin).
      exists c. split; [by apply list_elem_of_In|lia].
  - intros depth' l' ud' uk' cf' consume' Hin'.
    pose proof (enumerate_at_depth_yield_of depth' l' ud' uk' cf' consume') as HQ'.
    rewrite Forall_forall in HQ'. destruct (HQ' e Hin') as (Hdepth' & _). congruence.
Qed.

(** C9. With deduplication on, the dictionary after a call of
    [enumerate_at_depth] is the dictionary before it updated by [add_unique]
    with the expressions the call yielded, in order, and with nothing else;
    no proper subtree of a yielded expression is among them.  Without the
    deduplication arguments, as in the recursive calls, the dictionary is
    left as it was. *)
Theorem dedup_only_top_level (depth : nat) (l : Symbol) (d0 : udict)
    (uk : GrammaticalExpression -> K)
    (cf : GrammaticalExpression -> GrammaticalExpression -> bool) consume :
  unique_dict (enumerate_at_depth key_eqb g depth l (Some d0) (Some uk) (Some cf) consume)
  = Some (foldl (add_unique key_eqb uk cf) d0
            (yielded (enumerate_at_depth key_eqb g depth l (Some d0) (Some uk)
                        (Some cf) consume)))
  /\ (forall t s,
        t ∈ yielded (enumerate_at_depth key_eqb g depth l (Some d0) (Some uk)
                       (Some cf) consume) ->
        proper_subtree s t ->
        s ∉ yielded (enumerate_at_depth key_eqb g depth l (Some d0) (Some uk)
                       (Some cf) consume))
  /\ (forall consume',
        unique_dict (enumerate_at_depth key_eqb g depth l (Some d0) None None consume')
        = Some d0).
Proof.
  split; [apply (enumerate_at_depth_unique_dict depth l d0 (Some uk) (Some cf))|].
  split.
  - intros t s Ht Hsub Hs.
    pose proof (enumerate_at_depth_yield_of depth l (Some d0) (Some uk) (Some cf) consume)
      as HQ.
    rewrite Forall_forall in HQ.
    destruct (HQ t Ht) as (Hdt & _). destruct (HQ s Hs) as (Hds & _).
    apply proper_subtree_depth in Hsub. lia.
  - intros consume'.
    apply (enumerate_at_depth_unique_dict depth l d0 None None).
Qed.

End EnumerateTheorems.

Lemma dedup_only_top_level_witness :
  unique_dict (enumerate_at_depth Bool.eqb bool_grammar 1 "B" (Some []) (Some truth_value)
                 (Some shorter) take_all)
  = Some (foldl (add_unique Bool.eqb truth_value shorter) []
            (yielded (enumerate_at_depth Bool.eqb bool_grammar 1 "B" (Some [])
                        (Some truth_value) (Some shorter) take_all)))
  /\ leaf rule_T1
     ∉ yielded (enumerate_at_depth Bool.eqb bool_grammar 1 "B" (Some []) (Some truth_value)
                  (Some shorter) take_all).
Proof.
  pose proof (dedup_only_top_level Bool.eqb bool_grammar 1 "B" [] truth_value shorter
                take_all) as (Hd & Hsub & _).
  split; [exact Hd|].
  apply (Hsub (and_of (leaf rule_T1) (leaf rule_T1)) (leaf rule_T1)).
  - vm_compute. left.
  - apply subtree_child. left.
Defined.

Lemma enumerate_at_depth_partition_witness :
  1 <= 1
  /\ and_of (leaf rule_T1) (leaf rule_T1)
     ∈ yielded (enumerate_at_depth Bool.eqb bool_grammar 1 "B" None None None take_all)
  /\ (exists rule rule_rhs cs,
        rule ∈ rules_of bool_grammar "B"
        /\ rhs rule = Some rule_rhs
        /\ and_of (leaf rule_T1) (leaf rule_T1)
           = GExpr (name rule) (func rule) (Some (PyTuple, cs)) None
        /\ length cs = length rule_rhs
        /\ Forall (fun c => ge_depth c <= 1 - 1) cs
        /\ Exists (fun c => ge_depth c = 1 - 1) cs)
  /\ (forall depth' l' ud' uk' cf' consume',
        and_of (leaf rule_T1) (leaf rule_T1)
        ∈ yielded (enumerate_at_depth Bool.eqb bool_grammar depth' l' ud' uk' cf' consume') ->
        depth' = 1).
Proof.
  assert (H1 : 1 <= 1) by lia.
  assert (H2 : and_of (leaf rule_T1) (leaf rule_T1)
               ∈ yielded (enumerate_at_depth Bool.eqb bool_grammar 1 "B" None None
                            None take_all)).
  { vm_compute. left. }
  split; [exact H1|]. split; [exact H2|].
  exact (enumerate_at_depth_partition Bool.eqb bool_grammar 1 "B" None None None
           take_all _ H1 H2).
Defined.

(** ** Depth 0 *)

Section DepthZero.

Context {K : Type}.
Variable key_eqb : K -> K -> bool.
Variable g : Grammar.

Lemma terminals_yielded (rules : list Rule) (ys : list GrammaticalExpression)
    (od : option (@udict K)) :
  for_each rules
    (fun rule st =>
       if is_terminal rule
       then emit key_eqb None None take_all (GExpr (name rule) (func rule) None None) st
       else st)
    (mkRun ys od Running)
  = mkRun (ys ++ map leaf (List.filter is_terminal rules)) od Running.
Proof.
  revert ys. induction rules as [|r rules IH]; intros ys.
  - cbn. by rewrite app_nil_r.
  - rewrite for_each_cons. cbn [state List.filter].
    destruct (is_terminal r); [|apply IH].
    cbn. unfold yield_. cbn. rewrite IH. by rewrite <- app_assoc.
Qed.

Lemma terminals_yielded_dedup (rules : list Rule) (ys : list GrammaticalExpression)
    (d : @udict K) uk cf :
  for_each rules
    (fun rule st =>
       if is_terminal rule
       then emit key_eqb (Some uk) (Some cf) take_all
              (GExpr (name rule) (func rule) None None) st
       else st)
    (mkRun ys (Some d) Running)
  = mkRun (ys ++ map leaf (List.filter is_terminal rules))
      (Some (foldl (add_unique key_eqb uk cf) d
               (map leaf (List.filter is_terminal rules))))
      Running.
Proof.
  revert ys d. induction rules as [|r rules IH]; intros ys d.
  - cbn. by rewrite app_nil_r.
  - rewrite for_each_cons. cbn [state List.filter].
    destruct (is_terminal r); [|apply IH].
    cbn. unfold yield_. cbn. rewrite IH. by rewrite <- app_assoc.
Qed.

(** At depth 0 the loop over the non-terminal rules yields nothing: there
    is no tuple of child depths to go through. *)
Lemma enumerate_at_depth_fuel_0 (fuel : nat) (l : Symbol) uk cf consume (st : @run K) :
  yielded (enumerate_at_depth_fuel key_eqb g (S fuel) 0 l uk cf consume st)
  = yielded
      (for_each (rules_of g l)
         (fun rule st =>
            if is_terminal rule
            then emit key_eqb uk cf consume (GExpr (name rule) (func rule) None None) st
            else st)
         st).
Proof.
  cbn [enumerate_at_depth_fuel]. change (0 =? 0) with true. cbv iota.
  match goal with |- yielded (for_each _ _ ?a) = _ => set (stA := a) end.
  apply (for_each_invariant (fun st' => yielded st' = yielded stA)); [|done].
  intros rule st1 _ _ H1. destruct (rhs rule) as [rule_rhs|]; [|done].
  apply (for_each_invariant (fun st' => yielded st' = yielded stA)); [|done].
  intros cds st2 Hcds Hs H2.
  apply elem_of_product_repeat in Hcds as [_ Hall].
  destruct cds as [|cd cds].
  - cbn. unfold raise. by rewrite Hs.
  - apply Forall_cons in Hall as [Hcd _]. cbn in Hcd. inversion Hcd.
Qed.

(** C4. [enumerate_at_depth(0, lhs)] yields the leaf of each terminal rule
    of [lhs], in the order of the rules, and nothing else; each has length
    1.  The same expressions are yielded when the call deduplicates into a
    dictionary. *)
Theorem enumerate_at_depth_0 (l : Symbol) :
  yielded (enumerate_at_depth key_eqb g 0 l None None None take_all)
  = map leaf (List.filter is_terminal (rules_of g l))
  /\ (forall d uk cf,
        yielded (enumerate_at_depth key_eqb g 0 l (Some d) (Some uk) (Some cf) take_all)
        = map leaf (List.filter is_terminal (rules_of g l)))
  /\ Forall (fun e => ge_len e = 1
                      /\ exists rule, rule ∈ rules_of g l /\ is_terminal rule = true
                                      /\ e = GExpr (name rule) (func rule) None None)
            (map leaf (List.filter is_terminal (rules_of g l))).
Proof.
  split; [|split].
  - unfold enumerate_at_depth. rewrite enumerate_at_depth_fuel_0. unfold init_run.
    by rewrite terminals_yielded.
  - intros d uk cf.
    unfold enumerate_at_depth. rewrite enumerate_at_depth_fuel_0. unfold init_run.
    by rewrite terminals_yielded_dedup.
  - apply Forall_forall. intros e He.
    apply list_elem_of_In, in_map_iff in He as (rule & <- & Hr).
    apply filter_In in Hr as [Hr Ht]. split; [done|].
    exists rule. split; [by apply list_elem_of_In|done].
Qed.

End DepthZero.

(** ** The sweep over depths *)

Section EnumerateSweep.

Context {K : Type}.
Variable key_eqb : K -> K -> bool.
Variable g : Grammar.

Lemma enumerate_scripted (depth : nat) (l : Symbol) :
  scripted key_eqb (fun e => exists num, num < depth /\ yield_of g num l e)
    (fun uk cf consume st =>
       for_each (seq 0 depth)
         (fun num st => enumerate_at_depth_fuel key_eqb g (S num) num l uk cf consume st)
         st).
Proof.
  refine (scripted_for_each key_eqb _ _ (fun uk cf consume num st => _) _).
  intros num Hnum. apply elem_of_seq in Hnum.
  eapply scripted_weaken; [|apply enumerate_at_depth_fuel_scripted].
  intros e He. exists num. split; [lia|done].
Qed.

Lemma enumerate_yield_of (depth : nat) (lhs : option Symbol) ud uk cf consume :
  Forall (fun e => exists num, num < depth /\ yield_of g num (default (_start g) lhs) e)
         (yielded (enumerate key_eqb g depth lhs ud uk cf consume)).
Proof.
  unfold enumerate.
  destruct (enumerate_scripted depth (default (_start g) lhs)) as (sc & HQ & H).
  rewrite H. apply play_yielded; [done|constructor].
Qed.

Lemma enumerate_unique_dict (depth : nat) (lhs : option Symbol) d0 uk cf consume :
  unique_dict (enumerate key_eqb g depth lhs (Some d0) uk cf consume)
  = Some (dict_of_yields key_eqb uk cf d0
            (yielded (enumerate key_eqb g depth lhs (Some d0) uk cf consume))).
Proof.
  unfold enumerate.
  destruct (enumerate_scripted depth (default (_start g) lhs)) as (sc & HQ & H).
  rewrite H. apply play_unique_dict. cbn. by destruct uk, cf.
Qed.

End EnumerateSweep.

(** ** Deduplication *)

Section Dedup.

Context {K : Type}.
Variable key_eqb : K -> K -> bool.
Hypothesis key_eqb_equivalence : key_equivalence key_eqb.

Lemma key_eqb_sym_false (a b : K) : key_eqb a b = false -> key_eqb b a = false.
Proof.
  destruct key_eqb_equivalence as (_ & Hsym & _).
  intros H. destruct (key_eqb b a) eqn:E; [|done].
  apply Hsym in E. congruence.
Qed.

Lemma key_eqb_congr (a b c : K) : key_eqb a b = true -> key_eqb a c = key_eqb b c.
Proof.
  destruct key_eqb_equivalence as (_ & Hsym & Htrans).
  intros H. destruct (key_eqb b c) eqn:E.
  - by apply (Htrans a b c).
  - destruct (key_eqb a c) eqn:E'; [|done].
    rewrite <- E. symmetry. apply (Htrans b a c); [by apply Hsym|done].
Qed.

Lemma dict_get_equiv (d : udict) (k k' : K) :
  key_eqb k k' = true -> dict_get key_eqb d k = dict_get key_eqb d k'.
Proof.
  destruct key_eqb_equivalence as (_ & Hsym & Htrans).
  intros H. induction d as [|[k0 v0] d IH]; cbn; [done|].
  assert (E : key_eqb k0 k = key_eqb k0 k').
  { destruct (key_eqb k0 k) eqn:E1.
    - symmetry. by apply (Htrans k0 k k').
    - destruct (key_eqb k0 k') eqn:E2; [|done].
      rewrite <- E1. apply (Htrans k0 k' k); [done|by apply Hsym]. }
  rewrite E. by rewrite IH.
Qed.

Lemma dict_get_set (d : udict) (k k' : K) (v : GrammaticalExpression) :
  dict_get key_eqb (dict_set key_eqb d k v) k'
  = if key_eqb k k' then Some v else dict_get key_eqb d k'.
Proof.
  destruct key_eqb_equivalence as (Hrefl & Hsym & Htrans).
  induction d as [|[k0 v0] d IH]; cbn; [done|].
  destruct (key_eqb k0 k) eqn:E; cbn.
  - rewrite (key_eqb_congr k0 k k' E). by destruct (key_eqb k k').
  - rewrite IH. destruct (key_eqb k0 k') eqn:E'; [|done].
    destruct (key_eqb k k') eqn:E''; [|done].
    assert (key_eqb k0 k = true) by (apply (Htrans k0 k' k); [done|by apply Hsym]).
    congruence.
Qed.

Variable uk : GrammaticalExpression -> K.
Variable cf : GrammaticalExpression -> GrammaticalExpression -> bool.

Lemma add_unique_other (d : udict) (t : GrammaticalExpression) (k : K) :
  key_eqb (uk t) k = false ->
  dict_get key_eqb (add_unique key_eqb uk cf d t) k = dict_get key_eqb d k.
Proof.
  intros H. unfold add_unique.
  destruct (dict_get key_eqb d (uk t)) as [i|]; [destruct (cf t i)|];
    rewrite ?dict_get_set, ?H; done.
Qed.

Lemma add_unique_same (d : udict) (t : GrammaticalExpression) (k : K) :
  key_eqb (uk t) k = true ->
  dict_get key_eqb (add_unique key_eqb uk cf d t) k
  = match dict_get key_eqb d k with
    | None => Some t
    | Some i => if cf t i then Some t else Some i
    end.
Proof.
  intros H. unfold add_unique. rewrite <- (dict_get_equiv d (uk t) k H).
  destruct (dict_get key_eqb d (uk t)) as [i|] eqn:E; [destruct (cf t i)|];
    rewrite ?dict_get_set, ?H, ?E; try done.
  by rewrite <- (dict_get_equiv d (uk t) k H).
Qed.

End Dedup.

Section DedupMinimal.

Context {K : Type}.
Variable key_eqb : K -> K -> bool.
Hypothesis key_eqb_equivalence : key_equivalence key_eqb.
Variable uk : GrammaticalExpression -> K.
Variable cf : GrammaticalExpression -> GrammaticalExpression -> bool.
Hypothesis cf_order : strict_weak_order cf.

(** The state of the entry for key [k] after the expressions [ts] went
    through [add_unique], starting from the dictionary [d0]. *)
Lemma fold_add_unique_entry (d0 : udict) (ts : list GrammaticalExpression) (k : K) :
  match dict_get key_eqb (foldl (add_unique key_eqb uk cf) d0 ts) k with
  | None =>
      dict_get key_eqb d0 k = None
      /\ forall t, t ∈ ts -> key_eqb k (uk t) = false
  | Some r =>
      (dict_get key_eqb d0 k = Some r
       /\ forall t, t ∈ ts -> key_eqb k (uk t) = true -> cf t r = false)
      \/ (exists l1 l2,
            ts = l1 ++ r :: l2
            /\ key_eqb k (uk r) = true
            /\ (forall r0, dict_get key_eqb d0 k = Some r0 -> cf r r0 = true)
            /\ (forall t, t ∈ l1 -> key_eqb k (uk t) = true -> cf r t = true)
            /\ (forall t, t ∈ l2 -> key_eqb k (uk t) = true -> cf t r = false))
  end.
Proof.
  destruct key_eqb_equivalence as (Hrefl & Hsym & Htrans).
  destruct cf_order as (Hirr & Hcft & Hneg).
  induction ts as [|t ts IH] using rev_ind.
  { cbn. destruct (dict_get key_eqb d0 k) as [r|] eqn:E.
    - left. split; [done|]. intros t Ht. inversion Ht.
    - split; [done|]. intros t Ht. inversion Ht. }
  rewrite foldl_app. cbn [foldl].
  set (d := foldl (add_unique key_eqb uk cf) d0 ts) in *.
  destruct (key_eqb (uk t) k) eqn:Hk.
  - (* the new expression has the key [k] *)
    assert (Hk' : key_eqb k (uk t) = true) by by apply Hsym.
    rewrite (add_unique_same key_eqb key_eqb_equivalence uk cf d t k Hk).
    destruct (dict_get key_eqb d k) as [i|] eqn:Ei.
    + destruct (cf t i) eqn:Hti.
      * right. exists ts, []. split; [done|]. split; [done|].
        destruct IH as [[H0 Hall]|(l1 & l2 & -> & Hki & H0 & H1 & H2)].
        -- split; [intros r0 Hr0; congruence|]. split; [|intros ? Hx; inversion Hx].
           intros t' Ht' Hkt'. specialize (Hall t' Ht' Hkt').
           destruct (cf t t') eqn:E; [done|]. rewrite (Hneg t t' i E Hall) in Hti. done.
        -- split; [intros r0 Hr0; apply (Hcft t i r0); [done|by apply H0]|].
           split; [|intros ? Hx; inversion Hx].
           intros t' Ht' Hkt'.
           apply elem_of_app in Ht' as [Ht'|Ht'].
           ++ apply (Hcft t i t'); [done|by apply H1].
           ++ apply elem_of_cons in Ht' as [->|Ht']; [done|].
              specialize (H2 t' Ht' Hkt').
              destruct (cf t t') eqn:E; [done|]. rewrite (Hneg t t' i E H2) in Hti. done.
      * destruct IH as [[H0 Hall]|(l1 & l2 & -> & Hki & H0 & H1 & H2)].
        -- left. split; [done|]. intros t' Ht' Hkt'.
           apply elem_of_app in Ht' as [Ht'|Ht']; [by apply Hall|].
           apply list_elem_of_singleton in Ht' as ->. done.
        -- right. exists l1, (l2 ++ [t]). split; [by rewrite <- app_assoc|].
           split; [done|]. split; [done|]. split; [done|].
           intros t' Ht' Hkt'.
           apply elem_of_app in Ht' as [Ht'|Ht']; [by apply H2|].
           apply list_elem_of_singleton in Ht' as ->. done.
    + destruct IH as [H0 Hall]. right. exists ts, []. split; [done|]. split; [done|].
      split; [intros r0 Hr0; congruence|]. split; [|intros ? Hx; inversion Hx].
      intros t' Ht' Hkt'. rewrite (Hall t' Ht') in Hkt'. done.
  - (* the new expression has another key *)
    assert (Hk' : key_eqb k (uk t) = false)
      by by apply (key_eqb_sym_false key_eqb key_eqb_equivalence).
    rewrite (add_unique_other key_eqb key_eqb_equivalence uk cf d t k Hk).
    destruct (dict_get key_eqb d k) as [r|] eqn:Er.
    + destruct IH as [[H0 Hall]|(l1 & l2 & -> & Hki & H0 & H1 & H2)].
      * left. split; [done|]. intros t' Ht' Hkt'.
        apply elem_of_app in Ht' as [Ht'|Ht']; [by apply Hall|].
        apply list_elem_of_singleton in Ht' as ->. congruence.
      * right. exists l1, (l2 ++ [t]). split; [by rewrite <- app_assoc|].
        split; [done|]. split; [done|]. split; [done|].
        intros t' Ht' Hkt'.
        apply elem_of_app in Ht' as [Ht'|Ht']; [by apply H2|].
        apply list_elem_of_singleton in Ht' as ->. congruence.
    + destruct IH as [H0 Hall]. split; [done|]. intros t' Ht'.
      apply elem_of_app in Ht' as [Ht'|Ht']; [by apply Hall|].
      apply list_elem_of_singleton in Ht' as ->. done.
Qed.

(** C3, amended. When the dictionary matches keys by an equivalence and
    [compare_func] is a strict weak order, then after [enumerate] every entry
    of the dictionary holds an expression that no enumerated expression with
    the same key is strictly better than; for a key that was not in the
    dictionary beforehand it is an enumerated expression of that key that is
    strictly better than every one of that key enumerated before it, so the
    first of the best is retained. *)
Theorem enumerate_dedup_minimal (g : Grammar) (depth : nat) (lhs : option Symbol)
    (d0 : udict) consume (d : udict) (k : K) (rep : GrammaticalExpression) :
  unique_dict (enumerate key_eqb g depth lhs (Some d0) (Some uk) (Some cf) consume)
  = Some d ->
  dict_get key_eqb d k = Some rep ->
  (forall t,
     t ∈ yielded (enumerate key_eqb g depth lhs (Some d0) (Some uk) (Some cf) consume) ->
     key_eqb k (uk t) = true -> cf t rep = false)
  /\ (dict_get key_eqb d0 k = None ->
      exists l1 l2,
        yielded (enumerate key_eqb g depth lhs (Some d0) (Some uk) (Some cf) consume)
        = l1 ++ rep :: l2
        /\ key_eqb k (uk rep) = true
        /\ forall t, t ∈ l1 -> key_eqb k (uk t) = true -> cf rep t = true).
Proof.
  destruct cf_order as (Hirr & Hcft & Hneg).
  rewrite enumerate_unique_dict. cbn [dict_of_yields]. intros [= <-] Hrep.
  set (ys := yielded (enumerate key_eqb g depth lhs (Some d0) (Some uk) (Some cf) consume))
    in *.
  pose proof (fold_add_unique_entry d0 ys k) as H. rewrite Hrep in H.
  destruct H as [[H0 Hall]|(l1 & l2 & Hys & Hk & H0 & H1 & H2)].
  - split; [done|]. congruence.
  - split.
    + intros t Ht Hkt. rewrite Hys in Ht.
      apply elem_of_app in Ht as [Ht|Ht].
      * specialize (H1 t Ht Hkt). destruct (cf t rep) eqn:E; [|done].
        pose proof (Hcft t rep t E H1) as Htt. rewrite (Hirr t) in Htt. done.
      * apply elem_of_cons in Ht as [->|Ht]; [apply Hirr|by apply H2].
    + intros _. exists l1, l2. done.
Qed.

End DedupMinimal.

Lemma bool_key_equivalence : key_equivalence Bool.eqb.
Proof. split; [by intros []|]. split; [by intros [] []|]. by intros [] [] []. Qed.

Lemma shorter_strict_weak_order : strict_weak_order shorter.
Proof.
  unfold shorter. repeat split.
  - intros a. apply Nat.ltb_irrefl.
  - intros a b c H1 H2. apply Nat.ltb_lt in H1, H2. apply Nat.ltb_lt. lia.
  - intros a b c H1 H2. apply Nat.ltb_ge in H1, H2. apply Nat.ltb_ge. lia.
Qed.

(** C3, as stated, fails for a comparison that is not strict: with
    [compare_func = lambda a, b: len(a) <= len(b)] and one key for all
    expressions, the entry ends up holding [T2] although [T1], enumerated
    first, compares as better than [T2]. *)
Lemma non_strict_compare_keeps_later :
  unique_dict (enumerate unit_eqb bool_grammar 1 None (Some []) (Some one_key)
                 (Some no_longer) take_all)
  = Some [(tt, leaf rule_T2)]
  /\ yielded (enumerate unit_eqb bool_grammar 1 None (Some []) (Some one_key)
                (Some no_longer) take_all)
     = [leaf rule_T1; leaf rule_T2]
  /\ unit_eqb tt (one_key (leaf rule_T1)) = true
  /\ no_longer (leaf rule_T1) (leaf rule_T2) = true.
Proof. repeat split; vm_compute; reflexivity. Qed.

Lemma enumerate_dedup_minimal_witness :
  unique_dict (enumerate Bool.eqb bool_grammar 2 None (Some []) (Some truth_value)
                 (Some shorter) take_all)
  = Some [(true, leaf rule_T1); (false, leaf rule_T2)]
  /\ dict_get Bool.eqb [(true, leaf rule_T1); (false, leaf rule_T2)] true
     = Some (leaf rule_T1)
  /\ (forall t,
        t ∈ yielded (enumerate Bool.eqb bool_grammar 2 None (Some []) (Some truth_value)
                       (Some shorter) take_all) ->
        Bool.eqb true (truth_value t) = true -> shorter t (leaf rule_T1) = false)
  /\ (dict_get Bool.eqb [] true = None ->
      exists l1 l2,
        yielded (enumerate Bool.eqb bool_grammar 2 None (Some []) (Some truth_value)
                   (Some shorter) take_all)
        = l1 ++ leaf rule_T1 :: l2
        /\ Bool.eqb true (truth_value (leaf rule_T1)) = true
        /\ forall t, t ∈ l1 -> Bool.eqb true (truth_value t) = true ->
                     shorter (leaf rule_T1) t = true).
Proof.
  assert (H1 : unique_dict (enumerate Bool.eqb bool_grammar 2 None (Some [])
                              (Some truth_value) (Some shorter) take_all)
               = Some [(true, leaf rule_T1); (false, leaf rule_T2)]).
  { vm_compute. reflexivity. }
  assert (H2 : dict_get Bool.eqb [(true, leaf rule_T1); (false, leaf rule_T2)] true
               = Some (leaf rule_T1)).
  { reflexivity. }
  split; [exact H1|]. split; [exact H2|].
  exact (enumerate_dedup_minimal Bool.eqb bool_key_equivalence truth_value shorter
           shorter_strict_weak_order bool_grammar 2 None [] take_all
           [(true, leaf rule_T1); (false, leaf rule_T2)] true (leaf rule_T1) H1 H2).
Defined.

(** ** The size cap *)

Section SizeCap.

Context {K : Type}.
Variable key_eqb : K -> K -> bool.




Variable g : Grammar.



End SizeCap.



(** ** Strings *)

Lemma append_cons (x : ascii) (a b : string) :
  String x a +:+ b = String x (a +:+ b).
Proof. reflexivity. Qed.

Lemma append_nil_l (b : string) : "" +:+ b = b.
Proof. reflexivity. Qed.

Lemma append_assoc (a b c : string) : (a +:+ b) +:+ c = a +:+ (b +:+ c).
Proof.
  induction a as [|x a IH]; [done|]. rewrite !append_cons. by rewrite IH.
Qed.

Lemma append_nil_r (a : string) : a +:+ "" = a.
Proof. induction a as [|x a IH]; [done|]. rewrite append_cons. by rewrite IH. Qed.

Lemma length_append (a b : string) :
  String.length (a +:+ b) = String.length a + String.length b.
Proof.
  induction a as [|x a IH]; [done|]. rewrite append_cons. cbn. by rewrite IH.
Qed.

Lemma span_length (p : ascii -> bool) (s : string) :
  String.length (fst (span p s)) + String.length (snd (span p s)) = String.length s.
Proof.
  induction s as [|c s IH]; cbn; [done|].
  destruct (p c); [|done]. destruct (span p s) as [a b]. cbn in *. lia.
Qed.

(** A run of characters satisfying [p], followed by nothing or by a
    character that does not satisfy it, is what [span] splits off. *)
Lemma span_run (p : ascii -> bool) (run rest : string) :
  all_chars p run = true ->
  match rest with EmptyString => True | String c _ => p c = false end ->
  span p (run +:+ rest) = (run, rest).
Proof.
  intros Hrun Hrest. induction run as [|x run IH].
  - rewrite append_nil_l. destruct rest as [|c rest]; cbn; [done|]. by rewrite Hrest.
  - rewrite append_cons. cbn in *.
    apply andb_true_iff in Hrun as [-> Hrun]. by rewrite (IH Hrun).
Qed.

Lemma lstrip_length (s : string) : String.length (lstrip s) <= String.length s.
Proof.
  induction s as [|c s IH]; cbn; [done|]. destruct (is_space c); cbn; lia.
Qed.

Lemma rstrip_length (s : string) : String.length (rstrip s) <= String.length s.
Proof.
  induction s as [|c s IH]; cbn; [done|].
  destruct (rstrip s); [destruct (is_space c)|]; cbn in *; lia.
Qed.

Lemma rstrip_snoc (s : string) (c : ascii) :
  is_space c = false -> rstrip (s +:+ String c "") = s +:+ String c "".
Proof.
  intros Hc. induction s as [|a s IH].
  - rewrite append_nil_l. cbn. by rewrite Hc.
  - rewrite append_cons. cbn [rstrip]. rewrite IH. destruct s; by rewrite ?append_cons.
Qed.

Lemma rstrip_fixed_last (s : string) :
  rstrip s = s -> s <> "" -> exists c, last_char s = Some c /\ is_space c = false.
Proof.
  induction s as [|a s IH]; [done|]. intros H _. cbn in H.
  destruct s as [|b s].
  - cbn in H. destruct (is_space a) eqn:E; [discriminate|]. exists a. done.
  - destruct (rstrip (String b s)) as [|x r] eqn:Er.
    + destruct (is_space a); discriminate.
    + assert (Hrs : String x r = String b s) by congruence.
      destruct (IH Hrs ltac:(done)) as (c & Hc & Hs).
      exists c. split; [|done]. exact Hc.
Qed.

Lemma all_chars_last (p : ascii -> bool) (s : string) :
  all_chars p s = true -> s <> "" -> exists c, last_char s = Some c /\ p c = true.
Proof.
  induction s as [|a s IH]; [done|]. intros H _. cbn in H.
  apply andb_true_iff in H as [Ha Hs]. destruct s as [|b s].
  - exists a. done.
  - destruct (IH Hs ltac:(done)) as (c & Hc & Hn). exists c. done.
Qed.

Section NameFacts.

Variable n : string.
Hypothesis n_ok : name_ok n = true.

Lemma name_ok_chars : all_chars (name_char "(" ")" ",") n = true.
Proof.
  unfold name_ok in n_ok.
  apply andb_true_iff in n_ok as [H _]. by apply andb_true_iff in H as [_ H].
Qed.

Lemma name_ok_nonempty : n <> "".
Proof.
  unfold name_ok in n_ok.
  apply andb_true_iff in n_ok as [H _]. apply andb_true_iff in H as [H _].
  apply negb_true_iff, String.eqb_neq in H. done.
Qed.

Lemma name_ok_strip : strip n = n.
Proof.
  unfold name_ok in n_ok.
  apply andb_true_iff in n_ok as [_ H]. by apply String.eqb_eq.
Qed.

Lemma name_ok_first : exists c s, n = String c s /\ is_space c = false.
Proof.
  pose proof name_ok_strip as Hs. pose proof name_ok_nonempty as Hne.
  destruct n as [|c s]; [done|]. exists c, s. split; [done|].
  destruct (is_space c) eqn:E; [|done].
  unfold strip in Hs. cbn in Hs. rewrite E in Hs.
  apply (f_equal String.length) in Hs. cbn in Hs.
  pose proof (rstrip_length (lstrip s)). pose proof (lstrip_length s). lia.
Qed.

Lemma name_ok_lstrip : lstrip n = n.
Proof. destruct name_ok_first as (c & s & -> & Hc). cbn. by rewrite Hc. Qed.

Lemma name_ok_rstrip : rstrip n = n.
Proof. pose proof name_ok_strip as H. unfold strip in H. by rewrite name_ok_lstrip in H. Qed.

Lemma name_ok_last : exists c, last_char n = Some c /\ name_char "(" ")" "," c = true.
Proof. apply all_chars_last; [apply name_ok_chars|apply name_ok_nonempty]. Qed.

End NameFacts.

(** ** Tokens *)

Section TokenizerFuel.

Variables opener closer delimiter : ascii.

Lemma finditer_fuel_irrelevant (f1 f2 : nat) (s : string) :
  String.length s <= f1 -> String.length s <= f2 ->
  finditer_fuel opener closer delimiter f1 s
  = finditer_fuel opener closer delimiter f2 s.
Proof.
  revert f2 s. induction f1 as [|f1 IH]; intros f2 s H1 H2.
  { destruct s; [|cbn in H1; lia]. by destruct f2. }
  destruct s as [|c s]; [by destruct f2|].
  destruct f2 as [|f2]; [cbn in H2; lia|].
  cbn [finditer_fuel].
  pose proof (span_length (name_char opener closer delimiter) (String c s)) as Hsp.
  destruct (span (name_char opener closer delimiter) (String c s)) as [run rest].
  cbn [fst snd] in Hsp. cbn [String.length] in H1, H2, Hsp.
  destruct run as [|x run].
  - destruct (Ascii.eqb c delimiter).
    + pose proof (span_length is_space s) as Hws.
      destruct (span is_space s) as [ws rest']. cbn [fst snd] in Hws.
      f_equal. apply IH; lia.
    + destruct (Ascii.eqb c closer); [f_equal|]; apply IH; lia.
  - cbn [String.length] in Hsp. destruct rest as [|c' rest']; [done|].
    cbn [String.length] in Hsp.
    destruct (Ascii.eqb c' opener); f_equal; apply IH; cbn [String.length]; lia.
Qed.

Lemma finditer_fuel_step (f : nat) (x : ascii) (s : string) :
  finditer_fuel opener closer delimiter (S f) (String x s)
  = let '(run, rest) := span (name_char opener closer delimiter) (String x s) in
    match run with
    | String _ _ =>
        match rest with
        | String c' rest' =>
            if Ascii.eqb c' opener
            then (run +:+ String c' EmptyString)
                 :: finditer_fuel opener closer delimiter f rest'
            else run :: finditer_fuel opener closer delimiter f rest
        | EmptyString => [run]
        end
    | EmptyString =>
        if Ascii.eqb x delimiter then
          let '(ws, rest') := span is_space s in
          String x ws :: finditer_fuel opener closer delimiter f rest'
        else if Ascii.eqb x closer then
          String x EmptyString :: finditer_fuel opener closer delimiter f s
        else finditer_fuel opener closer delimiter f s
    end.
Proof. reflexivity. Qed.

Lemma finditer_fuel_enough (f : nat) (s : string) :
  String.length s <= f ->
  finditer_fuel opener closer delimiter f s = finditer opener closer delimiter s.
Proof. intros H. unfold finditer. by apply finditer_fuel_irrelevant. Qed.

End TokenizerFuel.

Lemma finditer_name (n rest : string) :
  name_ok n = true -> after_expression rest ->
  finditer "(" ")" "," (n +:+ rest) = n :: finditer "(" ")" "," rest.
Proof.
  intros Hn Hrest.
  pose proof (name_ok_chars n Hn) as Hchars.
  assert (Hspan : span (name_char "(" ")" ",") (n +:+ rest) = (n, rest)).
  { apply span_run; [done|]. destruct rest as [|c r]; [done|]. apply Hrest. }
  destruct n as [|a n'] eqn:En; [by apply name_ok_nonempty in Hn|].
  unfold finditer at 1. rewrite append_cons in *. cbn [String.length finditer_fuel].
  rewrite Hspan. destruct rest as [|c r]; [done|].
  destruct Hrest as [_ ->]. f_equal. apply finditer_fuel_enough.
  rewrite length_append. cbn. lia.
Qed.

Lemma finditer_opening (n rest : string) :
  name_ok n = true ->
  finditer "(" ")" "," (n +:+ String "(" rest)
  = (n +:+ "(") :: finditer "(" ")" "," rest.
Proof.
  intros Hn.
  pose proof (name_ok_chars n Hn) as Hchars.
  assert (Hspan : span (name_char "(" ")" ",") (n +:+ String "(" rest)
                  = (n, String "(" rest)).
  { by apply span_run. }
  destruct n as [|a n'] eqn:En; [by apply name_ok_nonempty in Hn|].
  unfold finditer at 1. rewrite append_cons in *. cbn [String.length finditer_fuel].
  rewrite Hspan. cbn [Ascii.eqb Bool.eqb]. cbv iota. f_equal.
  apply finditer_fuel_enough. rewrite length_append. cbn. lia.
Qed.

Lemma finditer_separator (rest : string) :
  match rest with EmptyString => True | String c _ => is_space c = false end ->
  finditer "(" ")" "," (String "," (String " " rest))
  = ", " :: finditer "(" ")" "," rest.
Proof.
  intros Hrest. unfold finditer at 1. cbn [String.length].
  rewrite finditer_fuel_step.
  change (span (name_char "(" ")" ",") (String "," (String " " rest)))
    with (EmptyString, String "," (String " " rest)).
  cbv iota beta. change (Ascii.eqb "," ",") with true. cbv iota.
  assert (Hspan : span is_space (String " " rest) = (String " " EmptyString, rest)).
  { change (String " " rest) with (String " " EmptyString +:+ rest).
    by apply span_run. }
  rewrite Hspan. f_equal. apply finditer_fuel_enough. cbn. lia.
Qed.

Lemma finditer_closer (rest : string) :
  finditer "(" ")" "," (String ")" rest) = ")" :: finditer "(" ")" "," rest.
Proof.
  unfold finditer at 1. cbn [String.length].
  rewrite finditer_fuel_step.
  change (span (name_char "(" ")" ",") (String ")" rest))
    with (EmptyString, String ")" rest).
  cbv iota beta. change (Ascii.eqb ")" ",") with false.
  change (Ascii.eqb ")" ")") with true. cbv iota.
  f_equal; try by apply finditer_fuel_enough.
Qed.

(** ** Induction on expressions *)

Lemma GrammaticalExpression_tree_ind (P : GrammaticalExpression -> Prop) :
  (forall n f fm, P (GExpr n f None fm)) ->
  (forall n f k cs fm, Forall P cs -> P (GExpr n f (Some (k, cs)) fm)) ->
  forall e, P e.
Proof.
  intros Hleaf Hnode.
  refine (fix IH (e : GrammaticalExpression) : P e :=
            match e with
            | GExpr n f None fm => Hleaf n f fm
            | GExpr n f (Some (k, cs)) fm =>
                Hnode n f k cs fm
                  ((fix go (cs : list GrammaticalExpression) : Forall P cs :=
                      match cs with
                      | [] => List.Forall_nil P
                      | c :: cs' => List.Forall_cons P c cs' (IH c) (go cs')
                      end) cs)
            end).
Qed.

Lemma ge_eq_refl (e : GrammaticalExpression) : ge_eq e e = true.
Proof.
  induction e as [n f fm|n f k cs fm IH] using GrammaticalExpression_tree_ind; cbn.
  - rewrite String.eqb_refl, Nat.eqb_refl. by destruct fm; cbn; rewrite ?String.eqb_refl.
  - rewrite String.eqb_refl, Nat.eqb_refl.
    replace (option_eqb String.eqb fm fm) with true
      by (destruct fm; cbn; by rewrite ?String.eqb_refl).
    replace (seq_kind_eqb k k) with true by by destruct k.
    cbn. induction IH as [|c cs Hc _ IHcs]; [done|]. by rewrite Hc, IHcs.
Qed.

(** ** From the string of an expression to its tokens *)

Section Tokens.

Variable g : Grammar.
Hypothesis g_parseable : parseable g.

Lemma from_rules_name_ok (e : GrammaticalExpression) :
  from_rules g e -> name_ok (rule_name e) = true.
Proof.
  destruct 1 as [l rule Hin _|l rule rule_rhs k cs Hin _ _ _ _]; cbn;
    by destruct (g_parseable l rule Hin) as (_ & ? & _).
Qed.

Lemma ge_str_unfold (e : GrammaticalExpression) :
  ge_str e
  = match children e with
    | None => rule_name e
    | Some (_, cs) => rule_name e +:+ "(" +:+ join ", " (map ge_str cs) +:+ ")"
    end.
Proof. by destruct e as [n f [[k cs]|] fm]. Qed.

Lemma ge_str_first (e : GrammaticalExpression) :
  from_rules g e -> exists c s, ge_str e = String c s /\ is_space c = false.
Proof.
  intros He. pose proof (from_rules_name_ok e He) as Hn.
  destruct (name_ok_first _ Hn) as (c & s & Hcs & Hc).
  rewrite ge_str_unfold, Hcs. destruct (children e) as [[k cs]|]; [|eauto].
  rewrite append_cons. eauto.
Qed.

Lemma join_first (c : GrammaticalExpression) (cs : list GrammaticalExpression)
    (rest : string) :
  from_rules g c ->
  match join ", " (map ge_str (c :: cs)) +:+ rest with
  | EmptyString => True
  | String x _ => is_space x = false
  end.
Proof.
  intros Hc. destruct (ge_str_first c Hc) as (x & s & Hs & Hx).
  cbn [map join]. rewrite Hs.
  destruct (map ge_str cs); rewrite ?append_cons; done.
Qed.

Lemma finditer_children (cs : list GrammaticalExpression) (rest : string) :
  cs <> [] ->
  Forall (from_rules g) cs ->
  Forall (fun c => forall rest, after_expression rest ->
            finditer "(" ")" "," (ge_str c +:+ rest)
            = tree_tokens c ++ finditer "(" ")" "," rest) cs ->
  finditer "(" ")" "," (join ", " (map ge_str cs) +:+ String ")" rest)
  = children_tokens (map tree_tokens cs) ++ finditer "(" ")" "," rest.
Proof.
  intros Hne Hfr IH. induction cs as [|c cs IHcs]; [done|]. clear Hne.
  apply Forall_cons in Hfr as [Hc Hfr]. apply Forall_cons in IH as [IHc IH].
  destruct cs as [|c' cs].
  - cbn [map join children_tokens].
    rewrite IHc by done. rewrite finditer_closer. by rewrite <- app_assoc.
  - change (join ", " (map ge_str (c :: c' :: cs)))
      with (ge_str c +:+ ", " +:+ join ", " (map ge_str (c' :: cs))).
    change (children_tokens (map tree_tokens (c :: c' :: cs)))
      with (tree_tokens c ++ [", "] ++ children_tokens (map tree_tokens (c' :: cs))).
    rewrite !append_assoc. rewrite IHc by done.
    change (", " +:+ join ", " (map ge_str (c' :: cs)) +:+ String ")" rest)
      with (String "," (String " " (join ", " (map ge_str (c' :: cs)) +:+ String ")" rest))).
    rewrite finditer_separator.
    + rewrite IHcs; [|done|done|done]. by rewrite <- !app_assoc.
    + apply join_first. by apply Forall_cons in Hfr as [? _].
Qed.

Lemma finditer_ge_str (e : GrammaticalExpression) :
  from_rules g e ->
  forall rest, after_expression rest ->
    finditer "(" ")" "," (ge_str e +:+ rest)
    = tree_tokens e ++ finditer "(" ")" "," rest.
Proof.
  induction e as [n f fm|n f k cs fm IH] using GrammaticalExpression_tree_ind;
    intros He rest Hrest.
  - cbn [ge_str tree_tokens]. apply finditer_name; [|done].
    by apply (from_rules_name_ok _ He).
  - pose proof (from_rules_name_ok _ He) as Hn. cbn [rule_name] in Hn.
    destruct (from_rules_children g _ k cs He eq_refl) as [Hne Hcs].
    cbn [ge_str tree_tokens].
    rewrite !append_assoc.
    change ("(" +:+ join ", " (map ge_str cs) +:+ ")" +:+ rest)
      with (String "(" (join ", " (map ge_str cs) +:+ String ")" rest)).
    rewrite finditer_opening by done. cbn [app]. f_equal.
    apply finditer_children; [done|done|].
    rewrite Forall_forall in IH, Hcs |- *. intros c Hc. apply IH; [done|by apply Hcs].
Qed.

End Tokens.

(** ** From the tokens back to the expression *)

Lemma last_char_snoc (s : string) (c : ascii) :
  last_char (s +:+ String c EmptyString) = Some c.
Proof.
  induction s as [|a s IH]; [done|]. rewrite append_cons. cbn [last_char].
  rewrite IH. destruct s; by rewrite ?append_cons.
Qed.

Lemma drop_last_snoc (s : string) (c : ascii) :
  drop_last (s +:+ String c EmptyString) = s.
Proof.
  induction s as [|a s IH]; [done|]. rewrite append_cons. cbn [drop_last].
  rewrite IH. destruct s; by rewrite ?append_cons.
Qed.

Section ParseTokens.

Variable g : Grammar.
Hypothesis g_parseable : parseable g.

Lemma parse_token_leaf (stack : list GrammaticalExpression) (n : string) (rule : Rule) :
  name_ok n = true -> _rules_by_name g !! n = Some rule ->
  parse_token "(" ")" "," g stack n = Ok (GExpr n (func rule) None None :: stack).
Proof.
  intros Hn Hg. unfold parse_token. rewrite (name_ok_strip n Hn).
  destruct (name_ok_last n Hn) as (c & Hl & Hc). rewrite Hl.
  assert (Hopen : Ascii.eqb c "(" = false).
  { unfold name_char in Hc. destruct (Ascii.eqb c "("); [done|done]. }
  rewrite Hopen.
  assert (Hsep : String.eqb n "," || String.eqb n ")" = false).
  { apply orb_false_iff. split; apply String.eqb_neq; intros ->;
      cbn in Hl; injection Hl as <-; discriminate Hc. }
  rewrite Hsep. by rewrite Hg.
Qed.

Lemma parse_token_opening (stack : list GrammaticalExpression) (n : string)
    (rule : Rule) :
  name_ok n = true -> _rules_by_name g !! n = Some rule ->
  parse_token "(" ")" "," g stack (n +:+ "(")
  = Ok (GExpr n (func rule) (Some (PyList, [])) None :: stack).
Proof.
  intros Hn Hg. unfold parse_token.
  assert (Hstrip : strip (n +:+ "(") = n +:+ "(").
  { unfold strip. destruct (name_ok_first n Hn) as (c & s & Hcs & Hc).
    assert (Hl : lstrip (n +:+ "(") = n +:+ "(").
    { rewrite Hcs, append_cons. cbn [lstrip]. by rewrite Hc. }
    rewrite Hl. by apply rstrip_snoc. }
  rewrite Hstrip, last_char_snoc. change (Ascii.eqb "(" "(") with true. cbv iota.
  rewrite drop_last_snoc. cbv zeta. by rewrite Hg.
Qed.

Lemma parse_token_attach (sep : string) (child : GrammaticalExpression)
    n f cs fm (below : list GrammaticalExpression) :
  sep = ", " \/ sep = ")" ->
  parse_token "(" ")" "," g (child :: GExpr n f (Some (PyList, cs)) fm :: below) sep
  = Ok (GExpr n f (Some (PyList, cs ++ [child])) fm :: below).
Proof. by intros [-> | ->]. Qed.

Lemma parse_tokens_children (cs : list GrammaticalExpression) :
  Forall (fun c => forall stack toks,
            parse_tokens "(" ")" "," g stack (tree_tokens c ++ toks)
            = parse_tokens "(" ")" "," g (as_lists c :: stack) toks) cs ->
  forall done_cs n f stack toks,
    parse_tokens "(" ")" "," g (GExpr n f (Some (PyList, done_cs)) None :: stack)
      (children_tokens (map tree_tokens cs) ++ toks)
    = parse_tokens "(" ")" "," g
        (GExpr n f (Some (PyList, done_cs ++ map as_lists cs)) None :: stack) toks.
Proof.
  induction 1 as [|c cs Hc _ IH]; intros done_cs n f stack toks.
  - cbn. by rewrite app_nil_r.
  - assert (Hstep : forall sep rest,
              sep = ", " \/ sep = ")" ->
              parse_tokens "(" ")" "," g
                (GExpr n f (Some (PyList, done_cs)) None :: stack)
                (tree_tokens c ++ sep :: rest)
              = parse_tokens "(" ")" "," g
                  (GExpr n f (Some (PyList, done_cs ++ [as_lists c])) None :: stack)
                  rest).
    { intros sep rest Hsep. rewrite Hc. cbn [parse_tokens].
      by rewrite (parse_token_attach sep _ _ _ _ _ _ Hsep). }
    destruct cs as [|c' cs].
    + cbn [map children_tokens]. rewrite <- app_assoc. cbn [app].
      rewrite Hstep by (by right). done.
    + change (children_tokens (map tree_tokens (c :: c' :: cs)))
        with (tree_tokens c ++ [", "] ++ children_tokens (map tree_tokens (c' :: cs))).
      rewrite <- !app_assoc. cbn [app].
      rewrite Hstep by (by left). rewrite IH.
      by rewrite <- app_assoc.
Qed.

Lemma parse_tokens_tree (e : GrammaticalExpression) :
  from_rules g e ->
  forall stack toks,
    parse_tokens "(" ")" "," g stack (tree_tokens e ++ toks)
    = parse_tokens "(" ")" "," g (as_lists e :: stack) toks.
Proof.
  induction e as [n f fm|n f k cs fm IH] using GrammaticalExpression_tree_ind;
    intros He stack toks.
  - inversion He as [l rule Hin Hrhs|]; subst.
    destruct (g_parseable l rule Hin) as (Hidx & Hn & _).
    cbn [tree_tokens app parse_tokens as_lists].
    by rewrite (parse_token_leaf stack _ rule Hn Hidx).
  - inversion He as [|l rule rule_rhs k' cs' Hin Hrhs Hlen Hne Hcs]; subst.
    destruct (g_parseable l rule Hin) as (Hidx & Hn & _).
    cbn [tree_tokens app parse_tokens as_lists].
    rewrite (parse_token_opening stack _ rule Hn Hidx).
    rewrite parse_tokens_children; [done|].
    rewrite Forall_forall in IH, Hcs |- *. intros c Hc. apply IH; [done|by apply Hcs].
Qed.

(** The string of an expression built from the rules of a parseable grammar
    parses to that expression with its children held in lists. *)
Lemma parse_ge_str (e : GrammaticalExpression) :
  from_rules g e -> parse g (ge_str e) = Ok (as_lists e).
Proof.
  intros He. unfold parse, parse_with.
  rewrite <- (append_nil_r (ge_str e)).
  rewrite (finditer_ge_str g g_parseable e He "" I).
  change (finditer "(" ")" "," "") with (@nil string).
  rewrite (parse_tokens_tree e He [] []). done.
Qed.

End ParseTokens.

(** ** Grammars built by [add_rule] *)

Lemma add_rule_names_indexed (g g' : Grammar) (rule : Rule) :
  names_indexed g -> add_rule g rule = (g', Ok tt) -> names_indexed g'.
Proof.
  intros Hg. unfold add_rule. cbn [_rules_by_name _rules _start].
  destruct (_rules_by_name g !! name rule) eqn:Hfree; [discriminate|].
  intros [= <-]. intros l r Hin. unfold rules_of in Hin. cbn [_rules _rules_by_name] in *.
  assert (Hold : forall l', r ∈ rules_of g l' ->
            <[name rule:=rule]> (_rules_by_name g) !! name r = Some r).
  { intros l' Hr. pose proof (Hg l' r Hr) as Hidx.
    rewrite lookup_insert_ne; [done|]. intros E. rewrite <- E in Hidx. congruence. }
  destruct (decide (lhs rule = l)) as [<-|Hne].
  - rewrite lookup_insert_eq in Hin. cbn in Hin.
    apply elem_of_app in Hin as [Hin|Hin]; [by apply (Hold (lhs rule))|].
    apply list_elem_of_singleton in Hin as ->. by rewrite lookup_insert_eq.
  - rewrite lookup_insert_ne in Hin by done. by apply (Hold l).
Qed.

Lemma add_rules_names_indexed (rs : list Rule) (g g' : Grammar) :
  names_indexed g -> add_rules g rs = (g', Ok tt) -> names_indexed g'.
Proof.
  revert g. induction rs as [|r rs IH]; intros g Hg; cbn.
  - by intros [= <-].
  - destruct (add_rule g r) as [g1 [[]|e]] eqn:E; [|discriminate].
    intros H. apply (IH g1); [|done]. by apply (add_rule_names_indexed g g1 r).
Qed.

Lemma Grammar_init_names_indexed (start : Symbol) : names_indexed (Grammar_init start).
Proof. intros l r Hin. unfold rules_of in Hin. cbn in Hin. inversion Hin. Qed.

Lemma bool_grammar_rules (l : Symbol) (rule : Rule) :
  rule ∈ rules_of bool_grammar l -> rule ∈ [rule_T1; rule_T2; rule_AND].
Proof.
  assert (E : _rules bool_grammar = {[ "B" := [rule_T1; rule_T2; rule_AND] ]}).
  { vm_compute. reflexivity. }
  unfold rules_of. rewrite E.
  destruct (decide ("B" = l)) as [<-|Hne].
  - by rewrite lookup_singleton_eq.
  - rewrite lookup_singleton_ne by done. cbn. inversion 1.
Qed.

Lemma bool_grammar_parseable : parseable bool_grammar.
Proof.
  intros l rule Hin.
  pose proof (add_rules_names_indexed [rule_T1; rule_T2; rule_AND] (Grammar_init "B")
                bool_grammar (Grammar_init_names_indexed "B")) as Hidx.
  split; [apply (Hidx ltac:(vm_compute; reflexivity) l rule Hin)|].
  apply bool_grammar_rules in Hin.
  repeat (apply elem_of_cons in Hin as [->|Hin]); [| | |inversion Hin];
    (split; [vm_compute; reflexivity|discriminate]).
Qed.

(** ** Round trip through [parse] *)

Section RoundTrip.

Variable g : Grammar.
Hypothesis g_parseable : parseable g.

Lemma generates_from_rules (e : GrammaticalExpression) :
  forall l, generates g l e -> from_rules g e /\ as_lists e = e.
Proof.
  induction e as [n f fm|n f k cs fm IH] using GrammaticalExpression_tree_ind;
    intros l He.
  - inversion He as [l' rule Hin Hrhs|]; subst. split; [by eapply from_rules_leaf|done].
  - inversion He as [|l' rule rule_rhs cs' Hin Hrhs Hcs]; subst.
    destruct (g_parseable l rule Hin) as (_ & _ & Hne).
    assert (Hall : Forall (fun c => from_rules g c /\ as_lists c = c) cs).
    { clear -Hcs IH. induction Hcs as [|s c rule_rhs cs Hc _ IHcs]; [constructor|].
      apply Forall_cons in IH as [IHc IH]. constructor; [by apply (IHc s)|by apply IHcs]. }
    split.
    + eapply from_rules_node; eauto.
      * symmetry. by eapply Forall2_length.
      * intros ->. inversion Hcs; subst. by apply Hne.
      * eapply Forall_impl; [exact Hall|]. by intros c [? _].
    + cbn. do 3 f_equal. clear -Hall.
      induction Hall as [|c cs [_ Hc] _ IHcs]; [done|]. cbn. by rewrite Hc, IHcs.
Qed.

(** The part of the round trip that holds: an expression returned by
    [generate] is what [parse] makes of its string. *)
Lemma generate_round_trip (l : option Symbol) (e : GrammaticalExpression) :
  generate g l e ->
  exists e', parse g (ge_str e) = Ok e' /\ ge_eq e' e = true.
Proof.
  intros He. destruct (generates_from_rules e _ He) as [Hfr Hlists].
  exists e. split; [|apply ge_eq_refl].
  rewrite (parse_ge_str g g_parseable e Hfr). by rewrite Hlists.
Qed.

(** An enumerated expression parses back to itself up to the container of
    the children: [parse] builds lists where [enumerate_at_depth] built
    tuples, so from depth 1 on the two are not equal. *)
Lemma enumerate_at_depth_round_trip {K} (key_eqb : K -> K -> bool) (depth : nat)
    (l : Symbol) ud uk cf consume (e : GrammaticalExpression) :
  e ∈ yielded (enumerate_at_depth key_eqb g depth l ud uk cf consume) ->
  parse g (ge_str e) = Ok (as_lists e)
  /\ (depth = 0 -> ge_eq (as_lists e) e = true)
  /\ (1 <= depth -> ge_eq (as_lists e) e = false).
Proof.
  intros Hin.
  pose proof (enumerate_at_depth_yield_of key_eqb g depth l ud uk cf consume) as HQ.
  rewrite Forall_forall in HQ.
  destruct (HQ e Hin) as (Hdepth & Hfr & rule & Hr & Hn & Hf & Hc).
  split; [by apply parse_ge_str|]. split.
  - intros ->. destruct e as [n f [[k cs]|] fm]; [discriminate Hdepth|].
    cbn [as_lists]. apply ge_eq_refl.
  - intros Hd. destruct (rhs rule) as [rule_rhs|]; [|lia].
    destruct Hc as (cs & Hcs & _). destruct e as [n f c fm]. cbn in Hcs. subst c.
    cbn. by rewrite andb_false_r.
Qed.

End RoundTrip.

(** C1. Evaluation at an expression of [enumerate_at_depth(1, "B")]:
    its string is ["AND(T1, T1)"], which parses to an expression with the
    same rule names and functions whose children are in a list; [__eq__]
    compares a list with the tuple of the enumerated expression and answers
    [False]. *)
Theorem parse_enumerated_not_equal :
  and_of (leaf rule_T1) (leaf rule_T1)
  ∈ yielded (enumerate_at_depth Bool.eqb bool_grammar 1 "B" None None None take_all)
  /\ ge_str (and_of (leaf rule_T1) (leaf rule_T1)) = "AND(T1, T1)"
  /\ parse bool_grammar "AND(T1, T1)"
     = Ok (GExpr "AND" 3 (Some (PyList, [leaf rule_T1; leaf rule_T1])) None)
  /\ ge_eq (GExpr "AND" 3 (Some (PyList, [leaf rule_T1; leaf rule_T1])) None)
           (and_of (leaf rule_T1) (leaf rule_T1)) = false.
Proof.
  split; [vm_compute; left|]. repeat split; vm_compute; reflexivity.
Qed.

(** ** The scenario of the specification *)

Example scenario_depth_0 :
  yielded (enumerate_at_depth Bool.eqb bool_grammar 0 "B" None None None take_all)
  = [leaf rule_T1; leaf rule_T2].
Proof. vm_compute. reflexivity. Qed.

Example scenario_depth_1 :
  yielded (enumerate_at_depth Bool.eqb bool_grammar 1 "B" None None None take_all)
  = [and_of (leaf rule_T1) (leaf rule_T1); and_of (leaf rule_T1) (leaf rule_T2);
     and_of (leaf rule_T2) (leaf rule_T1); and_of (leaf rule_T2) (leaf rule_T2)].
Proof. vm_compute. reflexivity. Qed.

Example scenario_unique :
  get_unique_expressions Bool.eqb bool_grammar 2 None Infinity (Some truth_value)
    (Some shorter)
  = Ok [(true, leaf rule_T1); (false, leaf rule_T2)].
Proof. vm_compute. reflexivity. Qed.

(** * Further properties of the code *)

(** ** Runs whose consumer takes everything *)

Section PlainRuns.

Context {K : Type}.
Variable key_eqb : K -> K -> bool.

Lemma scripted_script Q a :
  scripted key_eqb Q a ->
  forall uk cf consume st,
    a uk cf consume st
    = play key_eqb uk cf consume (script_of (a None None take_all (init_run None))) st.
Proof.
  intros (sc & _ & H) uk cf consume st.
  assert (E : script_of (a None None take_all (init_run None)) = sc).
  { rewrite H. unfold play, init_run. rewrite for_each_emit_take_all.
    destruct sc as [ys [x|]]; reflexivity. }
  rewrite E. apply H.
Qed.

(** Playing a script for a consumer that never breaks. *)
Lemma play_never_break uk cf consume (ys : list GrammaticalExpression)
    (ox : option exn) (ys0 : list GrammaticalExpression) (od : option (@udict K)) :
  (forall e d, consume e d = false) ->
  dict_given uk cf od ->
  play key_eqb uk cf consume (ys, ox) (mkRun ys0 od Running)
  = mkRun (ys0 ++ ys)
      (match od with
       | Some d => Some (dict_of_yields key_eqb uk cf d ys)
       | None => None
       end)
      (match ox with Some x => Raised x | None => Running end).
Proof.
  intros Hc Hd. unfold play. cbn [fst snd].
  assert (H : for_each ys (emit key_eqb uk cf consume) (mkRun ys0 od Running)
              = mkRun (ys0 ++ ys)
                  (match od with
                   | Some d => Some (dict_of_yields key_eqb uk cf d ys)
                   | None => None
                   end) Running).
  { revert ys0 od Hd. induction ys as [|e ys IH]; intros ys0 od Hd.
    - rewrite app_nil_r. destruct od; [|done]. by destruct uk, cf.
    - rewrite for_each_cons. cbn [state]. unfold emit. cbn [state unique_dict yielded].
      destruct uk as [ukf|]; [destruct cf as [cff|]|].
      + destruct od as [d|]; [|done]. unfold yield_. cbn [yielded unique_dict state].
        rewrite Hc. rewrite IH by done. by rewrite <- app_assoc.
      + unfold yield_. cbn [yielded unique_dict state]. rewrite Hc.
        rewrite IH by (by destruct od). rewrite <- app_assoc. by destruct od.
      + unfold yield_. cbn [yielded unique_dict state]. rewrite Hc.
        rewrite IH by (by destruct od). rewrite <- app_assoc. by destruct od. }
  rewrite H. by destruct ox.
Qed.

(** What a run yields is the beginning of its script. *)
Lemma play_yielded_take uk cf consume (sc : script) (st : @run K) :
  exists k, yielded (play key_eqb uk cf consume sc st) = yielded st ++ take k (fst sc).
Proof.
  destruct sc as [ys ox]. unfold play. cbn [fst snd].
  assert (H : exists k, yielded (for_each ys (emit key_eqb uk cf consume) st)
                        = yielded st ++ take k ys).
  { revert st. induction ys as [|e ys IH]; intros st.
    - exists 0. by rewrite app_nil_r.
    - rewrite for_each_cons. destruct (state st) eqn:Hs.
      + assert (Hy : forall st1, yielded st1 = yielded st ->
                  exists k, yielded (for_each ys (emit key_eqb uk cf consume)
                                       (yield_ consume e st1))
                            = yielded st ++ take k (e :: ys)).
        { intros st1 E. destruct (IH (yield_ consume e st1)) as [k Hk].
          exists (S k). rewrite Hk. unfold yield_.
          destruct (consume _ _); cbn; rewrite E; by rewrite <- app_assoc. }
        unfold emit. rewrite Hs.
        destruct uk as [ukf|]; [destruct cf as [cff|]|]; try by apply Hy.
        destruct (unique_dict st) as [d|]; [by apply Hy|].
        exists 0. rewrite for_each_not_running by apply raise_state.
        unfold raise. rewrite Hs. cbn. by rewrite app_nil_r.
      + exists 0. rewrite for_each_not_running by congruence. by rewrite app_nil_r.
      + exists 0. rewrite for_each_not_running by congruence. by rewrite app_nil_r. }
  destruct H as [k Hk]. exists k. rewrite <- Hk.
  destruct ox as [x|]; [|done]. unfold raise. by destruct (state _).
Qed.

(** A loop whose body appends to what was yielded. *)
Lemma for_each_appends {A} (xs : list A) (body : A -> @run K -> @run K)
    (Y : A -> list GrammaticalExpression) :
  (forall x ys d, x ∈ xs ->
     body x (mkRun ys d Running) = mkRun (ys ++ Y x) d Running) ->
  forall ys d,
    for_each xs body (mkRun ys d Running) = mkRun (ys ++ flat_map Y xs) d Running.
Proof.
  induction xs as [|x xs IH]; intros H ys d.
  - cbn. by rewrite app_nil_r.
  - rewrite for_each_cons. cbn [state flat_map]. rewrite H by left.
    rewrite IH by (intros; apply H; by right). by rewrite <- app_assoc.
Qed.

Lemma for_each_emit_map {A} (xs : list A) (f : A -> GrammaticalExpression)
    (ys : list GrammaticalExpression) (d : option (@udict K)) :
  for_each xs (fun x st => emit key_eqb None None take_all (f x) st)
    (mkRun ys d Running)
  = mkRun (ys ++ map f xs) d Running.
Proof.
  revert ys. induction xs as [|x xs IH]; intros ys.
  - cbn. by rewrite app_nil_r.
  - rewrite for_each_cons. cbn. unfold yield_. cbn. rewrite IH.
    by rewrite <- app_assoc.
Qed.

Lemma exhaust_running (gens : list (@run K)) :
  Forall (fun r => state r = Running) gens ->
  exhaust gens = Ok (map yielded gens).
Proof.
  induction 1 as [|r rs Hr _ IH]; [done|]. cbn. by rewrite Hr, IH.
Qed.

End PlainRuns.

(** ** Products, the other way round *)

Lemma product_elem_of {A} (pools : list (list A)) (cs : list A) :
  Forall2 (fun c p => c ∈ p) cs pools -> cs ∈ product pools.
Proof.
  induction 1 as [|c p cs ps Hc _ IH]; cbn; [left|].
  apply list_elem_of_In, in_flat_map. exists c. split; [by apply list_elem_of_In|].
  apply in_map. by apply list_elem_of_In.
Qed.

Lemma product_repeat_elem_of {A} (xs : list A) (n : nat) (ys : list A) :
  length ys = n -> Forall (fun y => y ∈ xs) ys -> ys ∈ product_repeat xs n.
Proof.
  intros <- H. induction H as [|y ys Hy _ IH]; cbn; [left|].
  apply list_elem_of_In, in_flat_map. exists y. split; [by apply list_elem_of_In|].
  apply in_map. by apply list_elem_of_In.
Qed.

Lemma Forall2_zip_snd {A B C} (P : B -> C -> Prop) (xs : list A) (ys : list B)
    (cs : list C) :
  length xs = length ys ->
  Forall2 (fun c z => P (snd z) c) cs (zip xs ys) -> Forall2 P ys cs.
Proof.
  revert ys cs. induction xs as [|x xs IH]; intros [|y ys] cs Hlen H;
    cbn in *; try discriminate.
  - inversion H. constructor.
  - inversion H as [|c z cs' zs Hc Hcs]; subst. constructor; [done|].
    apply IH; [lia|done].
Qed.

(** ** What an enumeration yields when no right-hand side is empty *)

Section EnumerateLists.

Context {K : Type}.
Variable key_eqb : K -> K -> bool.
Variable g : Grammar.
Hypothesis g_no_empty_rhs : no_empty_rhs g.

Lemma plain_step_running (fuel : nat) :
  (forall depth l,
     state (enumerate_at_depth_fuel key_eqb g fuel depth l None None take_all
              (@init_run K None)) = Running) ->
  forall depth l ys (d : option (@udict K)),
    enumerate_at_depth_fuel key_eqb g (S fuel) depth l None None take_all
      (mkRun ys d Running)
    = mkRun (ys ++ level_expressions g (plain_yields key_eqb g fuel) depth l) d Running.
Proof.
  intros Hrun depth l ys d. cbn [enumerate_at_depth_fuel]. unfold level_expressions.
  rewrite app_assoc.
  match goal with
  | |- for_each _ _ ?st0 = _ =>
      assert (H0 : st0
                   = mkRun (ys ++ (if depth =? 0
                                   then map leaf (List.filter is_terminal (rules_of g l))
                                   else [])) d Running)
  end.
  { destruct (depth =? 0); [apply terminals_yielded|by rewrite app_nil_r]. }
  rewrite H0. apply for_each_appends. intros rule ys1 d1 Hrule.
  unfold node_expressions. destruct (rhs rule) as [rule_rhs|] eqn:Hrhs;
    [|by rewrite app_nil_r].
  apply for_each_appends. intros cds ys2 d2 Hcds.
  apply elem_of_product_repeat in Hcds as [Hlen Hall].
  destruct (py_max cds) as [m|] eqn:Hmax.
  2: { destruct cds; [|discriminate]. destruct rule_rhs; [|discriminate].
       by destruct (g_no_empty_rhs l rule Hrule). }
  destruct (Z.of_nat m <? Z.of_nat depth - 1)%Z; [by rewrite app_nil_r|].
  rewrite exhaust_running.
  2: { apply Forall_forall. intros r Hr.
       apply list_elem_of_In, in_map_iff in Hr as ([cd cl] & <- & _). apply Hrun. }
  rewrite for_each_emit_map. do 3 f_equal. rewrite map_map. f_equal.
  apply map_ext. by intros [cd cl].
Qed.

Lemma plain_running (fuel depth : nat) (l : Symbol) :
  state (enumerate_at_depth_fuel key_eqb g fuel depth l None None take_all
           (@init_run K None)) = Running.
Proof.
  revert depth l. induction fuel as [|fuel IH]; intros depth l; [done|].
  unfold init_run. by rewrite (plain_step_running fuel IH).
Qed.

Lemma plain_yields_step (fuel depth : nat) (l : Symbol) :
  plain_yields key_eqb g (S fuel) depth l
  = level_expressions g (plain_yields key_eqb g fuel) depth l.
Proof.
  unfold plain_yields at 1. unfold init_run.
  by rewrite (plain_step_running fuel (plain_running fuel)).
Qed.

Lemma plain_run (fuel depth : nat) (l : Symbol) ys (d : option (@udict K)) :
  enumerate_at_depth_fuel key_eqb g fuel depth l None None take_all (mkRun ys d Running)
  = mkRun (ys ++ plain_yields key_eqb g fuel depth l) d Running.
Proof.
  destruct fuel as [|fuel].
  - cbn. by rewrite app_nil_r.
  - rewrite (plain_step_running fuel (plain_running fuel)).
    by rewrite plain_yields_step.
Qed.

Lemma derives_plain_yields (e : GrammaticalExpression) :
  forall l, derives g l e ->
  forall fuel, ge_depth e < fuel -> e ∈ plain_yields key_eqb g fuel (ge_depth e) l.
Proof.
  induction e as [n f fm|n f k cs fm IH] using GrammaticalExpression_tree_ind;
    intros l He fuel Hfuel.
  - inversion He as [l' rule Hin Hrhs|]; subst.
    destruct fuel as [|fuel]; [lia|]. rewrite plain_yields_step.
    unfold level_expressions. cbn [ge_depth]. change (0 =? 0) with true. cbv iota.
    apply elem_of_app. left. apply list_elem_of_In, in_map_iff.
    exists rule. split; [done|]. apply filter_In.
    split; [by apply list_elem_of_In|]. unfold is_terminal. by rewrite Hrhs.
  - inversion He as [|l' rule rule_rhs cs' Hin Hrhs Hcs]; subst.
    destruct fuel as [|fuel]; [lia|]. cbn [ge_depth] in *.
    set (m := foldr Nat.max 0 (map ge_depth cs)) in *.
    rewrite plain_yields_step. unfold level_expressions.
    apply elem_of_app. right. apply list_elem_of_In, in_flat_map.
    exists rule. split; [by apply list_elem_of_In|].
    unfold node_expressions. rewrite Hrhs. apply in_flat_map.
    exists (map ge_depth cs).
    assert (Hlen : length cs = length rule_rhs).
    { symmetry. by eapply Forall2_length. }
    assert (Hne : cs <> []).
    { intros ->. destruct rule_rhs; [|discriminate].
      by destruct (g_no_empty_rhs l rule Hin). }
    split.
    + apply list_elem_of_In, product_repeat_elem_of; [by rewrite length_map|].
      apply Forall_forall. intros y Hy.
      apply list_elem_of_In, in_map_iff in Hy as (c & <- & Hc).
      apply list_elem_of_In, ge_depth_child in Hc. apply elem_of_seq. lia.
    + assert (Hmax : py_max (map ge_depth cs) = Some m).
      { destruct cs as [|c cs0]; [done|]. cbn [map py_max]. rewrite foldl_max.
        reflexivity. }
      rewrite Hmax.
      assert (Hlt : (Z.of_nat m <? Z.of_nat (S m) - 1)%Z = false).
      { apply Z.ltb_ge. lia. }
      rewrite Hlt. apply in_map_iff. exists cs. split; [done|].
      apply list_elem_of_In, product_elem_of.
      assert (Hb : Forall (fun c => ge_depth c < fuel) cs).
      { apply Forall_forall. intros c Hc. apply ge_depth_child in Hc.
        fold m in Hc. lia. }
      clear -IH Hcs Hb. revert IH Hb.
      induction Hcs as [|s c rule_rhs cs Hc _ IHcs]; intros IH Hb; [constructor|].
      apply Forall_cons in IH as [IHc IH]. apply Forall_cons in Hb as [Hbc Hb].
      cbn. constructor; [by apply IHc|by apply IHcs].
Qed.

Lemma plain_yields_derives (fuel depth : nat) (l : Symbol) (e : GrammaticalExpression) :
  e ∈ plain_yields key_eqb g fuel depth l -> derives g l e.
Proof.
  revert depth l e. induction fuel as [|fuel IH]; intros depth l e He.
  { inversion He. }
  rewrite plain_yields_step in He. unfold level_expressions in He.
  apply elem_of_app in He as [He|He].
  - destruct (depth =? 0); [|inversion He].
    apply list_elem_of_In, in_map_iff in He as (rule & <- & Hr).
    apply filter_In in Hr as [Hr Ht]. unfold is_terminal in Ht.
    apply derives_terminal; [by apply list_elem_of_In|].
    by destruct (rhs rule).
  - apply list_elem_of_In, in_flat_map in He as (rule & Hr & He).
    unfold node_expressions in He.
    destruct (rhs rule) as [rule_rhs|] eqn:Hrhs; [|inversion He].
    apply in_flat_map in He as (cds & Hcds & He).
    apply list_elem_of_In, elem_of_product_repeat in Hcds as [Hlen _].
    destruct (py_max cds) as [m|]; [|inversion He].
    destruct (Z.of_nat m <? Z.of_nat depth - 1)%Z; [inversion He|].
    apply in_map_iff in He as (cs & <- & Hcs).
    apply list_elem_of_In, elem_of_product, Forall2_map_right in Hcs.
    eapply derives_node; [by apply list_elem_of_In|done|].
    apply (Forall2_zip_snd (derives g) cds); [done|].
    eapply Forall2_impl; [exact Hcs|].
    intros c [cd cl] Hc. cbn. by apply (IH cd).
Qed.

Lemma enumerate_plain_run (depth : nat) (l : Symbol) ys (d : option (@udict K)) :
  for_each (seq 0 depth)
    (fun num st =>
       enumerate_at_depth_fuel key_eqb g (S num) num l None None take_all st)
    (mkRun ys d Running)
  = mkRun (ys ++ flat_map (fun num => plain_yields key_eqb g (S num) num l)
                   (seq 0 depth)) d Running.
Proof. apply for_each_appends. intros num ys' d' _. apply plain_run. Qed.

End EnumerateLists.

(** ** Runs with any consumer and any deduplication arguments *)

Section AnyRun.

Context {K : Type}.
Variable key_eqb : K -> K -> bool.

Lemma for_each_emit_not_raised uk cf consume (ys : list GrammaticalExpression)
    (st : @run K) :
  dict_given uk cf (unique_dict st) ->
  (forall x, state st <> Raised x) ->
  forall x, state (for_each ys (emit key_eqb uk cf consume) st) <> Raised x.
Proof.
  intros Hd Hs.
  apply (for_each_invariant
           (fun st => dict_given uk cf (unique_dict st)
                      /\ forall x, state st <> Raised x)); [|done].
  intros e st' _ Hrun [Hd' _]. unfold emit. rewrite Hrun.
  assert (Hy : forall st1, state st1 = Running ->
                 dict_given uk cf (unique_dict st1) ->
                 dict_given uk cf (unique_dict (yield_ consume e st1))
                 /\ forall x, state (yield_ consume e st1) <> Raised x).
  { intros st1 H1 H2. unfold yield_. destruct (consume _ _); cbn; rewrite ?H1; done. }
  destruct uk as [ukf|]; [destruct cf as [cff|]|]; try by apply Hy.
  destruct (unique_dict st') as [d|]; [|done]. by apply Hy.
Qed.

Variable g : Grammar.

(** What is yielded to any consumer, with any deduplication arguments, is
    the beginning of what is yielded to a consumer that takes everything. *)
Lemma enumerate_at_depth_fuel_take (fuel depth : nat) (l : Symbol) ud uk cf consume :
  exists k,
    yielded (enumerate_at_depth_fuel key_eqb g fuel depth l uk cf consume (init_run ud))
    = take k (plain_yields key_eqb g fuel depth l).
Proof.
  pose proof (scripted_script key_eqb _ _
                (enumerate_at_depth_fuel_scripted key_eqb g fuel depth l)
                uk cf consume (init_run ud)) as H.
  cbn beta in H. rewrite H.
  destruct (play_yielded_take key_eqb uk cf consume
              (script_of (enumerate_at_depth_fuel key_eqb g fuel depth l None None
                            take_all (init_run None)))
              (init_run ud)) as [k Hk].
  exists k. rewrite Hk. reflexivity.
Qed.

Lemma enumerate_at_depth_fuel_never_break (fuel depth : nat) (l : Symbol)
    ud uk cf consume :
  (forall e d, consume e d = false) ->
  dict_given uk cf ud ->
  enumerate_at_depth_fuel key_eqb g fuel depth l uk cf consume (init_run ud)
  = mkRun (plain_yields key_eqb g fuel depth l)
      (match ud with
       | Some d => Some (dict_of_yields key_eqb uk cf d
                           (plain_yields key_eqb g fuel depth l))
       | None => None
       end)
      (match state (enumerate_at_depth_fuel key_eqb g fuel depth l None None
                      take_all (init_run None)) with
       | Raised x => Raised x
       | _ => Running
       end).
Proof.
  intros Hc Hd.
  pose proof (scripted_script key_eqb _ _
                (enumerate_at_depth_fuel_scripted key_eqb g fuel depth l)
                uk cf consume (init_run ud)) as H.
  cbn beta in H. rewrite H. unfold script_of, init_run at 3.
  rewrite (play_never_break key_eqb uk cf consume _ _ [] ud Hc Hd).
  unfold plain_yields. cbn [app]. f_equal.
  by destruct (state _).
Qed.

End AnyRun.

Section EnumerateAnyRun.

Context {K : Type}.
Variable key_eqb : K -> K -> bool.
Variable g : Grammar.
Hypothesis g_no_empty_rhs : no_empty_rhs g.

Lemma enumerate_at_depth_fuel_play (fuel depth : nat) (l : Symbol) uk cf consume
    (st : @run K) :
  enumerate_at_depth_fuel key_eqb g fuel depth l uk cf consume st
  = play key_eqb uk cf consume (plain_yields key_eqb g fuel depth l, None) st.
Proof.
  pose proof (scripted_script key_eqb _ _
                (enumerate_at_depth_fuel_scripted key_eqb g fuel depth l)
                uk cf consume st) as H.
  cbn beta in H. rewrite H. unfold script_of.
  by rewrite (plain_running key_eqb g g_no_empty_rhs).
Qed.

Lemma enumerate_play (depth : nat) (lhs : option Symbol) ud uk cf consume :
  enumerate key_eqb g depth lhs ud uk cf consume
  = play key_eqb uk cf consume
      (flat_map (fun num => plain_yields key_eqb g (S num) num (default (_start g) lhs))
                (seq 0 depth), None)
      (init_run ud).
Proof.
  unfold enumerate.
  pose proof (scripted_script key_eqb _ _
                (enumerate_scripted key_eqb g depth (default (_start g) lhs))
                uk cf consume (init_run ud)) as H.
  cbn beta in H. rewrite H. unfold script_of, init_run at 1 2.
  by rewrite (enumerate_plain_run key_eqb g g_no_empty_rhs).
Qed.

Lemma enumerate_at_depth_not_raised (depth : nat) (l : Symbol) ud uk cf consume x :
  dict_given uk cf ud ->
  state (enumerate_at_depth key_eqb g depth l ud uk cf consume) <> Raised x.
Proof.
  intros Hd. unfold enumerate_at_depth. rewrite enumerate_at_depth_fuel_play.
  unfold play. cbn [fst snd]. by apply for_each_emit_not_raised.
Qed.

Lemma enumerate_not_raised (depth : nat) (lhs : option Symbol) ud uk cf consume x :
  dict_given uk cf ud ->
  state (enumerate key_eqb g depth lhs ud uk cf consume) <> Raised x.
Proof.
  intros Hd. rewrite enumerate_play.
  unfold play. cbn [fst snd]. by apply for_each_emit_not_raised.
Qed.

Lemma enumerate_member (depth : nat) (l : Symbol) (e : GrammaticalExpression) :
  e ∈ flat_map (fun num => plain_yields key_eqb g (S num) num l) (seq 0 depth)
  <-> derives g l e /\ ge_depth e < depth.
Proof.
  split.
  - intros He. apply list_elem_of_In, in_flat_map in He as (num & Hnum & He).
    apply list_elem_of_In, elem_of_seq in Hnum. apply list_elem_of_In in He.
    split; [by eapply plain_yields_derives|].
    pose proof (scripted_yielded key_eqb _ _
                  (enumerate_at_depth_fuel_scripted key_eqb g (S num) num l)) as HQ.
    rewrite Forall_forall in HQ. destruct (HQ e He) as [-> _]. lia.
  - intros [Hd Hlt]. apply list_elem_of_In, in_flat_map.
    exists (ge_depth e). split; [apply list_elem_of_In, elem_of_seq; lia|].
    apply list_elem_of_In. apply derives_plain_yields; [done|done|lia].
Qed.

End EnumerateAnyRun.

Lemma bool_grammar_no_empty_rhs : no_empty_rhs bool_grammar.
Proof.
  intros l rule Hin. apply bool_grammar_rules in Hin.
  repeat (apply elem_of_cons in Hin as [->|Hin]); [| | |inversion Hin]; discriminate.
Qed.

(** ** Exhaustive enumeration *)

(** X1. In a grammar without empty right-hand sides,
    [enumerate_at_depth(depth, lhs)] yields exactly the derivation trees of
    [lhs] whose depth is [depth]: every such tree is yielded, and nothing
    else is. *)
Theorem enumerate_at_depth_exhaustive {K} (key_eqb : K -> K -> bool) (g : Grammar)
    (depth : nat) (l : Symbol) (e : GrammaticalExpression) :
  no_empty_rhs g ->
  e ∈ yielded (enumerate_at_depth key_eqb g depth l None None None take_all)
  <-> derives g l e /\ ge_depth e = depth.
Proof.
  intros Hg. split.
  - intros He. split.
    + by apply (plain_yields_derives key_eqb g Hg (S depth) depth l).
    + pose proof (enumerate_at_depth_yield_of key_eqb g depth l None None None take_all)
        as HQ.
      rewrite Forall_forall in HQ. by destruct (HQ e He).
  - intros [Hd <-]. apply (derives_plain_yields key_eqb g Hg e l Hd). lia.
Qed.

Lemma enumerate_at_depth_exhaustive_witness :
  no_empty_rhs bool_grammar
  /\ (and_of (leaf rule_T1) (leaf rule_T2)
      ∈ yielded (enumerate_at_depth Bool.eqb bool_grammar 1 "B" None None None take_all)
      <-> derives bool_grammar "B" (and_of (leaf rule_T1) (leaf rule_T2))
          /\ ge_depth (and_of (leaf rule_T1) (leaf rule_T2)) = 1).
Proof.
  split; [exact bool_grammar_no_empty_rhs|].
  exact (enumerate_at_depth_exhaustive Bool.eqb bool_grammar 1 "B"
           (and_of (leaf rule_T1) (leaf rule_T2)) bool_grammar_no_empty_rhs).
Defined.

(** X2. In a grammar without empty right-hand sides, [enumerate(depth, lhs)]
    yields what [enumerate_at_depth] yields at the depths 0, 1, ...,
    [depth - 1], one depth after the other; so it yields exactly the
    derivation trees of [lhs] of depth below [depth]. *)
Theorem enumerate_all_depths {K} (key_eqb : K -> K -> bool) (g : Grammar)
    (depth : nat) (lhs : option Symbol) :
  no_empty_rhs g ->
  yielded (enumerate key_eqb g depth lhs None None None take_all)
  = flat_map
      (fun num =>
         yielded (enumerate_at_depth key_eqb g num (default (_start g) lhs)
                    None None None take_all))
      (seq 0 depth)
  /\ forall e,
       e ∈ yielded (enumerate key_eqb g depth lhs None None None take_all)
       <-> derives g (default (_start g) lhs) e /\ ge_depth e < depth.
Proof.
  intros Hg.
  assert (E : yielded (enumerate key_eqb g depth lhs None None None take_all)
              = flat_map (fun num => plain_yields key_eqb g (S num) num
                                       (default (_start g) lhs)) (seq 0 depth)).
  { unfold enumerate, init_run. by rewrite (enumerate_plain_run key_eqb g Hg). }
  split; [exact E|]. intros e. rewrite E. by apply enumerate_member.
Qed.

Lemma enumerate_all_depths_witness :
  no_empty_rhs bool_grammar
  /\ yielded (enumerate Bool.eqb bool_grammar 2 None None None None take_all)
     = flat_map
         (fun num =>
            yielded (enumerate_at_depth Bool.eqb bool_grammar num "B" None None None
                       take_all))
         [0; 1].
Proof.
  split; [exact bool_grammar_no_empty_rhs|].
  exact (proj1 (enumerate_all_depths Bool.eqb bool_grammar 2 None
                  bool_grammar_no_empty_rhs)).
Defined.

(** X3. In a grammar without empty right-hand sides no enumeration raises:
    neither [enumerate_at_depth] nor [enumerate], whoever consumes them, as
    long as a dictionary is passed when both deduplication arguments are; and
    [get_unique_expressions] returns a dictionary. *)
Theorem enumerate_never_raises {K} (key_eqb : K -> K -> bool) (g : Grammar) :
  no_empty_rhs g ->
  (forall depth l ud uk cf consume x,
     dict_given uk cf ud ->
     state (enumerate_at_depth key_eqb g depth l ud uk cf consume) <> Raised x)
  /\ (forall depth lhs ud uk cf consume x,
        dict_given uk cf ud ->
        state (enumerate key_eqb g depth lhs ud uk cf consume) <> Raised x)
  /\ (forall depth lhs max_size uk cf,
        exists d, get_unique_expressions key_eqb g depth lhs max_size uk cf = Ok d).
Proof.
  intros Hg. split; [|split].
  - intros. by apply enumerate_at_depth_not_raised.
  - intros. by apply enumerate_not_raised.
  - intros depth lhs max_size uk cf. unfold get_unique_expressions.
    match goal with |- context [state ?r] => destruct (state r) as [|x|] eqn:Hs end;
      [eauto| |eauto].
    exfalso. revert Hs. apply enumerate_not_raised; [done|]. by destruct uk, cf.
Qed.

Lemma enumerate_never_raises_witness :
  no_empty_rhs bool_grammar
  /\ exists d,
       get_unique_expressions Bool.eqb bool_grammar 2 None Infinity (Some truth_value)
         (Some shorter) = Ok d.
Proof.
  split; [exact bool_grammar_no_empty_rhs|].
  exact (proj2 (proj2 (enumerate_never_raises Bool.eqb bool_grammar
                         bool_grammar_no_empty_rhs))
           2 None Infinity (Some truth_value) (Some shorter)).
Defined.

(** ** Empty right-hand sides *)

Section EmptyRhs.

Context {K : Type}.
Variable key_eqb : K -> K -> bool.
Variable g : Grammar.

Lemma exhaust_err (gens : list (@run K)) (e : exn) :
  exhaust gens = Err e -> exists r, r ∈ gens /\ state r = Raised e.
Proof.
  induction gens as [|r rs IH]; cbn; [discriminate|].
  destruct (state r) as [|x|] eqn:Hs.
  - destruct (exhaust rs) as [ps|x]; [discriminate|]. intros [= <-].
    destruct (IH eq_refl) as (r' & Hin & Hr'). exists r'. split; [by right|done].
  - intros [= <-]. exists r. split; [left|done].
  - destruct (exhaust rs) as [ps|x]; [discriminate|]. intros [= <-].
    destruct (IH eq_refl) as (r' & Hin & Hr'). exists r'. split; [by right|done].
Qed.

Lemma emit_take_all_running_or_ValueError (e : GrammaticalExpression) (st : @run K) :
  running_or_ValueError st ->
  running_or_ValueError (emit key_eqb None None take_all e st).
Proof.
  intros H. unfold emit. destruct (state st) eqn:Hs; [|done|done].
  left. unfold yield_. cbn. done.
Qed.

Lemma plain_step_running_or_ValueError (fuel : nat) :
  (forall depth l,
     running_or_ValueError
       (enumerate_at_depth_fuel key_eqb g fuel depth l None None take_all
          (@init_run K None))) ->
  forall depth l (st : @run K),
    running_or_ValueError st ->
    running_or_ValueError
      (enumerate_at_depth_fuel key_eqb g (S fuel) depth l None None take_all st)
    /\ forall rule,
         rule ∈ rules_of g l -> rhs rule = Some [] ->
         state (enumerate_at_depth_fuel key_eqb g (S fuel) depth l None None take_all st)
         = Raised ValueError.
Proof.
  intros IH depth l st Hst. cbn [enumerate_at_depth_fuel].
  match goal with
  | |- running_or_ValueError (for_each _ ?B ?s) /\ _ => set (body := B); set (st0 := s)
  end.
  assert (Hst0 : running_or_ValueError st0).
  { subst st0. destruct (depth =? 0); [|done].
    apply (for_each_invariant running_or_ValueError); [|done].
    intros rule st1 _ _ H1. destruct (is_terminal rule); [|done].
    by apply emit_take_all_running_or_ValueError. }
  assert (Hbody : forall rule st1,
             state st1 = Running -> running_or_ValueError (body rule st1)).
  { intros rule st1 H1. unfold body.
    destruct (rhs rule) as [rule_rhs|]; [|by left].
    apply (for_each_invariant running_or_ValueError); [|by left].
    intros cds st2 _ H2 _.
    destruct (py_max cds) as [m|].
    2: { right. unfold raise. by rewrite H2. }
    destruct (Z.of_nat m <? Z.of_nat depth - 1)%Z; [by left|].
    destruct (exhaust _) as [pools|x] eqn:Hex.
    - apply (for_each_invariant running_or_ValueError); [|by left].
      intros cs st3 _ H3 _. apply emit_take_all_running_or_ValueError. by left.
    - apply exhaust_err in Hex as (r & Hr & Hx).
      apply list_elem_of_In, in_map_iff in Hr as ([cd cl] & <- & _).
      destruct (IH cd cl) as [E|E]; rewrite E in Hx; [discriminate|].
      injection Hx as <-. right. unfold raise. by rewrite H2. }
  split.
  - apply (for_each_invariant running_or_ValueError); [|done].
    intros rule st1 _ H1 _. by apply Hbody.
  - intros rule Hin Hrhs.
    destruct (list_elem_of_split _ _ Hin) as (l1 & l2 & ->).
    rewrite for_each_app, for_each_cons.
    assert (H1 : running_or_ValueError (for_each l1 body st0)).
    { apply (for_each_invariant running_or_ValueError); [|done].
      intros r st1 _ Hr _. by apply Hbody. }
    assert (Hraise : forall st1, state st1 = Running ->
                       state (body rule st1) = Raised ValueError).
    { intros st1 Hs1. unfold body. rewrite Hrhs. cbn [length product_repeat].
      rewrite for_each_cons, Hs1. cbn [py_max for_each foldl].
      unfold raise. by rewrite Hs1. }
    destruct H1 as [H1|H1]; rewrite H1.
    + rewrite for_each_not_running; [by apply Hraise|].
      rewrite (Hraise _ H1). done.
    + rewrite for_each_not_running; [done|congruence].
Qed.

Lemma plain_running_or_ValueError (fuel depth : nat) (l : Symbol) (st : @run K) :
  running_or_ValueError st ->
  running_or_ValueError
    (enumerate_at_depth_fuel key_eqb g fuel depth l None None take_all st).
Proof.
  revert depth l st. induction fuel as [|fuel IH]; intros depth l st Hst; [done|].
  apply plain_step_running_or_ValueError; [|done].
  intros d' l'. apply IH. by left.
Qed.

Lemma plain_empty_rhs_raises (fuel depth : nat) (l : Symbol) (rule : Rule) :
  rule ∈ rules_of g l -> rhs rule = Some [] ->
  state (enumerate_at_depth_fuel key_eqb g (S fuel) depth l None None take_all
           (@init_run K None))
  = Raised ValueError.
Proof.
  intros Hin Hrhs.
  assert (IH : forall depth l,
             running_or_ValueError
               (enumerate_at_depth_fuel key_eqb g fuel depth l None None take_all
                  (@init_run K None))).
  { intros d' l'. apply plain_running_or_ValueError. by left. }
  destruct (plain_step_running_or_ValueError fuel IH depth l (init_run None))
    as [_ H]; [by left|].
  by apply (H rule).
Qed.

Lemma enumerate_never_break (depth : nat) (lhs : option Symbol) ud uk cf consume :
  (forall e d, consume e d = false) ->
  dict_given uk cf ud ->
  enumerate key_eqb g depth lhs ud uk cf consume
  = mkRun (yielded (enumerate key_eqb g depth lhs None None None take_all))
      (match ud with
       | Some d => Some (dict_of_yields key_eqb uk cf d
                           (yielded (enumerate key_eqb g depth lhs None None None
                                       take_all)))
       | None => None
       end)
      (match state (enumerate key_eqb g depth lhs None None None take_all) with
       | Raised x => Raised x
       | _ => Running
       end).
Proof.
  intros Hc Hd. unfold enumerate at 1.
  pose proof (scripted_script key_eqb _ _
                (enumerate_scripted key_eqb g depth (default (_start g) lhs))
                uk cf consume (init_run ud)) as H.
  cbn beta in H. rewrite H. unfold script_of, init_run at 3.
  rewrite (play_never_break key_eqb uk cf consume _ _ [] ud Hc Hd).
  unfold enumerate. cbn [app]. f_equal. by destruct (state _).
Qed.

End EmptyRhs.

(** X4. A rule whose right-hand side is an empty sequence makes the
    enumeration of its nonterminal fail: [enumerate_at_depth] raises
    [ValueError] at every depth, from [max] of an empty tuple of child depths,
    and [get_unique_expressions] with a positive depth raises it too. *)
Theorem enumerate_empty_rhs_raises {K} (key_eqb : K -> K -> bool) (g : Grammar)
    (l : Symbol) (rule : Rule) :
  rule ∈ rules_of g l ->
  rhs rule = Some [] ->
  (forall depth,
     state (enumerate_at_depth key_eqb g depth l None None None take_all)
     = Raised ValueError)
  /\ (forall depth uk cf,
        get_unique_expressions key_eqb g (S depth) (Some l) Infinity uk cf
        = Err ValueError).
Proof.
  intros Hin Hrhs. split.
  - intros depth. by apply (plain_empty_rhs_raises key_eqb g depth depth l rule).
  - intros depth uk cf. unfold get_unique_expressions.
    rewrite enumerate_never_break; [|done|by destruct uk, cf].
    cbn [state].
    assert (E : state (enumerate key_eqb g (S depth) (Some l) None None None take_all)
                = Raised ValueError).
    { unfold enumerate. cbn [default from_option id seq]. rewrite for_each_cons.
      cbn [init_run state]. rewrite for_each_not_running.
      - by apply (plain_empty_rhs_raises key_eqb g 0 0 l rule).
      - rewrite (plain_empty_rhs_raises key_eqb g 0 0 l rule Hin Hrhs). done. }
    by rewrite E.
Qed.

Lemma enumerate_empty_rhs_raises_witness :
  rule_NIL ∈ rules_of nil_grammar "B"
  /\ rhs rule_NIL = Some []
  /\ state (enumerate_at_depth Bool.eqb nil_grammar 1 "B" None None None take_all)
     = Raised ValueError
  /\ get_unique_expressions Bool.eqb nil_grammar 1 (Some "B") Infinity
       (Some truth_value) (Some shorter)
     = Err ValueError.
Proof.
  assert (H1 : rule_NIL ∈ rules_of nil_grammar "B").
  { vm_compute. right. left. }
  assert (H2 : rhs rule_NIL = Some []) by reflexivity.
  split; [exact H1|]. split; [exact H2|].
  pose proof (enumerate_empty_rhs_raises Bool.eqb nil_grammar "B" rule_NIL H1 H2)
    as [Ha Hb].
  split; [exact (Ha 1)|exact (Hb 0 (Some truth_value) (Some shorter))].
Defined.

(** ** What deduplication and the consumer can change *)

(** X5. The deduplication arguments and the consumer never change which
    expressions [enumerate_at_depth] goes through: what a call yields is the
    beginning of what it yields to a consumer that takes everything without
    deduplication; and when the consumer never breaks and a dictionary is
    there if needed, the same expressions are yielded and the call ends the
    same way. *)
Theorem enumerate_at_depth_yields_prefix {K} (key_eqb : K -> K -> bool) (g : Grammar)
    (depth : nat) (l : Symbol) ud uk cf consume :
  (exists k,
     yielded (enumerate_at_depth key_eqb g depth l ud uk cf consume)
     = take k (yielded (enumerate_at_depth key_eqb g depth l None None None take_all)))
  /\ ((forall e d, consume e d = false) ->
      dict_given uk cf ud ->
      yielded (enumerate_at_depth key_eqb g depth l ud uk cf consume)
      = yielded (enumerate_at_depth key_eqb g depth l None None None take_all)
      /\ state (enumerate_at_depth key_eqb g depth l ud uk cf consume)
         = state (enumerate_at_depth key_eqb g depth l None None None take_all)).
Proof.
  split; [apply enumerate_at_depth_fuel_take|].
  intros Hc Hd. unfold enumerate_at_depth.
  rewrite (enumerate_at_depth_fuel_never_break key_eqb g (S depth) depth l ud uk cf
             consume Hc Hd).
  cbn [yielded state]. split; [done|].
  pose proof (enumerate_at_depth_fuel_never_break key_eqb g (S depth) depth l None
                None None take_all (fun _ _ => eq_refl) I) as H.
  apply (f_equal state) in H. cbn [state] in H. by rewrite <- H.
Qed.

(** X6. With both deduplication arguments but no dictionary,
    [enumerate_at_depth] raises [TypeError] before it yields anything, as soon
    as there is an expression to yield. *)
Theorem enumerate_at_depth_without_dict {K} (key_eqb : K -> K -> bool) (g : Grammar)
    (depth : nat) (l : Symbol) uk cf consume
    (e : GrammaticalExpression) (rest : list GrammaticalExpression) :
  yielded (enumerate_at_depth key_eqb g depth l None None None take_all) = e :: rest ->
  enumerate_at_depth key_eqb g depth l None (Some uk) (Some cf) consume
  = mkRun [] None (Raised TypeError).
Proof.
  intros Hy. unfold enumerate_at_depth in *.
  pose proof (scripted_script key_eqb _ _
                (enumerate_at_depth_fuel_scripted key_eqb g (S depth) depth l)
                (Some uk) (Some cf) consume (init_run None)) as H.
  cbn beta in H. rewrite H. unfold script_of. rewrite Hy.
  unfold play. cbn [fst snd]. rewrite for_each_cons. cbn [init_run state emit unique_dict].
  rewrite for_each_not_running by apply raise_state.
  destruct (match state _ with Raised x => Some x | _ => None end);
    [by rewrite raise_not_running by apply raise_state|done].
Qed.

Lemma enumerate_at_depth_without_dict_witness :
  yielded (enumerate_at_depth Bool.eqb bool_grammar 0 "B" None None None take_all)
  = leaf rule_T1 :: [leaf rule_T2]
  /\ enumerate_at_depth Bool.eqb bool_grammar 0 "B" None (Some truth_value)
       (Some shorter) take_all
     = mkRun [] None (Raised TypeError).
Proof.
  assert (H : yielded (enumerate_at_depth Bool.eqb bool_grammar 0 "B" None None None
                         take_all)
              = leaf rule_T1 :: [leaf rule_T2]).
  { vm_compute. reflexivity. }
  split; [exact H|].
  exact (enumerate_at_depth_without_dict Bool.eqb bool_grammar 0 "B" truth_value shorter
           take_all (leaf rule_T1) [leaf rule_T2] H).
Defined.

(** X7. [get_unique_expressions] deduplicates only when it is given both
    [unique_key] and [compare_func]: with one of them missing the dictionary
    it returns is empty, whatever was enumerated. *)
Theorem get_unique_expressions_needs_both {K} (key_eqb : K -> K -> bool) (g : Grammar)
    (depth : nat) (lhs : option Symbol) (max_size : py_number) uk cf (d : udict) :
  uk = None \/ cf = None ->
  get_unique_expressions key_eqb g depth lhs max_size uk cf = Ok d ->
  d = [].
Proof.
  intros Hmiss. unfold get_unique_expressions. cbv zeta.
  rewrite (enumerate_unique_dict key_eqb g depth lhs [] uk cf). cbn [default from_option id].
  assert (E : forall ys, dict_of_yields key_eqb uk cf [] ys = []).
  { intros ys. unfold dict_of_yields. destruct Hmiss as [-> | ->]; [done|by destruct uk]. }
  rewrite E. destruct (state _); [|discriminate|]; by intros [= <-].
Qed.

Lemma get_unique_expressions_needs_both_witness :
  (Some truth_value = None \/ @None (GrammaticalExpression -> GrammaticalExpression -> bool)
                              = None)
  /\ get_unique_expressions Bool.eqb bool_grammar 2 None Infinity (Some truth_value) None
     = Ok []
  /\ @nil (bool * GrammaticalExpression) = [].
Proof.
  assert (H1 : Some truth_value = None
               \/ @None (GrammaticalExpression -> GrammaticalExpression -> bool) = None).
  { right. reflexivity. }
  assert (H2 : get_unique_expressions Bool.eqb bool_grammar 2 None Infinity
                 (Some truth_value) None = Ok []).
  { vm_compute. reflexivity. }
  split; [exact H1|]. split; [exact H2|].
  exact (get_unique_expressions_needs_both Bool.eqb bool_grammar 2 None Infinity
           (Some truth_value) None [] H1 H2).
Defined.

(** ** The shape of the dictionary *)

Section DictShape.

Context {K : Type}.
Variable key_eqb : K -> K -> bool.
Variable uk : GrammaticalExpression -> K.
Variable cf : GrammaticalExpression -> GrammaticalExpression -> bool.

Lemma dict_get_None (d : udict) (k : K) :
  dict_get key_eqb d k = None ->
  forall k', k' ∈ d.*1 -> key_eqb k' k = false.
Proof.
  induction d as [|[k0 v0] d IH]; cbn; intros H k' Hk'; [inversion Hk'|].
  destruct (key_eqb k0 k) eqn:E; [discriminate|].
  apply elem_of_cons in Hk' as [->|Hk']; [done|by apply IH].
Qed.

Lemma dict_get_Some (d : udict) (k : K) (v : GrammaticalExpression) :
  dict_get key_eqb d k = Some v ->
  exists k0, (k0, v) ∈ d /\ key_eqb k0 k = true.
Proof.
  induction d as [|[k0 v0] d IH]; cbn; [discriminate|].
  destruct (key_eqb k0 k) eqn:E.
  - intros [= <-]. exists k0. split; [left|done].
  - intros H. destruct (IH H) as (k1 & Hin & Hk). exists k1. split; [by right|done].
Qed.

Lemma dict_set_missing (d : udict) (k : K) (v : GrammaticalExpression) :
  dict_get key_eqb d k = None -> dict_set key_eqb d k v = d ++ [(k, v)].
Proof.
  induction d as [|[k0 v0] d IH]; cbn; [done|].
  destruct (key_eqb k0 k); [discriminate|]. intros H. by rewrite IH.
Qed.

Lemma dict_set_found (d : udict) (k : K) (v v0 : GrammaticalExpression) :
  dict_get key_eqb d k = Some v0 ->
  exists d1 k0 d2,
    d = d1 ++ (k0, v0) :: d2
    /\ key_eqb k0 k = true
    /\ dict_set key_eqb d k v = d1 ++ (k0, v) :: d2.
Proof.
  induction d as [|[k1 v1] d IH]; cbn; [discriminate|].
  destruct (key_eqb k1 k) eqn:E.
  - intros [= <-]. by exists [], k1, d.
  - intros H. destruct (IH H) as (d1 & k0 & d2 & -> & Hk & ->).
    by exists ((k1, v1) :: d1), k0, d2.
Qed.

Lemma add_unique_keys (d : udict) (e : GrammaticalExpression) :
  (add_unique key_eqb uk cf d e).*1 = d.*1
  \/ ((add_unique key_eqb uk cf d e).*1 = d.*1 ++ [uk e]
      /\ forall k, k ∈ d.*1 -> key_eqb k (uk e) = false).
Proof.
  unfold add_unique. destruct (dict_get key_eqb d (uk e)) as [i|] eqn:E.
  - left. destruct (cf e i); [|done].
    destruct (dict_set_found d (uk e) e i E) as (d1 & k0 & d2 & -> & _ & ->).
    by rewrite !fmap_app, !fmap_cons.
  - right. rewrite (dict_set_missing d (uk e) e E). rewrite fmap_app.
    split; [done|]. by apply dict_get_None.
Qed.

Lemma add_unique_entries (d : udict) (e : GrammaticalExpression) k v :
  key_eqb (uk e) (uk e) = true ->
  (k, v) ∈ add_unique key_eqb uk cf d e ->
  (k, v) ∈ d \/ (v = e /\ key_eqb k (uk e) = true).
Proof.
  intros Hrefl. unfold add_unique.
  destruct (dict_get key_eqb d (uk e)) as [i|] eqn:E.
  - destruct (cf e i); [|by left].
    destruct (dict_set_found d (uk e) e i E) as (d1 & k0 & d2 & -> & Hk & ->).
    intros H. apply elem_of_app in H as [H|H].
    + left. apply elem_of_app. by left.
    + apply elem_of_cons in H as [H|H].
      * injection H as -> ->. by right.
      * left. apply elem_of_app. right. by right.
  - rewrite (dict_set_missing d (uk e) e E). intros H.
    apply elem_of_app in H as [H|H]; [by left|].
    apply list_elem_of_singleton in H. injection H as -> ->. by right.
Qed.

Lemma later_keys_snoc (ks : list K) (k : K) :
  (forall i j a b, i < j -> ks !! i = Some a -> ks !! j = Some b ->
                   key_eqb a b = false) ->
  (forall a, a ∈ ks -> key_eqb a k = false) ->
  forall i j a b, i < j -> (ks ++ [k]) !! i = Some a -> (ks ++ [k]) !! j = Some b ->
                  key_eqb a b = false.
Proof.
  intros Hks Hk i j a b Hij Hi Hj.
  destruct (decide (j < length ks)) as [Hlt|Hge].
  - rewrite lookup_app_l in Hi, Hj by lia. by apply (Hks i j).
  - rewrite lookup_app_r in Hj by lia.
    destruct (j - length ks) as [|n] eqn:En; [|by destruct n].
    injection Hj as <-. rewrite lookup_app_l in Hi by lia.
    apply Hk. by eapply list_elem_of_lookup_2.
Qed.

Lemma fold_later_keys (ys : list GrammaticalExpression) (d0 : udict) :
  (forall i j a b, i < j -> d0.*1 !! i = Some a -> d0.*1 !! j = Some b ->
                   key_eqb a b = false) ->
  forall i j a b,
    i < j ->
    (foldl (add_unique key_eqb uk cf) d0 ys).*1 !! i = Some a ->
    (foldl (add_unique key_eqb uk cf) d0 ys).*1 !! j = Some b ->
    key_eqb a b = false.
Proof.
  revert d0. induction ys as [|e ys IH]; intros d0 H0; [done|]. cbn [foldl].
  apply IH. destruct (add_unique_keys d0 e) as [->|[-> He]]; [done|].
  by apply later_keys_snoc.
Qed.

Lemma fold_entries (ys : list GrammaticalExpression) (d0 : udict) k v :
  (forall a, key_eqb a a = true) ->
  (k, v) ∈ foldl (add_unique key_eqb uk cf) d0 ys ->
  (k, v) ∈ d0 \/ (v ∈ ys /\ key_eqb k (uk v) = true).
Proof.
  intros Hrefl. revert d0. induction ys as [|e ys IH]; intros d0 H; [by left|].
  cbn [foldl] in H. destruct (IH _ H) as [Hin|[Hin Hk]].
  - apply add_unique_entries in Hin as [Hin|[-> Hk]]; [by left| |by apply Hrefl].
    right. split; [left|done].
  - right. split; [by right|done].
Qed.

Hypothesis key_eqb_equivalence : key_equivalence key_eqb.

Lemma fold_covers (ys : list GrammaticalExpression) (d0 : udict)
    (t : GrammaticalExpression) :
  t ∈ ys -> is_Some (dict_get key_eqb (foldl (add_unique key_eqb uk cf) d0 ys) (uk t)).
Proof.
  destruct key_eqb_equivalence as (Hrefl & _ & _).
  induction ys as [|x ys IH] using rev_ind; intros Ht; [inversion Ht|].
  rewrite foldl_app. cbn [foldl].
  destruct (key_eqb (uk x) (uk t)) eqn:E.
  - rewrite (add_unique_same key_eqb key_eqb_equivalence uk cf _ x (uk t) E).
    destruct (dict_get _ _ _) as [i|]; [destruct (cf x i)|]; eauto.
  - rewrite (add_unique_other key_eqb key_eqb_equivalence uk cf _ x (uk t) E).
    apply IH. apply elem_of_app in Ht as [Ht|Ht]; [done|].
    apply list_elem_of_singleton in Ht as ->. rewrite Hrefl in E. discriminate.
Qed.

End DictShape.

(** X8. The dictionary that [get_unique_expressions] returns is well
    formed: no key matches a key entered before it, and every entry holds an
    expression of the enumeration stored under the key of that
    expression. *)
Theorem get_unique_expressions_dict {K} (key_eqb : K -> K -> bool) (g : Grammar)
    (depth : nat) (lhs : option Symbol) (max_size : py_number)
    (uk : GrammaticalExpression -> K)
    (cf : GrammaticalExpression -> GrammaticalExpression -> bool) (d : udict) :
  key_equivalence key_eqb ->
  get_unique_expressions key_eqb g depth lhs max_size (Some uk) (Some cf) = Ok d ->
  (forall i j k1 v1 k2 v2,
     i < j -> d !! i = Some (k1, v1) -> d !! j = Some (k2, v2) ->
     key_eqb k1 k2 = false)
  /\ (forall k v,
        (k, v) ∈ d ->
        key_eqb k (uk v) = true
        /\ exists num, num < depth /\ yield_of g num (default (_start g) lhs) v).
Proof.
  intros (Hrefl & _ & _). unfold get_unique_expressions. cbv zeta.
  rewrite (enumerate_unique_dict key_eqb g depth lhs [] (Some uk) (Some cf)).
  cbn [default from_option id dict_of_yields].
  match goal with
  | |- context [foldl _ [] (yielded ?r)] => set (run := r)
  end.
  intros H.
  assert (E : d = foldl (add_unique key_eqb uk cf) [] (yielded run)).
  { revert H. destruct (state _); congruence. }
  clear H. subst d. split.
  - intros i j k1 v1 k2 v2 Hij Hi Hj.
    apply (fold_later_keys key_eqb uk cf (yielded run) [] ltac:(done) i j); [done| |].
    + etrans; [apply list_lookup_fmap|]. exact (f_equal (fmap fst) Hi).
    + etrans; [apply list_lookup_fmap|]. exact (f_equal (fmap fst) Hj).
  - intros k v Hin.
    apply fold_entries in Hin as [Hin|[Hin Hk]]; [inversion Hin| |done].
    split; [done|].
    pose proof (enumerate_yield_of key_eqb g depth lhs (Some []) (Some uk) (Some cf)
                  (fun _ d => len_equals (default [] d) max_size)) as HQ.
    rewrite Forall_forall in HQ. by apply HQ.
Qed.

Lemma get_unique_expressions_dict_witness :
  key_equivalence Bool.eqb
  /\ get_unique_expressions Bool.eqb bool_grammar 2 None Infinity (Some truth_value)
       (Some shorter)
     = Ok [(true, leaf rule_T1); (false, leaf rule_T2)]
  /\ forall i j k1 v1 k2 v2,
       i < j ->
       [(true, leaf rule_T1); (false, leaf rule_T2)] !! i = Some (k1, v1) ->
       [(true, leaf rule_T1); (false, leaf rule_T2)] !! j = Some (k2, v2) ->
       Bool.eqb k1 k2 = false.
Proof.
  assert (H : get_unique_expressions Bool.eqb bool_grammar 2 None Infinity
                (Some truth_value) (Some shorter)
              = Ok [(true, leaf rule_T1); (false, leaf rule_T2)]).
  { vm_compute. reflexivity. }
  split; [exact bool_key_equivalence|]. split; [exact H|].
  exact (proj1 (get_unique_expressions_dict Bool.eqb bool_grammar 2 None Infinity
                  truth_value shorter _ bool_key_equivalence H)).
Defined.

(** X9. Without a size cap, in a grammar without empty right-hand sides,
    the dictionary of [get_unique_expressions] has an entry for the key of
    every derivation tree of depth below [depth], and the entry holds such a
    tree with a matching key. *)
Theorem get_unique_expressions_covers {K} (key_eqb : K -> K -> bool) (g : Grammar)
    (depth : nat) (lhs : option Symbol)
    (uk : GrammaticalExpression -> K)
    (cf : GrammaticalExpression -> GrammaticalExpression -> bool) (d : udict)
    (e : GrammaticalExpression) :
  key_equivalence key_eqb ->
  no_empty_rhs g ->
  get_unique_expressions key_eqb g depth lhs Infinity (Some uk) (Some cf) = Ok d ->
  derives g (default (_start g) lhs) e ->
  ge_depth e < depth ->
  exists v,
    dict_get key_eqb d (uk e) = Some v
    /\ key_eqb (uk e) (uk v) = true
    /\ derives g (default (_start g) lhs) v
    /\ ge_depth v < depth.
Proof.
  intros Heq Hg Hd He Hdepth. pose proof Heq as (Hrefl & Hsym & Htrans).
  unfold get_unique_expressions in Hd. cbv zeta in Hd.
  rewrite (enumerate_never_break key_eqb g depth lhs (Some []) (Some uk) (Some cf))
    in Hd; [|done|done].
  cbn [state unique_dict default from_option id dict_of_yields] in Hd.
  assert (EY : yielded (enumerate key_eqb g depth lhs None None None take_all)
               = flat_map (fun num => plain_yields key_eqb g (S num) num
                                        (default (_start g) lhs)) (seq 0 depth)).
  { unfold enumerate, init_run. by rewrite (enumerate_plain_run key_eqb g Hg). }
  rewrite EY in Hd.
  set (ys := flat_map _ _) in *.
  assert (E : d = foldl (add_unique key_eqb uk cf) [] ys).
  { revert Hd. destruct (state _); congruence. }
  clear Hd. subst d.
  assert (Hin : e ∈ ys) by by apply (enumerate_member key_eqb g Hg).
  destruct (fold_covers key_eqb uk cf Heq ys [] e Hin) as [v Hv].
  exists v. split; [done|].
  apply dict_get_Some in Hv as (k0 & Hk0 & Hke).
  apply fold_entries in Hk0 as [Hk0|[Hv Hkv]]; [inversion Hk0| |done].
  split; [by apply (Htrans (uk e) k0 (uk v)); [apply Hsym|]|].
  by apply (enumerate_member key_eqb g Hg).
Qed.

Lemma get_unique_expressions_covers_witness :
  key_equivalence Bool.eqb
  /\ no_empty_rhs bool_grammar
  /\ exists v,
       dict_get Bool.eqb [(true, leaf rule_T1); (false, leaf rule_T2)]
         (truth_value (and_of (leaf rule_T1) (leaf rule_T2))) = Some v
       /\ Bool.eqb (truth_value (and_of (leaf rule_T1) (leaf rule_T2))) (truth_value v)
          = true
       /\ derives bool_grammar "B" v
       /\ ge_depth v < 2.
Proof.
  split; [exact bool_key_equivalence|]. split; [exact bool_grammar_no_empty_rhs|].
  refine (get_unique_expressions_covers Bool.eqb bool_grammar 2 None truth_value shorter
            [(true, leaf rule_T1); (false, leaf rule_T2)]
            (and_of (leaf rule_T1) (leaf rule_T2))
            bool_key_equivalence bool_grammar_no_empty_rhs _ _ _).
  - vm_compute. reflexivity.
  - apply (derives_node bool_grammar "B" rule_AND ["B"; "B"]
             [leaf rule_T1; leaf rule_T2]).
    + vm_compute. right. right. left.
    + reflexivity.
    + constructor; [|constructor; [|constructor]].
      * apply (derives_terminal bool_grammar "B" rule_T1); [vm_compute; left|reflexivity].
      * apply (derives_terminal bool_grammar "B" rule_T2);
          [vm_compute; right; left|reflexivity].
  - cbn. lia.
Defined.

(** ** Building a grammar *)

Lemma find_name_None (rs : list Rule) (n : string) :
  List.find (fun r => String.eqb (name r) n) rs = None <-> n ∉ map name rs.
Proof.
  induction rs as [|r rs IH]; cbn.
  - split; [intros _ H; inversion H|done].
  - destruct (String.eqb_spec (name r) n) as [E|E].
    + split; [discriminate|]. intros H. destruct H. rewrite E. left.
    + rewrite IH. split.
      * intros H Hin. apply elem_of_cons in Hin as [Hin|Hin]; [by destruct E|done].
      * intros H Hin. apply H. by right.
Qed.

Lemma find_snoc {A} (f : A -> bool) (xs : list A) (x : A) :
  List.find f (xs ++ [x])
  = match List.find f xs with
    | Some y => Some y
    | None => if f x then Some x else None
    end.
Proof. induction xs as [|y xs IH]; cbn; [done|]. by destruct (f y). Qed.

Lemma add_rule_lists_rules (start : Symbol) (g : Grammar) (rs : list Rule)
    (rule : Rule) :
  lists_rules start g rs ->
  name rule ∉ map name rs ->
  snd (add_rule g rule) = Ok tt
  /\ lists_rules start (fst (add_rule g rule)) (rs ++ [rule]).
Proof.
  intros (Hs & Hr & Hn & Hnd) Hfree. unfold add_rule. cbn [_rules_by_name].
  rewrite Hn. apply find_name_None in Hfree. rewrite Hfree. cbn [fst snd].
  split; [done|]. split; [done|]. split; [|split].
  - intros l. unfold rules_of at 1. cbn [_rules].
    rewrite List.filter_app. cbn [List.filter].
    destruct (String.eqb_spec (lhs rule) l) as [E|E].
    + subst l. rewrite lookup_insert_eq. cbn. by rewrite Hr.
    + rewrite lookup_insert_ne by done. fold (rules_of g l). rewrite Hr.
      by rewrite app_nil_r.
  - intros n. cbn [_rules_by_name]. rewrite find_snoc.
    destruct (String.eqb_spec (name rule) n) as [E|E].
    + subst n. rewrite lookup_insert_eq. by rewrite Hfree.
    + rewrite lookup_insert_ne by done. rewrite Hn.
      match goal with |- ?x = _ => by destruct x end.
  - rewrite map_app. cbn [map]. apply NoDup_app. split; [done|].
    split; [|apply NoDup_singleton].
    intros x Hx Hx'. apply list_elem_of_singleton in Hx' as ->.
    by apply find_name_None in Hfree.
Qed.

Lemma add_rule_name_taken (start : Symbol) (g : Grammar) (rs : list Rule)
    (rule : Rule) :
  lists_rules start g rs ->
  name rule ∈ map name rs ->
  snd (add_rule g rule) = Err ValueError.
Proof.
  intros (Hs & Hr & Hn & Hnd) Htaken. unfold add_rule. cbn [_rules_by_name].
  rewrite Hn. destruct (List.find _ rs) eqn:E; [done|].
  apply find_name_None in E. done.
Qed.

Lemma add_rules_lists_rules (start : Symbol) (rs done : list Rule) (g : Grammar) :
  lists_rules start g done ->
  (NoDup (map name (done ++ rs)) ->
   snd (add_rules g rs) = Ok tt
   /\ lists_rules start (fst (add_rules g rs)) (done ++ rs))
  /\ (~ NoDup (map name (done ++ rs)) -> snd (add_rules g rs) = Err ValueError).
Proof.
  revert done g. induction rs as [|r rs IH]; intros done g Hg.
  { rewrite app_nil_r. cbn. split; [done|]. intros H. by destruct Hg as (_ & _ & _ & ?). }
  cbn [add_rules].
  destruct (decide (name r ∈ map name done)) as [Htaken|Hfree].
  - pose proof (add_rule_name_taken start g done r Hg Htaken) as Herr.
    destruct (add_rule g r) as [g1 [[]|x]]; cbn in Herr; [discriminate|].
    injection Herr as ->. split; [|done].
    intros Hnd. exfalso. rewrite map_app in Hnd. cbn [map] in Hnd.
    apply NoDup_app in Hnd as (_ & Hdisj & _).
    apply (Hdisj (name r) Htaken). left.
  - destruct (add_rule_lists_rules start g done r Hg Hfree) as [Hok Hg1].
    destruct (add_rule g r) as [g1 [[]|x]]; cbn in Hok, Hg1; [|discriminate].
    replace (done ++ r :: rs) with ((done ++ [r]) ++ rs) by by rewrite <- app_assoc.
    by apply IH.
Qed.

Lemma Grammar_init_lists_rules (start : Symbol) :
  lists_rules start (Grammar_init start) [].
Proof. repeat split; try done. constructor. Qed.

(** X10. Building a grammar by adding rules one after the other to an
    empty grammar succeeds when the names of the rules are pairwise
    different, and raises [ValueError] when a name is repeated. *)
Theorem add_rules_outcome (start : Symbol) (rs : list Rule) :
  (NoDup (map name rs) -> snd (add_rules (Grammar_init start) rs) = Ok tt)
  /\ (~ NoDup (map name rs) ->
      snd (add_rules (Grammar_init start) rs) = Err ValueError).
Proof.
  destruct (add_rules_lists_rules start rs [] (Grammar_init start)
              (Grammar_init_lists_rules start)) as [Hok Herr].
  split; [|exact Herr]. intros H. by destruct (Hok H).
Qed.

(** X11. A grammar built without error from an empty one keeps its start
    symbol, lists under each nonterminal the rules with that left-hand side in
    the order they were added, and finds each rule by its name; the names are
    pairwise different. *)
Theorem add_rules_contents (start : Symbol) (rs : list Rule) (g : Grammar) :
  add_rules (Grammar_init start) rs = (g, Ok tt) ->
  _start g = start
  /\ (forall l, rules_of g l = List.filter (fun r => String.eqb (lhs r) l) rs)
  /\ (forall n, _rules_by_name g !! n
                = List.find (fun r => String.eqb (name r) n) rs)
  /\ (forall r, r ∈ rs -> _rules_by_name g !! name r = Some r)
  /\ NoDup (map name rs).
Proof.
  intros H.
  destruct (add_rules_lists_rules start rs [] (Grammar_init start)
              (Grammar_init_lists_rules start)) as [Hok Herr].
  destruct (decide (NoDup (map name rs))) as [Hnd|Hnd].
  - destruct (Hok Hnd) as [_ (Hs & Hr & Hn & _)]. rewrite H in Hs, Hr, Hn. cbn in *.
    repeat split; try done.
    intros r Hin. rewrite Hn. clear -Hin Hnd.
    induction rs as [|r0 rs IH]; [inversion Hin|]. cbn in *.
    apply NoDup_cons in Hnd as [Hr0 Hnd].
    destruct (String.eqb_spec (name r0) (name r)) as [E|E].
    + apply elem_of_cons in Hin as [->|Hin]; [done|].
      destruct Hr0. rewrite E. apply list_elem_of_In, in_map. by apply list_elem_of_In.
    + apply elem_of_cons in Hin as [->|Hin]; [done|]. by apply IH.
  - specialize (Herr Hnd). rewrite H in Herr. discriminate.
Qed.

Lemma add_rules_contents_witness :
  add_rules (Grammar_init "B") [rule_T1; rule_T2; rule_AND] = (bool_grammar, Ok tt)
  /\ rules_of bool_grammar "B" = [rule_T1; rule_T2; rule_AND]
  /\ _rules_by_name bool_grammar !! "AND" = Some rule_AND.
Proof.
  assert (H : add_rules (Grammar_init "B") [rule_T1; rule_T2; rule_AND]
              = (bool_grammar, Ok tt)).
  { vm_compute. reflexivity. }
  split; [exact H|].
  destruct (add_rules_contents "B" [rule_T1; rule_T2; rule_AND] bool_grammar H)
    as (_ & Hr & Hn & _).
  split; [exact (Hr "B")|exact (Hn "AND")].
Defined.

(** ** More of [parse] *)

Section ParseMore.

Variable g : Grammar.
Hypothesis g_parseable : parseable g.

Lemma finditer_children_open (cs : list GrammaticalExpression) :
  cs <> [] ->
  Forall (from_rules g) cs ->
  finditer "(" ")" "," (join ", " (map ge_str cs))
  = children_tokens_open (map tree_tokens cs).
Proof.
  intros Hne Hfr. induction cs as [|c cs IH]; [done|]. clear Hne.
  apply Forall_cons in Hfr as [Hc Hfr].
  destruct cs as [|c' cs].
  - cbn [map join children_tokens_open].
    rewrite <- (append_nil_r (ge_str c)).
    rewrite (finditer_ge_str g g_parseable c Hc "" I).
    change (finditer "(" ")" "," "") with (@nil string). by rewrite app_nil_r.
  - change (join ", " (map ge_str (c :: c' :: cs)))
      with (ge_str c +:+ ", " +:+ join ", " (map ge_str (c' :: cs))).
    change (children_tokens_open (map tree_tokens (c :: c' :: cs)))
      with (tree_tokens c ++ [", "]
            ++ children_tokens_open (map tree_tokens (c' :: cs))).
    change (", " +:+ join ", " (map ge_str (c' :: cs)))
      with (String "," (String " " (join ", " (map ge_str (c' :: cs))))).
    rewrite (finditer_ge_str g g_parseable c Hc) by done.
    rewrite finditer_separator.
    + rewrite IH; [done|done|done].
    + pose proof (join_first g g_parseable c' cs "") as H.
      rewrite append_nil_r in H. apply H. by apply Forall_cons in Hfr as [? _].
Qed.

Lemma parse_tokens_children_open (cs : list GrammaticalExpression) :
  cs <> [] ->
  Forall (from_rules g) cs ->
  forall done_cs n f stack,
    exists c front,
      cs = front ++ [c]
      /\ parse_tokens "(" ")" "," g (GExpr n f (Some (PyList, done_cs)) None :: stack)
           (children_tokens_open (map tree_tokens cs))
         = Ok (as_lists c
               :: GExpr n f (Some (PyList, done_cs ++ map as_lists front)) None
               :: stack).
Proof.
  intros Hne Hfr. induction cs as [|c cs IH]; [done|]. clear Hne.
  apply Forall_cons in Hfr as [Hc Hfr]. intros done_cs n f stack.
  destruct cs as [|c' cs].
  - exists c, []. split; [done|]. cbn [map children_tokens_open].
    rewrite <- (app_nil_r (tree_tokens c)).
    rewrite (parse_tokens_tree g g_parseable c Hc). cbn. by rewrite app_nil_r.
  - destruct (IH ltac:(done) Hfr (done_cs ++ [as_lists c]) n f stack)
      as (c0 & front & Hcs & Hp).
    exists c0, (c :: front). split; [by rewrite Hcs|].
    change (children_tokens_open (map tree_tokens (c :: c' :: cs)))
      with (tree_tokens c ++ [", "]
            ++ children_tokens_open (map tree_tokens (c' :: cs))).
    rewrite (parse_tokens_tree g g_parseable c Hc). cbn [app parse_tokens].
    rewrite (parse_token_attach g ", " _ _ _ _ _ _ (or_introl eq_refl)).
    rewrite Hp. cbn [map]. by rewrite <- app_assoc.
Qed.

Lemma generates_as_lists (e : GrammaticalExpression) (l : Symbol) :
  generates g l e -> from_rules g e /\ as_lists e = e.
Proof. apply (generates_from_rules g g_parseable). Qed.

End ParseMore.

(** X12. In a grammar whose names can be read back, what [generate]
    returns is what [parse] makes of its string: the round trip through
    [str] and [parse] gives the expression back. *)
Theorem generate_parse_round_trip (g : Grammar) (l : option Symbol)
    (e : GrammaticalExpression) :
  parseable g ->
  generate g l e ->
  parse g (ge_str e) = Ok e.
Proof.
  intros Hg He. destruct (generates_as_lists g Hg e _ He) as [Hfr Hlists].
  rewrite (parse_ge_str g Hg e Hfr). by rewrite Hlists.
Qed.

Lemma generate_parse_round_trip_witness :
  parseable bool_grammar
  /\ generate bool_grammar None
       (GExpr "AND" 3 (Some (PyList, [leaf rule_T1; leaf rule_T2])) None)
  /\ parse bool_grammar "AND(T1, T2)"
     = Ok (GExpr "AND" 3 (Some (PyList, [leaf rule_T1; leaf rule_T2])) None).
Proof.
  assert (H : generate bool_grammar None
                (GExpr "AND" 3 (Some (PyList, [leaf rule_T1; leaf rule_T2])) None)).
  { apply (generates_children bool_grammar "B" rule_AND ["B"; "B"]
             [leaf rule_T1; leaf rule_T2]).
    - vm_compute. right. right. left.
    - reflexivity.
    - constructor; [|constructor; [|constructor]].
      + apply (generates_terminal bool_grammar "B" rule_T1);
          [vm_compute; left|reflexivity].
      + apply (generates_terminal bool_grammar "B" rule_T2);
          [vm_compute; right; left|reflexivity]. }
  split; [exact bool_grammar_parseable|]. split; [exact H|].
  exact (generate_parse_round_trip bool_grammar None _ bool_grammar_parseable H).
Defined.

(** X14. A closing bracket or a delimiter after a complete expression makes
    [parse] raise [IndexError], from [stack[-1]] on the emptied stack, not
    the [ValueError] of its own check. *)
Theorem parse_trailing_separator (g : Grammar) (e : GrammaticalExpression) :
  parseable g ->
  from_rules g e ->
  parse g (ge_str e +:+ ")") = Err IndexError
  /\ parse g (ge_str e +:+ ",") = Err IndexError.
Proof.
  intros Hg He. unfold parse, parse_with. split.
  - rewrite (finditer_ge_str g Hg e He ")" ltac:(done)).
    rewrite (parse_tokens_tree g Hg e He). reflexivity.
  - rewrite (finditer_ge_str g Hg e He "," ltac:(done)).
    rewrite (parse_tokens_tree g Hg e He). reflexivity.
Qed.

Lemma parse_trailing_separator_witness :
  parseable bool_grammar
  /\ from_rules bool_grammar (leaf rule_T1)
  /\ parse bool_grammar "T1)" = Err IndexError
  /\ parse bool_grammar "T1," = Err IndexError.
Proof.
  assert (H : from_rules bool_grammar (leaf rule_T1)).
  { apply (from_rules_leaf bool_grammar "B" rule_T1); [vm_compute; left|reflexivity]. }
  split; [exact bool_grammar_parseable|]. split; [exact H|].
  exact (parse_trailing_separator bool_grammar (leaf rule_T1) bool_grammar_parseable H).
Defined.



(** X16. The string of an expression with children, without its last
    character (the closing bracket of the root), makes [parse] raise
    [ValueError]: the loop ends with two entries on the stack. *)
Theorem parse_missing_last_closer (g : Grammar) (e : GrammaticalExpression)
    (k : seq_kind) (cs : list GrammaticalExpression) :
  parseable g ->
  from_rules g e ->
  children e = Some (k, cs) ->
  parse g (drop_last (ge_str e)) = Err ValueError.
Proof.
  intros Hg He Hc.
  pose proof (from_rules_name_ok g Hg e He) as Hn.
  destruct (from_rules_children g e k cs He Hc) as [Hne Hcs].
  destruct e as [n f c fm]. cbn in Hc, Hn. subst c.
  inversion He as [|l rule rule_rhs k' cs' Hin Hrhs Hlen _ _]; subst.
  destruct (Hg l rule Hin) as (Hidx & _ & _).
  cbn [ge_str].
  assert (E : (name rule +:+ String "(" (join ", " (map ge_str cs))) +:+ ")"
              = name rule +:+ "(" +:+ join ", " (map ge_str cs) +:+ ")").
  { by rewrite !append_assoc. }
  rewrite <- E, drop_last_snoc. unfold parse, parse_with.
  rewrite (finditer_opening (name rule) _ Hn).
  rewrite (finditer_children_open g Hg cs Hne Hcs).
  cbn [parse_tokens]. rewrite (parse_token_opening g [] (name rule) rule Hn Hidx).
  destruct (parse_tokens_children_open g Hg cs Hne Hcs [] (name rule) (func rule) [])
    as (c0 & front & _ & ->).
  reflexivity.
Qed.

Lemma parse_missing_last_closer_witness :
  parseable bool_grammar
  /\ from_rules bool_grammar (and_of (leaf rule_T1) (leaf rule_T2))
  /\ parse bool_grammar "AND(T1, T2" = Err ValueError.
Proof.
  assert (H : from_rules bool_grammar (and_of (leaf rule_T1) (leaf rule_T2))).
  { apply (from_rules_node bool_grammar "B" rule_AND ["B"; "B"] PyTuple
             [leaf rule_T1; leaf rule_T2]);
      [vm_compute; right; right; left|reflexivity|reflexivity|done|].
    constructor; [|constructor; [|constructor]].
    - apply (from_rules_leaf bool_grammar "B" rule_T1); [vm_compute; left|reflexivity].
    - apply (from_rules_leaf bool_grammar "B" rule_T2);
        [vm_compute; right; left|reflexivity]. }
  split; [exact bool_grammar_parseable|]. split; [exact H|].
  exact (parse_missing_last_closer bool_grammar (and_of (leaf rule_T1) (leaf rule_T2))
           PyTuple [leaf rule_T1; leaf rule_T2] bool_grammar_parseable H eq_refl).
Defined.

(** ** Expressions and their copies with lists of children *)





Lemma as_lists_hash (h : string -> option string -> nat -> list Z -> Z)
    (e : GrammaticalExpression) :
  ge_hash h (as_lists e) = ge_hash h e.
Proof.
  induction e as [n f fm|n f k cs fm IH] using GrammaticalExpression_tree_ind;
    cbn [as_lists ge_hash]; [done|].
  rewrite map_map. by rewrite (map_ext_Forall _ _ IH).
Qed.




(** ** Equality, hash and length of expressions *)

Lemma option_eqb_string_eq (a b : option string) :
  option_eqb String.eqb a b = true -> a = b.
Proof.
  destruct a, b; cbn; try discriminate; [|done].
  intros H. apply String.eqb_eq in H. by subst.
Qed.

Lemma seq_kind_eqb_eq (a b : seq_kind) : seq_kind_eqb a b = true -> a = b.
Proof. by destruct a, b. Qed.

Lemma ge_eq_eq (a b : GrammaticalExpression) : ge_eq a b = true -> a = b.
Proof.
  revert b.
  induction a as [n f fm|n f k cs fm IH] using GrammaticalExpression_tree_ind;
    intros [n2 f2 c2 fm2] H; cbn in H.
  - destruct c2 as [[k2 l2]|]; rewrite ?andb_false_r in H; [discriminate|].
    rewrite andb_true_r in H.
    apply andb_true_iff in H as [H Hf]. apply andb_true_iff in H as [Hn Hfm].
    apply String.eqb_eq in Hn. apply Nat.eqb_eq in Hf.
    apply option_eqb_string_eq in Hfm. by subst.
  - destruct c2 as [[k2 l2]|]; rewrite ?andb_false_r in H; [|discriminate].
    apply andb_true_iff in H as [H Hc]. apply andb_true_iff in H as [H Hf].
    apply andb_true_iff in H as [Hn Hfm]. apply andb_true_iff in Hc as [Hk Hl].
    apply String.eqb_eq in Hn. apply Nat.eqb_eq in Hf.
    apply option_eqb_string_eq in Hfm. apply seq_kind_eqb_eq in Hk. subst.
    do 2 f_equal. f_equal. clear -IH Hl. revert l2 Hl.
    induction IH as [|c cs Hc _ IHcs]; intros [|c2 l2] Hl; try discriminate; [done|].
    apply andb_true_iff in Hl as [H1 H2]. f_equal; [by apply Hc|by apply IHcs].
Qed.

(** X17. [__eq__] holds between two expressions exactly when they have the
    same rule name, form and function and the same children in the same kind
    of container, all the way down; so it is reflexive, symmetric and
    transitive. *)
Theorem ge_eq_structural (a b : GrammaticalExpression) :
  (ge_eq a b = true <-> a = b)
  /\ ge_eq a b = ge_eq b a
  /\ (forall c, ge_eq a b = true -> ge_eq b c = true -> ge_eq a c = true).
Proof.
  split; [|split].
  - split; [apply ge_eq_eq|]. intros ->. apply ge_eq_refl.
  - destruct (ge_eq a b) eqn:E1, (ge_eq b a) eqn:E2; try done.
    + apply ge_eq_eq in E1 as ->. by rewrite ge_eq_refl in E2.
    + apply ge_eq_eq in E2 as ->. by rewrite ge_eq_refl in E1.
  - intros c H1 H2. apply ge_eq_eq in H1 as ->. done.
Qed.

(** X18. [__hash__] agrees with [__eq__]: equal expressions have equal
    hashes.  It does not see the container of the children: an expression
    and its copy with lists for tuples hash alike, and so do a leaf and a
    node with the same fields and an empty sequence of children, although
    [__eq__] tells them apart. *)
Theorem ge_hash_contract (h : string -> option string -> nat -> list Z -> Z) :
  (forall a b, ge_eq a b = true -> ge_hash h a = ge_hash h b)
  /\ (forall e, ge_hash h (as_lists e) = ge_hash h e)
  /\ (forall n f k fm,
        ge_hash h (GExpr n f (Some (k, [])) fm) = ge_hash h (GExpr n f None fm)
        /\ ge_eq (GExpr n f (Some (k, [])) fm) (GExpr n f None fm) = false).
Proof.
  split; [|split].
  - intros a b H. by apply ge_eq_eq in H as ->.
  - apply as_lists_hash.
  - intros n f k fm. split; [done|]. cbn. by rewrite andb_false_r.
Qed.

Lemma ge_len_child (c : GrammaticalExpression) (cs : list GrammaticalExpression) :
  c ∈ cs -> ge_len c <= list_sum (map ge_len cs).
Proof.
  induction 1 as [c cs|c c' cs _ IH]; cbn [map].
  - change (list_sum (ge_len c :: map ge_len cs))
      with (ge_len c + list_sum (map ge_len cs)). lia.
  - change (list_sum (ge_len c' :: map ge_len cs))
      with (ge_len c' + list_sum (map ge_len cs)). lia.
Qed.

Lemma ge_len_pos (e : GrammaticalExpression) : 1 <= ge_len e.
Proof. destruct e as [n f [[k cs]|] fm]; cbn; lia. Qed.

Lemma from_rules_depth_len (g : Grammar) (e : GrammaticalExpression) :
  from_rules g e -> ge_depth e < ge_len e.
Proof.
  induction e as [n f fm|n f k cs fm IH] using GrammaticalExpression_tree_ind;
    intros He; cbn; [lia|].
  destruct (from_rules_children g _ k cs He eq_refl) as [Hne Hcs].
  assert (Hm : foldr Nat.max 0 (map ge_depth cs) ∈ map ge_depth cs).
  { apply foldr_max_elem. by destruct cs. }
  apply list_elem_of_In, in_map_iff in Hm as (c & Hc & Hin).
  apply list_elem_of_In in Hin.
  rewrite Forall_forall in IH, Hcs.
  pose proof (IH c Hin (Hcs c Hin)). pose proof (ge_len_child c cs Hin). lia.
Qed.

(** X19. [__len__] counts at least one for every expression, and a proper
    subtree is strictly shorter than the expression it occurs in; an
    expression yielded by [enumerate_at_depth(depth, lhs)] has a length above
    [depth]. *)
Theorem ge_len_bounds :
  (forall e, 1 <= ge_len e)
  /\ (forall s t, proper_subtree s t -> ge_len s < ge_len t)
  /\ (forall K (key_eqb : K -> K -> bool) g depth l ud uk cf consume e,
        e ∈ yielded (enumerate_at_depth key_eqb g depth l ud uk cf consume) ->
        depth < ge_len e).
Proof.
  split; [apply ge_len_pos|]. split.
  - induction 1 as [s n f k cs fm Hin|s c n f k cs fm Hin _ IH]; cbn.
    + apply ge_len_child in Hin. lia.
    + apply ge_len_child in Hin. lia.
  - intros K key_eqb g depth l ud uk cf consume e Hin.
    pose proof (enumerate_at_depth_yield_of key_eqb g depth l ud uk cf consume) as HQ.
    rewrite Forall_forall in HQ. destruct (HQ e Hin) as (<- & Hfr & _).
    by eapply from_rules_depth_len.
Qed.

(** ** Universes *)

Lemma foldl_insert_lookup {V} (key : Referent -> string) (val : Referent -> V)
    (refs : list Referent) (m0 : gmap string V) (s : string) :
  foldl (fun m r => <[key r := val r]> m) m0 refs !! s
  = match List.find (fun r => String.eqb (key r) s) (rev refs) with
    | Some r => Some (val r)
    | None => m0 !! s
    end.
Proof.
  revert m0. induction refs as [|r refs IH]; intros m0; [done|].
  cbn [foldl rev]. rewrite IH, find_snoc.
  destruct (List.find _ (rev refs)); [done|].
  destruct (String.eqb_spec (key r) s) as [E|E].
  - subst s. by rewrite lookup_insert_eq.
  - by rewrite lookup_insert_ne.
Qed.

Lemma find_name_elem (refs : list Referent) (r : Referent) :
  r ∈ refs ->
  exists r', List.find (fun x => String.eqb (ref_name x) (ref_name r)) (rev refs) = Some r'
             /\ r' ∈ refs /\ ref_name r' = ref_name r.
Proof.
  intros Hin.
  destruct (List.find (fun x => String.eqb (ref_name x) (ref_name r)) (rev refs))
    as [r'|] eqn:E.
  - apply find_some in E as [Hr' Hn]. exists r'. split; [done|].
    split; [by apply list_elem_of_In, in_rev|by apply String.eqb_eq].
  - exfalso.
    assert (Hr : In r (rev refs)).
    { apply in_rev. rewrite rev_involutive. by apply list_elem_of_In. }
    pose proof (find_none _ _ E r Hr) as H. cbn beta in H.
    rewrite String.eqb_refl in H. discriminate.
Qed.

Lemma NoDup_names_eq (refs : list Referent) (a b : Referent) :
  NoDup (map ref_name refs) -> a ∈ refs -> b ∈ refs -> ref_name a = ref_name b -> a = b.
Proof.
  induction refs as [|r refs IH]; intros Hnd Ha Hb E; [inversion Ha|].
  cbn in Hnd. apply NoDup_cons in Hnd as [Hr Hnd].
  apply elem_of_cons in Ha as [->|Ha]; apply elem_of_cons in Hb as [->|Hb];
    [done| | |by apply IH].
  - destruct Hr. rewrite E. apply list_elem_of_In, in_map. by apply list_elem_of_In.
  - destruct Hr. rewrite <- E. apply list_elem_of_In, in_map. by apply list_elem_of_In.
Qed.

Lemma py_index_in_range {A} (xs : list A) (i : Z) :
  (0 <= i < Z.of_nat (length xs))%Z ->
  py_index xs (i - Z.of_nat (length xs)) = py_index xs i
  /\ exists x, xs !! Z.to_nat i = Some x /\ py_index xs i = Ok x.
Proof.
  intros Hi. unfold py_index. cbv zeta.
  destruct (i - Z.of_nat (length xs) <? 0)%Z eqn:E1; [|apply Z.ltb_ge in E1; lia].
  replace (i - Z.of_nat (length xs) + Z.of_nat (length xs))%Z with i by lia.
  destruct (i <? 0)%Z eqn:E2; [apply Z.ltb_lt in E2; lia|].
  rewrite ?E2. split; [done|].
  destruct (lookup_lt_is_Some_2 xs (Z.to_nat i) ltac:(lia)) as [x Hx].
  exists x. by rewrite Hx.
Qed.

Lemma py_index_out_of_range {A} (xs : list A) (i : Z) :
  (i < - Z.of_nat (length xs) \/ Z.of_nat (length xs) <= i)%Z ->
  py_index xs i = Err IndexError.
Proof.
  intros Hi. unfold py_index. cbv zeta.
  destruct (i <? 0)%Z eqn:E1.
  - apply Z.ltb_lt in E1.
    destruct (i + Z.of_nat (length xs) <? 0)%Z eqn:E2; [done|].
    apply Z.ltb_ge in E2. lia.
  - pose proof E1 as E1'. apply Z.ltb_ge in E1'. rewrite ?E1.
    destruct Hi as [Hi|Hi]; [lia|].
    by rewrite (lookup_ge_None_2 xs (Z.to_nat i)) by lia.
Qed.

Lemma py_index_elem {A} (xs : list A) (i : Z) (x : A) :
  py_index xs i = Ok x -> x ∈ xs.
Proof.
  unfold py_index. cbv zeta. destruct (_ <? 0)%Z; [discriminate|].
  destruct (xs !! _) as [x'|] eqn:E; [|discriminate].
  intros [= <-]. by eapply list_elem_of_lookup_2.
Qed.

Section UniverseFacts.

Variable Prob : Type.
Variable p_inv : nat -> Prob.

Lemma getitem_name_elem (u : Universe Prob) (r : Referent) :
  r ∈ items (u_referents u) ->
  exists r', Universe_getitem u (KeyStr (ref_name r)) = Ok r'
             /\ r' ∈ items (u_referents u) /\ ref_name r' = ref_name r.
Proof.
  intros Hin. destruct (find_name_elem _ r Hin) as (r' & Hf & Hr' & Hn).
  exists r'. split; [|done].
  unfold Universe_getitem, _referents_by_name.
  rewrite (foldl_insert_lookup ref_name id). by rewrite Hf.
Qed.

Lemma getitem_name_unique (u : Universe Prob) (r : Referent) :
  NoDup (map ref_name (items (u_referents u))) ->
  r ∈ items (u_referents u) ->
  Universe_getitem u (KeyStr (ref_name r)) = Ok r.
Proof.
  intros Hnd Hin. destruct (getitem_name_elem u r Hin) as (r' & Hg & Hr' & Hn).
  rewrite Hg. f_equal. by eapply NoDup_names_eq.
Qed.

Lemma prior_numpy_all (u : Universe Prob) (c : Prob) :
  (forall r, r ∈ items (u_referents u) -> _prior u !! ref_name r = Some c) ->
  prior_numpy u = Ok (map (fun _ => c) (items (u_referents u))).
Proof.
  unfold prior_numpy. induction (items (u_referents u)) as [|r refs IH]; intros H;
    [done|].
  cbn [foldr map]. rewrite (H r) by left. rewrite IH; [done|].
  intros r' Hr'. apply H. by right.
Qed.

Lemma prior_numpy_missing (u : Universe Prob) (r : Referent) :
  r ∈ items (u_referents u) ->
  _prior u !! ref_name r = None ->
  prior_numpy u = Err KeyError.
Proof.
  unfold prior_numpy. induction (items (u_referents u)) as [|r0 refs IH];
    intros Hin Hnone; [inversion Hin|].
  cbn [foldr]. destruct (_prior u !! ref_name r0) as [p|] eqn:E; [|done].
  apply elem_of_cons in Hin as [->|Hin]; [congruence|]. by rewrite IH.
Qed.

Lemma uniform_lookup (refs : list Referent) (c : Prob) (r : Referent) :
  r ∈ refs ->
  foldl (fun m referent => <[ref_name referent := c]> m) (∅ : gmap string Prob) refs
    !! ref_name r = Some c.
Proof.
  intros Hin. rewrite (foldl_insert_lookup ref_name (fun _ => c)).
  by destruct (find_name_elem _ r Hin) as (r' & -> & _).
Qed.

End UniverseFacts.

(** X20. Looking a referent up by its name, [universe[name]], returns a
    referent of the universe with that name, the referent itself when the
    names are pairwise different, and raises [KeyError] for a name that no
    referent has. *)
Theorem Universe_getitem_name {Prob} (u : Universe Prob) :
  (forall r, r ∈ items (u_referents u) ->
     exists r', Universe_getitem u (KeyStr (ref_name r)) = Ok r'
                /\ r' ∈ items (u_referents u) /\ ref_name r' = ref_name r)
  /\ (NoDup (map ref_name (items (u_referents u))) ->
      forall r, r ∈ items (u_referents u) ->
        Universe_getitem u (KeyStr (ref_name r)) = Ok r)
  /\ (forall s, s ∉ map ref_name (items (u_referents u)) ->
        Universe_getitem u (KeyStr s) = Err KeyError).
Proof.
  split; [apply getitem_name_elem|]. split; [intros; by apply getitem_name_unique|].
  intros s Hs. unfold Universe_getitem, _referents_by_name.
  rewrite (foldl_insert_lookup ref_name id).
  destruct (List.find _ (rev (items (u_referents u)))) as [r|] eqn:E; [|done].
  apply find_some in E as [Hr Hn]. apply String.eqb_eq in Hn. destruct Hs.
  rewrite <- Hn. apply list_elem_of_In, in_map. by apply in_rev.
Qed.

(** X21. Looking a referent up by an integer, [universe[i]]: an index from
    0 to [len - 1] gives the referent at that place, and [i - len] gives the
    same one; any other integer raises [IndexError], and a key that is neither
    a [str] nor an [int] raises [KeyError].  When the names are pairwise
    different, the referent found at an index is the one found under its
    name. *)
Theorem Universe_getitem_index {Prob} (u : Universe Prob) (i : Z) :
  ((0 <= i < Z.of_nat (Universe_len u))%Z ->
   Universe_getitem u (KeyInt (i - Z.of_nat (Universe_len u)))
   = Universe_getitem u (KeyInt i)
   /\ exists r, items (u_referents u) !! Z.to_nat i = Some r
                /\ Universe_getitem u (KeyInt i) = Ok r)
  /\ ((i < - Z.of_nat (Universe_len u) \/ Z.of_nat (Universe_len u) <= i)%Z ->
      Universe_getitem u (KeyInt i) = Err IndexError)
  /\ Universe_getitem u KeyOther = Err KeyError
  /\ (NoDup (map ref_name (items (u_referents u))) ->
      forall r, Universe_getitem u (KeyInt i) = Ok r ->
        Universe_getitem u (KeyStr (ref_name r)) = Ok r).
Proof.
  unfold Universe_len. split; [|split; [|split; [done|]]].
  - apply py_index_in_range.
  - apply py_index_out_of_range.
  - intros Hnd r Hr. apply getitem_name_unique; [done|].
    by apply py_index_elem in Hr.
Qed.

(** X22. [Universe.__init__] keeps the referents; without a prior, or with
    an empty one, every referent gets the prior [1 / len(referents)], and
    [prior_numpy] returns that value once for each referent.  A prior that is
    not empty is kept as it is, and [prior_numpy] raises [KeyError] when it
    lacks the name of a referent. *)
Theorem Universe_init_prior {Prob} (p_inv : nat -> Prob)
    (referents : seq_kind * list Referent) :
  (forall prior, u_referents (Universe_init p_inv referents prior) = referents)
  /\ prior_numpy (Universe_init p_inv referents None)
     = Ok (map (fun _ => p_inv (length (items referents))) (items referents))
  /\ prior_numpy (Universe_init p_inv referents (Some ∅))
     = Ok (map (fun _ => p_inv (length (items referents))) (items referents))
  /\ (forall p, p <> ∅ -> _prior (Universe_init p_inv referents (Some p)) = p)
  /\ (forall p r,
        p <> ∅ -> r ∈ items referents -> p !! ref_name r = None ->
        prior_numpy (Universe_init p_inv referents (Some p)) = Err KeyError).
Proof.
  assert (Hkeep : forall p : gmap string Prob,
             p <> ∅ -> _prior (Universe_init p_inv referents (Some p)) = p).
  { intros p Hp. unfold Universe_init. cbn [_prior].
    destruct (map_to_list p) as [|x xs] eqn:E; [|done].
    by apply map_to_list_empty_iff in E. }
  split; [done|]. split; [|split; [|split; [exact Hkeep|]]].
  - apply prior_numpy_all. intros r Hr. by apply uniform_lookup.
  - apply prior_numpy_all. intros r Hr. unfold Universe_init. cbn [_prior].
    rewrite map_to_list_empty. by apply uniform_lookup.
  - intros p r Hp Hr Hnone. apply (prior_numpy_missing Prob _ r); [done|].
    by rewrite Hkeep.
Qed.

(** ** Equality of universes and of meanings *)

Lemma subset_of_spec (xs ys : list Referent) :
  subset_of xs ys = true <-> forall x, x ∈ xs -> x ∈ ys.
Proof.
  unfold subset_of. rewrite forallb_forall. split.
  - intros H x Hx. apply list_elem_of_In in Hx.
    by apply (bool_decide_eq_true_1 _ (H x Hx)).
  - intros H x Hx. apply bool_decide_eq_true_2, H. by apply list_elem_of_In.
Qed.

Lemma Universe_eq_spec {Prob} (a b : Universe Prob) :
  Universe_eq a b = true
  <-> forall r, r ∈ items (u_referents a) <-> r ∈ items (u_referents b).
Proof.
  unfold Universe_eq. rewrite andb_true_iff, !subset_of_spec. split.
  - intros [H1 H2] r. split; [apply H1|apply H2].
  - intros H. split; intros r; by apply H.
Qed.

Lemma referents_eq_spec (a b : seq_kind * list Referent) :
  referents_eq a b = true <-> a = b.
Proof.
  unfold referents_eq. destruct a as [ka la], b as [kb lb]. cbn [fst snd].
  rewrite andb_true_iff, bool_decide_eq_true. split.
  - intros [Hk ->]. by apply seq_kind_eqb_eq in Hk as ->.
  - intros [= -> ->]. split; [by destruct kb|done].
Qed.

(** X23. Two universes are equal, for [__eq__], exactly when every
    referent of one is a referent of the other: the order of the referents,
    their repetitions, the kind of container and the prior do not count. *)
Theorem Universe_eq_same_set {Prob} (a b : Universe Prob) :
  (Universe_eq a b = true
   <-> forall r, r ∈ items (u_referents a) <-> r ∈ items (u_referents b))
  /\ (forall k1 k2 (p1 p2 : gmap string Prob) (l : list Referent),
        Universe_eq (mkUniverse (k1, l) p1) (mkUniverse (k2, rev l ++ l) p2) = true).
Proof.
  split; [apply Universe_eq_spec|].
  intros k1 k2 p1 p2 l. apply Universe_eq_spec. intros r. cbn.
  rewrite elem_of_app, !list_elem_of_In, <- in_rev. tauto.
Qed.

(** X24. The test by which a dictionary matches two [Meaning] keys, equal
    hashes and [==], is an equivalence relation, as the deduplication of
    expressions by their meanings needs. *)
Theorem Meaning_key_equivalence {Prob} (hash_tuple : list Referent -> Z) :
  key_equivalence (Meaning_key_eqb (Prob := Prob) hash_tuple).
Proof.
  assert (Hspec : forall a b : Meaning Prob,
             Meaning_key_eqb hash_tuple a b = true
             <-> Meaning_hash hash_tuple a = Meaning_hash hash_tuple b
                 /\ referents a = referents b
                 /\ forall r, r ∈ items (u_referents (universe a))
                              <-> r ∈ items (u_referents (universe b))).
  { intros a b. unfold Meaning_key_eqb, Meaning_eq.
    rewrite !andb_true_iff, Z.eqb_eq, referents_eq_spec, Universe_eq_spec. tauto. }
  split; [|split].
  - intros a. by apply Hspec.
  - intros a b H. apply Hspec in H as (Hh & Hr & Hu). apply Hspec.
    split; [done|]. split; [done|]. intros r. by rewrite Hu.
  - intros a b c H1 H2. apply Hspec in H1 as (Hh1 & Hr1 & Hu1).
    apply Hspec in H2 as (Hh2 & Hr2 & Hu2). apply Hspec.
    split; [congruence|]. split; [congruence|]. intros r. by rewrite Hu1.
Qed.

(** ** Meanings of expressions *)





Lemma list_to_map_const_lookup {V} (l : list Referent) (c : V) (r : Referent) :
  r ∈ l ->
  (list_to_map (map (fun x => (ref_name x, c)) l) : gmap string V) !! ref_name r
  = Some c.
Proof.
  induction l as [|a l IH]; intros Hin; [inversion Hin|]. cbn [map list_to_map foldr].
  destruct (decide (ref_name a = ref_name r)) as [E|E].
  - cbn. rewrite E. by rewrite lookup_insert_eq.
  - cbn. rewrite lookup_insert_ne by done. apply IH.
    apply elem_of_cons in Hin as [->|Hin]; [done|done].
Qed.

Lemma list_to_map_const_None {V} (l : list Referent) (c : V) (s : string) :
  (forall x, x ∈ l -> ref_name x <> s) ->
  (list_to_map (map (fun x => (ref_name x, c)) l) : gmap string V) !! s = None.
Proof.
  induction l as [|a l IH]; intros H; [done|]. cbn [map list_to_map foldr]. cbn.
  rewrite lookup_insert_ne by (apply H; left). apply IH. intros x Hx. apply H. by right.
Qed.

Section MeaningsOfExpressions.

Variable Prob : Type.
Variable p_zero : Prob.
Variable p_inv : nat -> Prob.
Variable p_sum : list Prob -> Prob.
Variable p_div : Prob -> Prob -> option Prob.
Variable Val : Type.
Variable call_func : nat -> list Val -> Val.
Variable truthy : Val -> bool.
Variable ref_val : Referent -> Val.


End MeaningsOfExpressions.


(** X26. [Meaning(referents, universe)] without a distribution raises
    [ValueError] when some referent is not in the universe.  Otherwise the
    meaning keeps the referents and the universe, gives probability zero to
    the name of every referent of the universe that is not among them, and
    [1 / len(referents)] to the name of each of them, unless a referent
    outside has the same name. *)
Theorem Meaning_init_default {Prob} (p_zero : Prob) (p_inv : nat -> Prob)
    (p_sum : list Prob -> Prob) (p_div : Prob -> Prob -> option Prob)
    (refs : seq_kind * list Referent) (u : Universe Prob) :
  (subset_of (items refs) (items (u_referents u)) = false ->
   Meaning_init p_zero p_inv p_sum p_div refs u None = Err ValueError)
  /\ (subset_of (items refs) (items (u_referents u)) = true ->
      exists m,
        Meaning_init p_zero p_inv p_sum p_div refs u None = Ok m
        /\ referents m = refs
        /\ universe m = u
        /\ (forall r, r ∈ items (u_referents u) -> r ∉ items refs ->
              dist m !! ref_name r = Some p_zero)
        /\ (forall r, r ∈ items refs ->
              (forall r', r' ∈ items (u_referents u) -> r' ∉ items refs ->
                 ref_name r' <> ref_name r) ->
              dist m !! ref_name r = Some (p_inv (length (items refs))))).
Proof.
  unfold Meaning_init. split; intros Hsub; rewrite Hsub; cbn [negb]; [done|].
  eexists. split; [reflexivity|]. cbn [referents universe dist].
  split; [done|]. split; [done|]. split.
  - intros r Hu Hr. apply lookup_union_Some_l. apply list_to_map_const_lookup.
    apply list_elem_of_In, filter_In. split; [by apply list_elem_of_In|].
    apply negb_true_iff. by apply bool_decide_eq_false_2.
  - intros r Hr Hout. rewrite lookup_union_r.
    + by apply list_to_map_const_lookup.
    + apply list_to_map_const_None. intros x Hx.
      apply list_elem_of_In, filter_In in Hx as [Hx Hn].
      apply negb_true_iff, bool_decide_eq_false_1 in Hn.
      apply Hout; [by apply list_elem_of_In|done].
Qed.



(** ** No expression is enumerated twice *)

Lemma NoDup_map_inj {A B} (f : A -> B) (l : list A) :
  (forall x y, f x = f y -> x = y) -> NoDup l -> NoDup (map f l).
Proof.
  intros Hinj. induction 1 as [|x l Hx _ IH]; cbn; constructor; [|done].
  intros Hin. apply list_elem_of_In, in_map_iff in Hin as (y & E & Hy).
  apply Hinj in E as ->. by apply Hx, list_elem_of_In.
Qed.

Lemma NoDup_of_map {A B} (f : A -> B) (l : list A) :
  NoDup (map f l) -> NoDup l.
Proof.
  induction l as [|x l IH]; cbn; [constructor|]. intros H.
  apply NoDup_cons in H as [Hx H]. constructor; [|by apply IH].
  intros Hin. apply Hx. apply list_elem_of_In, in_map. by apply list_elem_of_In.
Qed.

Lemma NoDup_map_filter {A B} (f : A -> B) (p : A -> bool) (l : list A) :
  NoDup (map f l) -> NoDup (map f (List.filter p l)).
Proof.
  induction l as [|x l IH]; cbn; [done|]. intros H.
  apply NoDup_cons in H as [Hx H]. destruct (p x); [|by apply IH].
  cbn. constructor; [|by apply IH].
  intros Hin. apply Hx. apply list_elem_of_In, in_map_iff in Hin as (y & E & Hy).
  apply filter_In in Hy as [Hy _]. rewrite <- E.
  apply list_elem_of_In, in_map. done.
Qed.

(** The pieces of a [flat_map] do not overlap when each element of a piece
    carries a key that tells which piece it is in. *)
Lemma NoDup_flat_map_key {A B C} (key : B -> C) (kf : A -> C) (f : A -> list B)
    (l : list A) :
  NoDup (map kf l) ->
  (forall x, x ∈ l -> NoDup (f x)) ->
  (forall x y, x ∈ l -> y ∈ f x -> key y = kf x) ->
  NoDup (flat_map f l).
Proof.
  induction l as [|a l IH]; intros Hnd Hf Hkey; cbn; [constructor|].
  cbn in Hnd. apply NoDup_cons in Hnd as [Ha Hnd].
  apply NoDup_app. split; [apply Hf; left|]. split.
  - intros y Hy Hy'. apply list_elem_of_In, in_flat_map in Hy' as (x & Hx & Hyx).
    apply Ha. rewrite <- (Hkey a y) by (done || left).
    rewrite (Hkey x y); [|right; by apply list_elem_of_In|by apply list_elem_of_In].
    apply list_elem_of_In, in_map. done.
  - apply IH; [done| |].
    + intros x Hx. apply Hf. by right.
    + intros x y Hx Hy. apply Hkey; [by right|done].
Qed.

Lemma NoDup_cons_pieces {A} (xs : list A) (tails : list (list A)) :
  NoDup xs -> NoDup tails ->
  NoDup (flat_map (fun x => map (cons x) tails) xs).
Proof.
  intros Hxs Htails.
  apply (NoDup_flat_map_key (fun ys => head ys) (fun x => Some x)).
  - apply NoDup_map_inj; [|done]. by intros x y [= ->].
  - intros x _. apply NoDup_map_inj; [|done]. by intros ys zs [= ->].
  - intros x ys _ Hys. apply list_elem_of_In, in_map_iff in Hys as (zs & <- & _). done.
Qed.

Lemma NoDup_product_repeat {A} (xs : list A) (n : nat) :
  NoDup xs -> NoDup (product_repeat xs n).
Proof.
  intros Hxs. induction n as [|n IH]; cbn; [apply NoDup_singleton|].
  by apply NoDup_cons_pieces.
Qed.

Lemma NoDup_product {A} (pools : list (list A)) :
  Forall NoDup pools -> NoDup (product pools).
Proof.
  induction 1 as [|p ps Hp _ IH]; cbn; [apply NoDup_singleton|].
  by apply NoDup_cons_pieces.
Qed.

Lemma NoDup_take_of {A} (l : list A) (k : nat) : NoDup l -> NoDup (take k l).
Proof.
  intros H. rewrite <- (take_drop k l) in H. by apply NoDup_app in H as (? & _).
Qed.

Lemma add_rules_unique_names (start : Symbol) (rs : list Rule) (g : Grammar) :
  add_rules (Grammar_init start) rs = (g, Ok tt) -> unique_names g.
Proof.
  intros H l.
  destruct (add_rules_lists_rules start rs [] (Grammar_init start)
              (Grammar_init_lists_rules start)) as [Hok Herr].
  destruct (decide (NoDup (map name rs))) as [Hnd|Hnd].
  - destruct (Hok Hnd) as [_ (_ & Hr & _ & _)]. rewrite H in Hr. cbn in Hr.
    rewrite Hr. by apply NoDup_map_filter.
  - specialize (Herr Hnd). rewrite H in Herr. discriminate.
Qed.

Section EnumerateNoDup.

Context {K : Type}.
Variable key_eqb : K -> K -> bool.
Variable g : Grammar.
Hypothesis g_no_empty_rhs : no_empty_rhs g.
Hypothesis g_unique_names : unique_names g.

Lemma plain_yields_depth (fuel depth : nat) (l : Symbol) (e : GrammaticalExpression) :
  e ∈ plain_yields key_eqb g fuel depth l -> ge_depth e = depth.
Proof.
  intros He.
  pose proof (scripted_yielded key_eqb _ _
                (enumerate_at_depth_fuel_scripted key_eqb g fuel depth l)) as HQ.
  rewrite Forall_forall in HQ. by destruct (HQ e He).
Qed.

Lemma node_expressions_key (fuel depth : nat) (rule : Rule) (e : GrammaticalExpression) :
  e ∈ node_expressions (plain_yields key_eqb g fuel) depth rule ->
  rule_name e = name rule /\ children e <> None.
Proof.
  unfold node_expressions. destruct (rhs rule) as [rule_rhs|]; [|inversion 1].
  intros He. apply list_elem_of_In, in_flat_map in He as (cds & _ & He).
  destruct (py_max cds) as [m|]; [|inversion He].
  destruct (Z.of_nat m <? Z.of_nat depth - 1)%Z; [inversion He|].
  apply in_map_iff in He as (cs & <- & _). done.
Qed.

Lemma NoDup_plain_yields (fuel depth : nat) (l : Symbol) :
  NoDup (plain_yields key_eqb g fuel depth l).
Proof.
  revert depth l. induction fuel as [|fuel IH]; intros depth l; [constructor|].
  rewrite (plain_yields_step key_eqb g g_no_empty_rhs). unfold level_expressions.
  apply NoDup_app. split; [|split].
  - destruct (depth =? 0); [|constructor].
    apply (NoDup_of_map rule_name). rewrite map_map. cbn [leaf rule_name].
    apply NoDup_map_filter, g_unique_names.
  - intros e He Hnode. destruct (depth =? 0); [|inversion He].
    apply list_elem_of_In, in_map_iff in He as (r & <- & _).
    apply list_elem_of_In, in_flat_map in Hnode as (rule & _ & Hnode).
    apply list_elem_of_In, node_expressions_key in Hnode as [_ Hc]. by apply Hc.
  - apply (NoDup_flat_map_key rule_name name); [apply g_unique_names| |].
    2: { intros rule e _ He. by apply node_expressions_key in He as [? _]. }
    intros rule Hrule. unfold node_expressions.
    destruct (rhs rule) as [rule_rhs|] eqn:Hrhs; [|constructor].
    apply (NoDup_flat_map_key child_depths_of id).
    + rewrite map_id. apply NoDup_product_repeat, NoDup_seq.
    + intros cds _. destruct (py_max cds) as [m|]; [|constructor].
      destruct (Z.of_nat m <? Z.of_nat depth - 1)%Z; [constructor|].
      apply NoDup_map_inj; [by intros cs1 cs2 [= ->]|].
      apply NoDup_product. apply Forall_forall. intros pool Hpool.
      apply list_elem_of_In, in_map_iff in Hpool as ([cd cl] & <- & _). apply IH.
    + intros cds e Hcds He. unfold id.
      apply elem_of_product_repeat in Hcds as [Hlen _].
      destruct (py_max cds) as [m|]; [|inversion He].
      destruct (Z.of_nat m <? Z.of_nat depth - 1)%Z; [inversion He|].
      apply list_elem_of_In, in_map_iff in He as (cs & <- & Hcs).
      apply list_elem_of_In, elem_of_product, Forall2_map_right in Hcs.
      cbn [child_depths_of children].
      rewrite <- (fst_zip cds rule_rhs) by lia.
      clear -Hcs. induction Hcs as [|c [cd cl] cs zs Hc _ IHcs]; [done|].
      cbn. rewrite IHcs. f_equal. by eapply plain_yields_depth.
Qed.

Lemma NoDup_enumerate_plain (depth : nat) (l : Symbol) :
  NoDup (flat_map (fun num => plain_yields key_eqb g (S num) num l) (seq 0 depth)).
Proof.
  apply (NoDup_flat_map_key ge_depth id).
  - rewrite map_id. apply NoDup_seq.
  - intros num _. apply NoDup_plain_yields.
  - intros num e _ He. by eapply plain_yields_depth.
Qed.

End EnumerateNoDup.

Lemma bool_grammar_unique_names : unique_names bool_grammar.
Proof. apply (add_rules_unique_names "B" [rule_T1; rule_T2; rule_AND]). reflexivity. Qed.

(** X28. In a grammar without empty right-hand sides whose rules have
    pairwise different names under each nonterminal, no expression is
    yielded twice: neither by a call of [enumerate_at_depth] nor by a sweep of
    [enumerate], whatever the deduplication arguments and the consumer. *)
Theorem enumerate_no_duplicates {K} (key_eqb : K -> K -> bool) (g : Grammar) :
  no_empty_rhs g ->
  unique_names g ->
  (forall depth l ud uk cf consume,
     NoDup (yielded (enumerate_at_depth key_eqb g depth l ud uk cf consume)))
  /\ (forall depth lhs ud uk cf consume,
        NoDup (yielded (enumerate key_eqb g depth lhs ud uk cf consume))).
Proof.
  intros Hg Hu. split.
  - intros depth l ud uk cf consume.
    destruct (enumerate_at_depth_fuel_take key_eqb g (S depth) depth l ud uk cf consume)
      as [k Hk].
    unfold enumerate_at_depth. rewrite Hk. by apply NoDup_take_of, NoDup_plain_yields.
  - intros depth lhs ud uk cf consume. rewrite (enumerate_play key_eqb g Hg).
    destruct (play_yielded_take key_eqb uk cf consume
                (flat_map (fun num => plain_yields key_eqb g (S num) num
                                        (default (_start g) lhs)) (seq 0 depth), None)
                (init_run ud)) as [k Hk].
    rewrite Hk. cbn [init_run yielded app fst]. by apply NoDup_take_of, NoDup_enumerate_plain.
Qed.

Lemma enumerate_no_duplicates_witness :
  no_empty_rhs bool_grammar
  /\ unique_names bool_grammar
  /\ NoDup (yielded (enumerate Bool.eqb bool_grammar 2 None None None None take_all)).
Proof.
  split; [exact bool_grammar_no_empty_rhs|]. split; [exact bool_grammar_unique_names|].
  exact (proj2 (enumerate_no_duplicates Bool.eqb bool_grammar bool_grammar_no_empty_rhs
                  bool_grammar_unique_names) 2 None None None None take_all).
Defined.

(** ** The order of expressions *)

Lemma string_compare_refl (s : string) : String.compare s s = Eq.
Proof.
  pose proof (String.compare_antisym s s) as H.
  destruct (String.compare s s); cbn in H; congruence.
Qed.

Lemma string_ltb_irrefl (s : string) : String.ltb s s = false.
Proof. unfold String.ltb. by rewrite string_compare_refl. Qed.

Lemma string_ltb_asym (s1 s2 : string) :
  s1 <> s2 -> String.ltb s2 s1 = negb (String.ltb s1 s2).
Proof.
  intros Hne. unfold String.ltb. rewrite (String.compare_antisym s2 s1).
  destruct (String.compare s1 s2) eqn:E; cbn; try done.
  by apply String.compare_eq_iff in E.
Qed.

Lemma seq_lt_cons {A} (eqb : A -> A -> bool) (lt : A -> A -> result bool)
    (x y : A) (l1 l2 : list A) :
  seq_lt eqb lt (x :: l1) (y :: l2)
  = if eqb x y then seq_lt eqb lt l1 l2 else lt x y.
Proof. reflexivity. Qed.

Lemma seq_lt_refl (l : list GrammaticalExpression) :
  seq_lt ge_eq ge_lt l l = Ok false.
Proof. induction l as [|x l IH]; [done|]. by rewrite seq_lt_cons, ge_eq_refl. Qed.

Lemma option_eqb_string_refl (a : option string) : option_eqb String.eqb a a = true.
Proof. destruct a; cbn; [apply String.eqb_refl|done]. Qed.

Lemma ge_lt_irrefl (e : GrammaticalExpression) : ge_lt e e = Ok false.
Proof.
  destruct e as [n f c fm]. cbn [ge_lt].
  rewrite String.eqb_refl, option_eqb_string_refl, Nat.eqb_refl. cbn [negb].
  destruct c as [[k l]|]; [|done].
  replace (seq_kind_eqb (kind_or_tuple k l) (kind_or_tuple k l)) with true
    by by destruct (kind_or_tuple k l).
  apply seq_lt_refl.
Qed.

Lemma ge_lt_names (a b : GrammaticalExpression) :
  rule_name a <> rule_name b ->
  ge_lt a b = Ok (String.ltb (rule_name a) (rule_name b)).
Proof.
  destruct a as [n1 f1 c1 fm1], b as [n2 f2 c2 fm2]. cbn [rule_name ge_lt].
  intros Hne. apply String.eqb_neq in Hne. by rewrite Hne.
Qed.

Lemma ge_lt_tuple_nodes (n : string) (f : nat) (cs1 cs2 : list GrammaticalExpression) :
  ge_lt (GExpr n f (Some (PyTuple, cs1)) None) (GExpr n f (Some (PyTuple, cs2)) None)
  = seq_lt ge_eq ge_lt cs1 cs2.
Proof.
  cbn [ge_lt]. rewrite String.eqb_refl, Nat.eqb_refl. cbn [negb option_eqb].
  by destruct cs1, cs2.
Qed.

Lemma seq_comparable (cs1 cs2 : list GrammaticalExpression) :
  Forall2 comparable cs1 cs2 ->
  (seq_lt ge_eq ge_lt cs1 cs2 = Ok true /\ seq_lt ge_eq ge_lt cs2 cs1 = Ok false
   /\ cs1 <> cs2)
  \/ (cs1 = cs2 /\ seq_lt ge_eq ge_lt cs1 cs2 = Ok false)
  \/ (seq_lt ge_eq ge_lt cs1 cs2 = Ok false /\ seq_lt ge_eq ge_lt cs2 cs1 = Ok true
      /\ cs1 <> cs2).
Proof.
  induction 1 as [|x y l1 l2 Hxy _ IH]; [right; left; done|].
  rewrite !seq_lt_cons.
  assert (Hne : x <> y -> ge_eq x y = false /\ ge_eq y x = false).
  { intros Hne. split.
    - destruct (ge_eq x y) eqn:E; [|done]. by apply ge_eq_eq in E.
    - destruct (ge_eq y x) eqn:E; [|done]. apply ge_eq_eq in E. by subst. }
  destruct Hxy as [(H1 & H2 & Hd)|[(-> & H1)|(H1 & H2 & Hd)]].
  - destruct (Hne Hd) as [-> ->]. left. split; [done|]. split; [done|]. congruence.
  - rewrite ge_eq_refl.
    destruct IH as [(I1 & I2 & Id)|[(-> & I1)|(I1 & I2 & Id)]].
    + left. split; [done|]. split; [done|]. congruence.
    + right. left. done.
    + right. right. split; [done|]. split; [done|]. congruence.
  - destruct (Hne Hd) as [-> ->]. right. right. split; [done|]. split; [done|].
    congruence.
Qed.

Lemma derives_comparable (g : Grammar) (a : GrammaticalExpression) :
  names_indexed g ->
  forall b l1 l2, derives g l1 a -> derives g l2 b -> comparable a b.
Proof.
  intros Hidx.
  induction a as [n f fm|n f k cs fm IH] using GrammaticalExpression_tree_ind;
    intros b l1 l2 Ha Hb.
  - inversion Ha as [l rule Hin Hrhs|]; subst.
    destruct (decide (name rule = rule_name b)) as [E|E].
    + inversion Hb as [l' rule' Hin' Hrhs'|l' rule' rr' cs' Hin' Hrhs' Hcs']; subst;
        cbn [rule_name] in E;
        pose proof (Hidx _ _ Hin) as H1; pose proof (Hidx _ _ Hin') as H2;
        rewrite E in H1; rewrite H1 in H2; injection H2 as ->; [|congruence].
      right. left. split; [done|]. apply ge_lt_irrefl.
    + pose proof (ge_lt_names (GExpr (name rule) (func rule) None None) b E) as H1.
      pose proof (ge_lt_names b (GExpr (name rule) (func rule) None None)
                    (not_eq_sym E)) as H2.
      cbn [rule_name] in H1, H2. rewrite (string_ltb_asym _ _ E) in H2.
      assert (Hd : GExpr (name rule) (func rule) None None <> b).
      { intros <-. by apply E. }
      destruct (String.ltb (name rule) (rule_name b)); [left|right; right]; done.
  - inversion Ha as [|l rule rr cs0 Hin Hrhs Hcs]; subst.
    destruct (decide (name rule = rule_name b)) as [E|E].
    + inversion Hb as [l' rule' Hin' Hrhs'|l' rule' rr' cs' Hin' Hrhs' Hcs']; subst;
        cbn [rule_name] in E;
        pose proof (Hidx _ _ Hin) as H1; pose proof (Hidx _ _ Hin') as H2;
        rewrite E in H1; rewrite H1 in H2; injection H2 as ->; [congruence|].
      assert (rr' = rr) by congruence. subst rr'.
      assert (Hall : Forall2 comparable cs cs').
      { clear -IH Hcs Hcs'. revert cs' Hcs' IH.
        induction Hcs as [|s c rr cs Hc _ IHcs]; intros cs' Hcs' IH;
          inversion Hcs' as [|s' c' rr' cs'' Hc' Hcs'']; subst; constructor.
        - apply Forall_cons in IH as [IHc _]. by apply (IHc c' s s).
        - apply IHcs; [done|]. by apply Forall_cons in IH as [_ ?]. }
      unfold comparable. rewrite !ge_lt_tuple_nodes.
      destruct (seq_comparable cs cs' Hall) as [(I1 & I2 & Id)|[(-> & I1)|(I1 & I2 & Id)]].
      * left. split; [done|]. split; [done|]. congruence.
      * right. left. done.
      * right. right. split; [done|]. split; [done|]. congruence.
    + set (a := GExpr (name rule) (func rule) (Some (PyTuple, cs)) None) in *.
      pose proof (ge_lt_names a b E) as H1.
      pose proof (ge_lt_names b a (not_eq_sym E)) as H2.
      cbn [rule_name a] in H1, H2. rewrite (string_ltb_asym _ _ E) in H2.
      assert (Hd : a <> b).
      { intros <-. by apply E. }
      destruct (String.ltb (name rule) (rule_name b)); [left|right; right]; done.
Qed.

(** X29. [<] between expressions: an expression is not smaller than
    itself; when the rule names differ, their order as strings decides,
    whatever the other fields; expressions with the same name and form but
    different function objects cannot be compared ([TypeError]), nor can
    children in a list be compared with children in a tuple.  The derivation
    trees of a grammar with an exact name index are totally ordered: of two
    of them one is smaller than the other, or they are the same, and no
    comparison raises. *)
Theorem ge_lt_order :
  (forall e, ge_lt e e = Ok false)
  /\ (forall a b,
        rule_name a <> rule_name b ->
        ge_lt a b = Ok (String.ltb (rule_name a) (rule_name b))
        /\ ge_lt b a = Ok (negb (String.ltb (rule_name a) (rule_name b))))
  /\ (forall n f1 f2 c1 c2 fm,
        f1 <> f2 -> ge_lt (GExpr n f1 c1 fm) (GExpr n f2 c2 fm) = Err TypeError)
  /\ (forall n f x l1 y l2 fm,
        ge_lt (GExpr n f (Some (PyList, x :: l1)) fm)
              (GExpr n f (Some (PyTuple, y :: l2)) fm) = Err TypeError)
  /\ (forall g l1 l2 a b,
        names_indexed g -> derives g l1 a -> derives g l2 b -> comparable a b).
Proof.
  split; [apply ge_lt_irrefl|]. split; [|split; [|split]].
  - intros a b Hne. split; [by apply ge_lt_names|].
    rewrite (ge_lt_names b a (not_eq_sym Hne)). by rewrite string_ltb_asym.
  - intros n f1 f2 c1 c2 fm Hne. cbn [ge_lt].
    rewrite String.eqb_refl, option_eqb_string_refl. cbn [negb].
    apply Nat.eqb_neq in Hne. by rewrite Hne.
  - intros n f x l1 y l2 fm. cbn [ge_lt].
    by rewrite String.eqb_refl, option_eqb_string_refl, Nat.eqb_refl.
  - intros g l1 l2 a b Hidx Ha Hb. by eapply derives_comparable.
Qed.

(** ** Meanings with a distribution *)

Lemma list_to_map_names_lookup {V} (val : string -> V) (l : list Referent)
    (r : Referent) :
  r ∈ l ->
  (list_to_map (map (fun x => (ref_name x, val (ref_name x))) l) : gmap string V)
    !! ref_name r
  = Some (val (ref_name r)).
Proof.
  induction l as [|a l IH]; intros Hin; [inversion Hin|]. cbn [map list_to_map foldr].
  destruct (decide (ref_name a = ref_name r)) as [E|E].
  - cbn. rewrite E. by rewrite lookup_insert_eq.
  - cbn. rewrite lookup_insert_ne by done. apply IH.
    apply elem_of_cons in Hin as [->|Hin]; [done|done].
Qed.

Lemma list_to_map_names_None {V} (val : string -> V) (l : list Referent) (s : string) :
  (forall x, x ∈ l -> ref_name x <> s) ->
  (list_to_map (map (fun x => (ref_name x, val (ref_name x))) l) : gmap string V) !! s
  = None.
Proof.
  induction l as [|a l IH]; intros H; [done|]. cbn [map list_to_map foldr]. cbn.
  rewrite lookup_insert_ne by (apply H; left). apply IH. intros x Hx. apply H. by right.
Qed.

Section MeaningDist.

Variable Prob : Type.
Variable p_zero : Prob.
Variable p_inv : nat -> Prob.
Variable p_sum : list Prob -> Prob.
Variable p_div : Prob -> Prob -> option Prob.

(** The entries of the distribution, when every referent has a weight that
    can be divided by the total. *)
Lemma dist_entries (d : gmap string Prob) (total : Prob) (val : string -> Prob)
    (l : list Referent) :
  (forall r, r ∈ l ->
     exists w, d !! ref_name r = Some w /\ p_div w total = Some (val (ref_name r))) ->
  foldr (fun r acc =>
           match
             match d !! ref_name r with
             | None => Err KeyError
             | Some w =>
                 match p_div w total with
                 | None => Err ZeroDivisionError
                 | Some q => Ok (ref_name r, q)
                 end
             end, acc
           with
           | Err e, _ => Err e
           | Ok _, Err e => Err e
           | Ok x, Ok xs => Ok (x :: xs)
           end) (Ok []) l
  = Ok (map (fun x => (ref_name x, val (ref_name x))) l).
Proof.
  induction l as [|a l IH]; intros H; [done|]. cbn [foldr map].
  destruct (H a ltac:(left)) as (w & -> & ->).
  rewrite IH; [done|]. intros r Hr. apply H. by right.
Qed.

End MeaningDist.

(** X30. [Meaning(referents, universe, dist)] with a distribution: it
    raises [ValueError] when some referent is not in the universe; otherwise
    [KeyError] when the first referent has no weight in [dist], and
    [ZeroDivisionError] when its weight cannot be divided by the total.  When
    every referent has a weight that can be divided, the meaning keeps the
    referents and the universe, gives zero to the name of every referent of
    the universe outside them and the normalised weight to the name of each
    of them, unless a referent outside has the same name. *)
Theorem Meaning_init_dist {Prob} (p_zero : Prob) (p_inv : nat -> Prob)
    (p_sum : list Prob -> Prob) (p_div : Prob -> Prob -> option Prob)
    (refs : seq_kind * list Referent) (u : Universe Prob) (d : gmap string Prob) :
  (subset_of (items refs) (items (u_referents u)) = false ->
   Meaning_init p_zero p_inv p_sum p_div refs u (Some d) = Err ValueError)
  /\ (subset_of (items refs) (items (u_referents u)) = true ->
      (forall r rest,
         items refs = r :: rest -> d !! ref_name r = None ->
         Meaning_init p_zero p_inv p_sum p_div refs u (Some d) = Err KeyError)
      /\ (forall r rest w,
            items refs = r :: rest -> d !! ref_name r = Some w ->
            p_div w (p_sum (map snd (map_to_list d))) = None ->
            Meaning_init p_zero p_inv p_sum p_div refs u (Some d)
            = Err ZeroDivisionError)
      /\ (forall val : string -> Prob,
            (forall r, r ∈ items refs ->
               exists w, d !! ref_name r = Some w
                         /\ p_div w (p_sum (map snd (map_to_list d)))
                            = Some (val (ref_name r))) ->
            exists m,
              Meaning_init p_zero p_inv p_sum p_div refs u (Some d) = Ok m
              /\ referents m = refs
              /\ universe m = u
              /\ (forall r, r ∈ items (u_referents u) -> r ∉ items refs ->
                    dist m !! ref_name r = Some p_zero)
              /\ (forall r, r ∈ items refs ->
                    (forall r', r' ∈ items (u_referents u) -> r' ∉ items refs ->
                       ref_name r' <> ref_name r) ->
                    dist m !! ref_name r = Some (val (ref_name r))))).
Proof.
  unfold Meaning_init. split; intros Hsub; rewrite Hsub; cbn [negb]; [done|].
  split; [|split].
  - intros r rest -> Hnone. cbn [foldr]. by rewrite Hnone.
  - intros r rest w -> Hw Hdiv. cbn [foldr]. by rewrite Hw, Hdiv.
  - intros val Hall.
    rewrite (dist_entries Prob p_div d _ val (items refs) Hall).
    eexists. split; [reflexivity|]. cbn [referents universe dist].
    split; [done|]. split; [done|]. split.
    + intros r Hu Hr. apply lookup_union_Some_l. apply list_to_map_const_lookup.
      apply list_elem_of_In, filter_In. split; [by apply list_elem_of_In|].
      apply negb_true_iff. by apply bool_decide_eq_false_2.
    + intros r Hr Hout. rewrite lookup_union_r.
      * by apply (list_to_map_names_lookup val).
      * apply list_to_map_const_None. intros x Hx.
        apply list_elem_of_In, filter_In in Hx as [Hx Hn].
        apply negb_true_iff, bool_decide_eq_false_1 in Hn.
        apply Hout; [by apply list_elem_of_In|done].
Qed.
